(* ===== verification/_CoqProject ===== *)
-Q . S2P
Prelude.v
Normalizer.v
KeyPacking.v
Dictionary.v
Query.v
Stream.v
Lifecycle.v
Levenshtein.v
Crossword.v
