(* ===== verification/Prelude.v ===== *)
(** * Verification of the crossword dictionary index (HideLord/PersonalSHit)

    The program has two source files.  [src/dictionary.cpp] is the class
    [utils::Dictionary]: a text normaliser for a legacy Cyrillic code page
    ([toupper], [isalpha], [dosToWinCode], [cleanString]), the
    pattern-constrained word index ([getKey], [addToFastSearch],
    [loadDictionary], [reset], [shuffle]), the query with its results cache
    ([findPossible], [isPossible], [getDirty], [getExplanation]), the two
    constructors, the destructor and an edit-distance utility
    ([levenstein]).  [src/crossword.cpp] is the board loader and the slot
    extractor ([crossword::load], [crossword::loadWords]).  The headers
    ([dictionary.hpp], [crossword.h]) are not part of the sources: the
    constants, predicates and comparators they declare are parameters of
    the model (type classes), never guessed values, and the library
    routines the code only calls ([std::getline], [std::random_shuffle],
    [std::sort], [read_ini]) are interfaces with the laws the C++ standard
    gives them.

    ** Files, in dependency order

    - [Prelude] (this file): machine-integer wrap-around ([wrap], [wrap8],
      [wrap16]), the byte predicate [is_byte], byte extraction from a packed
      integer ([getByte]) with its algebra over [Z.lor] and [Z.shiftl], the
      extensionality of packed keys, list helpers, [inspect] for the
      definitions by well-founded recursion, the tactics [case_if],
      [bits] and [zwrap], and the hint databases [xword] (resolution) and [xbytes]
      (rewriting).  Standard Library only, so every other file can load it.
    - [Normalizer]: the class [HeaderConstants] (the values [dictionary.hpp]
      fixes: [CYRILLIC_A], [LONGEST_WORD], [ANY_CHAR]) with the instances
      [cp1251] and [cp1251_qmark] used by the witnesses; [toupper_char],
      [toupper], [isalpha], [dosToWinCode], [cleanString] and their
      composition [canonicalize] as [loadDictionary] applies it.  Characters
      are [Z] values in [0, 256) (the [uint8_t] reading of a [char]);
      [c - 32] and [c += 64] wrap modulo 256 as the conversion back to
      [char] does.
    - [KeyPacking]: [getKey] (mask and word) and [getKeyW] (word only), the
      two [switch] statements with fall-through modelled by [fallthrough] /
      [fallthroughW] entered at label [min (size, 6)]; the loop [getKey_loop]
      the design notes ask for and its equivalence; bounds, byte extraction,
      the characterisation of key equality ([Section SameLength]) and the
      count of the masks that give one key ([count_fits]).
    - [Dictionary]: the state [Dict] (fields [_allWords], [_dirtyDict],
      [_explanationDict], [_cacheSearchMap], [_fastSearch]) with [gmap] for
      the maps and a list of [LONGEST_WORD] maps for the array
      [_fastSearch]; [reset], [addToFastSearch], the body of the loading
      loop [loadRecord], the loop [loadRecords], [loadDictionary] on the
      records of a file, [getDirty], [getExplanation], [getFromIndex].  An
      access [_fastSearch[n]] with [n >= LONGEST_WORD] is undefined
      behaviour in the source and [None] in the model.  The invariants
      [index_ok] and [index_exact] relate every bucket to the word table;
      [dict_equiv] ([≡]) identifies dictionaries whose buckets are
      permutations of each other, with [Proper] instances for the
      observations.
    - [Query]: the heap of the vectors [findPossible] allocates ([Heap], a
      [gmap] from addresses to vectors), the cache of pointers into it,
      the result view [Pattern] that reads through the heap ([view_ids]);
      [isPossible], the two paths of [findPossible] ([touch_bucket],
      [select], [cache_store]).  The specification is [matches] and
      [answer]; the invariant of a state is [dict_ok] ([index_ok], every
      cached vector allocated and a permutation of the answer, no vector
      cached twice) and [extends] is the preorder "only the cache and the
      heap have grown".
    - [Stream]: [std::ifstream] as the unread characters with [eofbit] and
      [failbit]; [getline] from its specification; the [while (getline ...)]
      loop of [loadDictionary] as [load_loop], and [records], the list of
      records that loop reads; [print], the file of a list of records.
    - [Lifecycle]: [Dictionary::shuffle] over the interface [RandomShuffle]
      of [std::random_shuffle] (any permutation, with a new generator
      state), with the exchange shuffle of the GNU library as an instance;
      the destructor; the two constructors over the oracle [FileSystem]
      ([read_ini] and file contents) with exceptions as values of
      [Outcome]; the calls of a client as the executable [step], sequences
      of calls as [run], and the inductive [reachable] from the two
      constructors.
    - [Levenshtein]: [levenstein] with its table written cell by cell,
      every [operator[]] checked; the recurrence [D] it computes and the
      edit distance [lev].
    - [Crossword]: [crossword::loadWords] and [crossword::load].  The class
      [BoardConstants] holds [cyrillicA] and [isBox] on a cell, [StdSort] is
      [std::sort] with the comparator of the header.  A pointer
      [&board[i][j]] is the pair [(i, j)]; [deref] and [assign] are the
      accesses a consumer of the slots makes through it.  [load] is [load_path] (the two
      prompt loops over the list of words typed and a function from paths
      to contents) followed by [load_grid] (the bytes of the file).

    ** What the theorems show

    - Normaliser: the canonical key is uppercase alphabetic, canonicalising
      is idempotent, case- and decoration-insensitive.
    - Key packing: the fall-through switch equals the loop; a key is below
      2^48; a pattern's key equals a word's masked key exactly when the
      pattern holds the word's letters on the mask and zero elsewhere.
    - Index: [reset] establishes and [loadRecord] preserves [index_ok];
      after loading, the table is the list of canonical keys in file order
      and every bucket is exact; identifiers are exact below 2^16 words and
      wrap above; first-wins for the surface and explanation maps; a key of
      [LONGEST_WORD] letters is undefined behaviour.
    - Query: [findPossible] refines [answer] on both paths and keeps
      [dict_ok]; a cache hit returns the stored view and changes nothing;
      views stay valid across later queries; a short word is enumerated
      2^(6-L) times; a header whose [ANY_CHAR] is not 0 empties the
      answers; an over-long pattern is undefined behaviour.
    - Stream: the loop terminates, reads back what [print] wrote, accepts
      an unclosed last record, and gives a truncated last record the
      explanation of the record before it.
    - Lifecycle: [shuffle] keeps the content and the invariant and views
      stay valid; the destructor frees every cached vector once; a reload
      leaks the cached vectors; every reachable state satisfies the
      invariant ([reachable_inv], by induction on [reachable]); a call
      whose requirement holds returns ([step_total]); an object built
      from a configuration answers a query over the records of the file
      the configuration names ([Dictionary_default_query], which composes
      the stream, the loader, the shuffle and the query); the second
      constructor throws where the specification asks for a fallback.
    - Edit distance: [levenstein] returns [D], which is symmetric, at most
      the edit distance and at most the shorter length; its base row and
      column are zero, so it is 0 between a string and any of its
      suffixes.
    - Crossword: the slots are exactly the maximal runs of two or more
      open cells of the rows and columns, each once, sorted; [loadWords]
      terminates inside the board; identifiers of letters are injective on
      cells, and what is assigned through a letter of one slot is read
      through the letters of the same cell of the others; a well-formed file is decoded to its board; a short file, a
      negative dimension and a second [load] are characterised; the path
      loops open [name + ".ctb"] and throw on a short retyped path;
      [crossword_load_decode] composes the three parts of [load].

    ** Bounds, fuel and measures

    No definition takes fuel.  The loops whose bound is fixed are folds
    over [seq] (the 64 masks, [LONGEST_WORD] lengths, the [N] by [M] cells,
    the rows and columns of the table of [levenstein]).  Three loops are
    defined by well-founded recursion with Equations: [load_loop] and
    [records] on [remaining], the number of unread characters plus one
    while [eofbit] is clear, which every successful [getline] decreases;
    [scan] and [line_loop] on [len - j], which the body's own increments
    decrease.  Each has an unfolding lemma ([load_loop_eq], [records_eq],
    [scan_eq], [line_loop_eq]) and evaluates by [vm_compute].  The prompt
    loops of [load] recurse on the list of the words typed; when the list
    is exhausted the loop waits ([unanswered]).  Integers are [Z] with the
    wrap written where the source converts: [uint16_t] identifiers
    ([wrap16]), [char] arithmetic ([wrap8]), the signed [char] dimensions
    of the grid ([to_char]).  Keys stay below 2^48 and the entries of the
    table of [levenstein] below the shorter length, so the [uint64_t] and
    [int] arithmetic cannot overflow.  [capacity] is 2^16, the number of
    identifiers.

    ** Assumptions

    - What the absent headers declare.  [_fastSearch] is an array of
      exactly [LONGEST_WORD] maps, read off the bounds of the loops of
      [reset] and [shuffle]; [getFromIndex] is [_allWords[index]];
      [CYRILLIC_A] and [ANY_CHAR] are character codes in [0, 256), and the
      theorems that need more of them say so ([224 <= CYRILLIC_A],
      [ANY_CHAR = 0]); [N] and [M] of the crossword are [char]s.
    - The platform.  [char] is signed and has 8 bits; [tolower] is that
      of the "C" locale; [new] does not fail and returns an address that
      is not allocated ([fresh]).
    - The streams.  [std::getline] and [get] are modelled from the C++
      standard with [eofbit] and [failbit] only: no [badbit], and no
      translation of line ends for the dictionary file, which is opened in
      text mode.  An unopenable file and a failed [read_ini] are the
      [None] of the oracle.  A successful [fin.open] clears the state of
      the stream.  When the words typed at a prompt are used up, [load]
      does not return ([unanswered]).
    - Arithmetic.  [int] and [uint32_t] loop counters and table entries
      are unbounded numbers; for [levenstein] this is justified by
      [levenstein_range], the entries never exceed the shorter length.
    - Logic.  The definitions by well-founded recursion are made with
      Equations, whose unfolding lemmas use the axiom of functional
      extensionality of the Standard Library; the development states no
      axiom of its own.

    ** Not modelled

    What the functions print on [std::cout] (diagnostics, prompts and the
    grid): output only, with no effect on either object.  The parser
    [boost::property_tree::read_ini] is a library and appears as the
    oracle [read_ini].  The solver that consumes the slots and the views
    is not among the sources.  Everything else of the two source files is
    modelled. *)

From Stdlib Require Import ZArith List Lia Bool.
Import ListNotations.
#[local] Open Scope Z_scope.

(** ** Notation for the source's bit operators *)

Declare Scope cxx_scope.
Delimit Scope cxx_scope with cxx.
Notation "a <<< n" := (Z.shiftl a n) (at level 40, left associativity) : cxx_scope.
Notation "a >>> n" := (Z.shiftr a n) (at level 40, left associativity) : cxx_scope.
Notation "a .| b" := (Z.lor a b) (at level 50, left associativity) : cxx_scope.
Notation "a .& b" := (Z.land a b) (at level 40, left associativity) : cxx_scope.
#[local] Open Scope cxx_scope.

(** ** Tactics *)

(** Case analysis on the test of the first [if] of the goal. *)
Ltac case_if :=
  match goal with
  | |- context [if ?b then _ else _] => destruct b eqn:?
  end.

(** Case analysis on the test of an [if] in a hypothesis. *)
Ltac case_if_in H :=
  match type of H with
  | context [if ?b then _ else _] => destruct b eqn:?
  end.

(** [zwrap] unfolds the wrap-around operators and hands div and mod to lia. *)
Ltac zwrap_core := Z.div_mod_to_equations; lia.

(** ** Well-founded recursion *)

(** A value with the equation that it is the value of the term: the
    definitions by well-founded recursion match on it to keep, in the
    recursive call, what the matched call returned. *)
Definition inspect {A} (x : A) : {y | x = y} := exist _ x eq_refl.

(** ** Hint databases *)

Create HintDb xword discriminated.
Create Rewrite HintDb xbytes.

(** ** Machine integers

    A [w]-bit unsigned value is a [Z] in [0, 2^w); [wrap w] is the
    conversion to the [w]-bit unsigned type. *)

Definition wrap (w : Z) (z : Z) : Z := z mod 2 ^ w.
Definition wrap8 (z : Z) : Z := z mod 256.
Definition wrap16 (z : Z) : Z := z mod 65536.

(** The number of distinct 16-bit word identifiers. *)
Definition capacity : nat := Z.to_nat 65536.

Definition is_byte (z : Z) : Prop := 0 <= z < 256.
Definition is_byteb (z : Z) : bool := (0 <=? z) && (z <? 256).
Definition bytes (s : list Z) : Prop := Forall is_byte s.

Ltac zwrap := unfold wrap8, wrap16, is_byte in *; zwrap_core.

Lemma is_byteb_spec z : is_byteb z = true <-> is_byte z.
Proof. unfold is_byteb, is_byte. lia. Qed.

Lemma wrap8_byte z : is_byte (wrap8 z).
Proof. zwrap. Qed.

Lemma wrap8_small z : is_byte z -> wrap8 z = z.
Proof. intros. zwrap. Qed.

Lemma wrap8_idem z : wrap8 (wrap8 z) = wrap8 z.
Proof. zwrap. Qed.

Lemma wrap16_range z : 0 <= wrap16 z < 65536.
Proof. zwrap. Qed.

Lemma wrap16_small z : 0 <= z < 65536 -> wrap16 z = z.
Proof. intros. zwrap. Qed.

Lemma wrap16_add_period z : wrap16 (z + 65536) = wrap16 z.
Proof. zwrap. Qed.

Lemma capacity_Z : Z.of_nat capacity = 65536.
Proof. reflexivity. Qed.

Lemma wrap16_below_capacity n : (n < capacity)%nat -> wrap16 (Z.of_nat n) = Z.of_nat n.
Proof. intros. apply wrap16_small. pose proof capacity_Z. lia. Qed.

Lemma wrap16_above_capacity n : wrap16 (Z.of_nat (capacity + n)) = wrap16 (Z.of_nat n).
Proof. rewrite Nat2Z.inj_add, capacity_Z, Z.add_comm. apply wrap16_add_period. Qed.

Lemma wrap_8 z : wrap 8 z = wrap8 z.
Proof. reflexivity. Qed.

Lemma wrap_16 z : wrap 16 z = wrap16 z.
Proof. reflexivity. Qed.

#[export] Hint Resolve wrap8_byte wrap16_range : xword.
#[export] Hint Rewrite wrap8_idem wrap16_add_period wrap16_above_capacity : xbytes.
#[global] Opaque capacity.

(** ** Strings of bytes *)

Lemma bytes_of_forallb s : forallb is_byteb s = true -> bytes s.
Proof.
  intros H. apply Forall_forall. intros c Hc.
  apply is_byteb_spec. now apply (proj1 (forallb_forall _ _) H).
Qed.

Lemma bytes_nil : bytes [].
Proof. constructor. Qed.

Lemma bytes_cons c s : is_byte c -> bytes s -> bytes (c :: s).
Proof. now constructor. Qed.

Lemma bytes_cons_inv c s : bytes (c :: s) -> is_byte c /\ bytes s.
Proof. intros H. inversion H; subst. auto. Qed.

Lemma bytes_app s t : bytes s -> bytes t -> bytes (s ++ t).
Proof. intros. apply Forall_app. auto. Qed.

Lemma bytes_app_inv s t : bytes (s ++ t) -> bytes s /\ bytes t.
Proof. apply Forall_app. Qed.

Lemma bytes_map f s : (forall c, is_byte c -> is_byte (f c)) -> bytes s -> bytes (map f s).
Proof. intros Hf Hs. induction Hs; simpl; constructor; auto. Qed.

Lemma bytes_filter f s : bytes s -> bytes (filter f s).
Proof. intros Hs. induction Hs; simpl; [constructor|]. case_if; [constructor|]; auto. Qed.

(** [s[i]] of the source, with the zero byte past the end (the terminator
    [std::string] guarantees at [s[size()]]). *)
Definition at_ (s : list Z) (i : nat) : Z := nth i s 0.

Lemma bytes_at s i : bytes s -> is_byte (at_ s i).
Proof.
  intros Hs. unfold at_. destruct (Nat.lt_ge_cases i (length s)) as [Hi|Hi].
  - pose proof (proj1 (Forall_forall _ _) Hs) as H. apply H. now apply nth_In.
  - rewrite nth_overflow by assumption. unfold is_byte. lia.
Qed.

Lemma at_overflow s i : (length s <= i)%nat -> at_ s i = 0.
Proof. intros. unfold at_. now apply nth_overflow. Qed.

Lemma at_app_l s t i : (i < length s)%nat -> at_ (s ++ t) i = at_ s i.
Proof. intros. unfold at_. now apply app_nth1. Qed.

Lemma at_ext s t :
  length s = length t -> (forall i, (i < length s)%nat -> at_ s i = at_ t i) -> s = t.
Proof.
  intros Hl H. apply (nth_ext s t 0 0 Hl). intros n Hn. apply (H n Hn).
Qed.

#[export] Hint Resolve bytes_nil bytes_cons bytes_app bytes_filter bytes_at : xword.

(** ** Bytes of a packed integer

    [getByte k i] is byte [i] of [k], least significant first: what
    [(k >> 8*i) & 0xff] reads.  The index packs one letter per byte. *)

Definition getByte (k : Z) (i : nat) : Z := (k >>> (8 * Z.of_nat i)) .& 255.

Lemma testbit_byte_high b n : is_byte b -> 8 <= n -> Z.testbit b n = false.
Proof.
  intros Hb Hn. unfold is_byte in Hb.
  destruct (Z.eq_dec b 0) as [->|Hnz]; [apply Z.bits_0|].
  apply Z.bits_above_log2; [lia|].
  apply Z.lt_le_trans with 8; [|assumption].
  apply Z.log2_lt_pow2; [lia|]. change (2 ^ 8) with 256. lia.
Qed.

Lemma testbit_getByte k i n :
  0 <= n -> Z.testbit (getByte k i) n = Z.testbit k (n + 8 * Z.of_nat i) && (n <? 8).
Proof.
  intros Hn. unfold getByte. rewrite Z.land_spec, Z.shiftr_spec by lia.
  change 255 with (Z.ones 8). now rewrite Z.testbit_ones_nonneg by lia.
Qed.

(** [bits] reduces an equation between integers to an equation between
    their bits and pushes [Z.testbit] through the bit operators. *)
Ltac bits :=
  apply Z.bits_inj'; intros ?n ?Hn;
  repeat (rewrite ?testbit_getByte, ?Z.lor_spec, ?Z.land_spec, ?Z.shiftl_spec,
                  ?Z.shiftr_spec, ?Z.bits_0 by lia).

Lemma getByte_0 i : getByte 0 i = 0.
Proof. unfold getByte. now rewrite Z.shiftr_0_l. Qed.

Lemma getByte_lor a b i : getByte (a .| b) i = getByte a i .| getByte b i.
Proof. unfold getByte. now rewrite Z.shiftr_lor, Z.land_lor_distr_l. Qed.

Lemma getByte_byte k i : is_byte (getByte k i).
Proof.
  unfold getByte, is_byte. change 255 with (Z.ones 8). rewrite Z.land_ones by lia.
  apply Z.mod_pos_bound. lia.
Qed.

Lemma getByte_shiftl_same b i : is_byte b -> getByte (b <<< (8 * Z.of_nat i)) i = b.
Proof.
  intros Hb. bits. replace (n + 8 * Z.of_nat i - 8 * Z.of_nat i) with n by lia.
  destruct (n <? 8) eqn:E; [now rewrite andb_true_r|].
  rewrite andb_false_r. symmetry. apply testbit_byte_high; [assumption|lia].
Qed.

Lemma getByte_shiftl_other b i j :
  is_byte b -> i <> j -> getByte (b <<< (8 * Z.of_nat j)) i = 0.
Proof.
  intros Hb Hij. bits.
  destruct (n <? 8) eqn:E; [|apply andb_false_r]. rewrite andb_true_r.
  destruct (Z.lt_ge_cases (n + 8 * Z.of_nat i - 8 * Z.of_nat j) 0) as [Hlt|Hge].
  - now apply Z.testbit_neg_r.
  - apply testbit_byte_high; [assumption|lia].
Qed.

Lemma testbit_above n z m : 0 <= z < 2 ^ n -> n <= m -> Z.testbit z m = false.
Proof.
  intros Hz Hm. destruct (Z.eq_dec z 0) as [->|Hnz]; [apply Z.bits_0|].
  destruct (Z.lt_ge_cases n 0) as [Hneg|Hn]; [rewrite Z.pow_neg_r in Hz; lia|].
  apply Z.bits_above_log2; [lia|]. apply Z.lt_le_trans with n; [|assumption].
  apply Z.log2_lt_pow2; lia.
Qed.

(** Two keys of [n] bytes with the same bytes are the same key. *)
Lemma key_ext (n : nat) a b :
  0 <= a < 2 ^ (8 * Z.of_nat n) -> 0 <= b < 2 ^ (8 * Z.of_nat n) ->
  (forall i, (i < n)%nat -> getByte a i = getByte b i) -> a = b.
Proof.
  intros Ha Hb H. apply Z.bits_inj'. intros m Hm.
  destruct (Z.lt_ge_cases m (8 * Z.of_nat n)) as [Hlt|Hge].
  - pose (i := Z.to_nat (m / 8)).
    assert (Hi : (i < n)%nat) by (subst i; zwrap_core).
    assert (Hmi : m = m mod 8 + 8 * Z.of_nat i) by (subst i; zwrap_core).
    pose proof (f_equal (fun z => Z.testbit z (m mod 8)) (H i Hi)) as E. cbv beta in E.
    rewrite !testbit_getByte in E by zwrap_core.
    rewrite <- Hmi in E.
    replace (m mod 8 <? 8) with true in E by (symmetry; apply Z.ltb_lt; zwrap_core).
    now rewrite !andb_true_r in E.
  - now rewrite (testbit_above _ a m Ha Hge), (testbit_above _ b m Hb Hge).
Qed.

Lemma lor_bound n a b : 0 <= a < 2 ^ n -> 0 <= b < 2 ^ n -> 0 <= a .| b < 2 ^ n.
Proof.
  intros Ha Hb.
  assert (Hnn : 0 <= a .| b) by (apply Z.lor_nonneg; lia).
  split; [assumption|].
  destruct (Z.lt_ge_cases n 0) as [Hneg|Hn]; [rewrite Z.pow_neg_r in Ha; lia|].
  destruct (Z.eq_dec a 0) as [->|Ha0]; [rewrite Z.lor_0_l; lia|].
  destruct (Z.eq_dec b 0) as [->|Hb0]; [rewrite Z.lor_0_r; lia|].
  assert (a .| b <> 0) by (rewrite Z.lor_eq_0_iff; lia).
  apply Z.log2_lt_pow2; [lia|]. rewrite Z.log2_lor by lia.
  apply Z.max_lub_lt; apply Z.log2_lt_pow2; lia.
Qed.

Lemma shiftl_byte_bound b (i n : nat) :
  is_byte b -> (i < n)%nat -> 0 <= b <<< (8 * Z.of_nat i) < 2 ^ (8 * Z.of_nat n).
Proof.
  intros Hb Hi. rewrite Z.shiftl_mul_pow2 by lia. unfold is_byte in Hb.
  assert (0 < 2 ^ (8 * Z.of_nat i)) by (apply Z.pow_pos_nonneg; lia).
  split; [nia|].
  apply Z.lt_le_trans with (2 ^ 8 * 2 ^ (8 * Z.of_nat i)); [change (2 ^ 8) with 256; nia|].
  rewrite <- Z.pow_add_r by lia. apply Z.pow_le_mono_r; lia.
Qed.

#[export] Hint Resolve getByte_byte lor_bound shiftl_byte_bound : xword.
#[export] Hint Rewrite getByte_0 getByte_lor : xbytes.
#[export] Hint Rewrite getByte_shiftl_same using assumption : xbytes.
