(* ===== verification/Normalizer.v ===== *)
(** * Text normaliser of [utils::Dictionary]

    [toupper], [isalpha], [dosToWinCode] and [cleanString] of
    [src/dictionary.cpp], and their composition [canonicalize] as the loading
    loop applies it to a raw word.  A character is the [uint8_t] value of a
    [char], a [Z] in [0, 256); a string is a list of characters.  The
    constants of [dictionary.hpp] are the fields of [HeaderConstants]. *)

From Stdlib Require Import ZArith List Lia Bool.
From S2P Require Import Prelude.
Import ListNotations.
#[local] Open Scope Z_scope.

(** ** The constants the header fixes *)

(** [CYRILLIC_A] is compared with [uint8_t] values and offset by 32 and 96:
    it is the code of the lowercase Cyrillic a.  [LONGEST_WORD] is the size
    of the array [_fastSearch].  [ANY_CHAR] is the placeholder of an unknown
    letter in a pattern. *)
Class HeaderConstants : Type := {
  CYRILLIC_A : Z;
  LONGEST_WORD : nat;
  ANY_CHAR : Z
}.

(** Windows-1251: lowercase a is 0xE0, uppercase A is 0xC0; the DOS (MIK)
    code page has the letters 64 below. *)
Definition cp1251 : HeaderConstants :=
  {| CYRILLIC_A := 224; LONGEST_WORD := 32; ANY_CHAR := 0 |}.

(** The same code page with a printable placeholder, ['?']. *)
Definition cp1251_qmark : HeaderConstants :=
  {| CYRILLIC_A := 224; LONGEST_WORD := 32; ANY_CHAR := 63 |}.

Section Normalizer.
Context `{HC : HeaderConstants}.

(** ** Operations *)

(** [char Dictionary::toupper(char c)]: [c - 32] is an [int] converted back
    to [char]. *)
Definition toupper_char (c : Z) : Z :=
  if CYRILLIC_A <=? c then wrap8 (c - 32) else c.

(** [std::string Dictionary::toupper(std::string capsWord)]. *)
Definition toupper (capsWord : list Z) : list Z := map toupper_char capsWord.

(** [bool Dictionary::isalpha(char c)]. *)
Definition isalpha (c : Z) : bool := CYRILLIC_A - 32 <=? c.

(** One step of the loop of [dosToWinCode]: [winWord[i] += 64] on a [char]. *)
Definition dosToWinCode_char (c : Z) : Z :=
  if (CYRILLIC_A - 96 <=? c) && (c <? CYRILLIC_A - 32) then wrap8 (c + 64) else c.

(** [std::string Dictionary::dosToWinCode(std::string winWord)]. *)
Definition dosToWinCode (winWord : list Z) : list Z := map dosToWinCode_char winWord.

(** [std::string Dictionary::cleanString(const std::string& dirtyString)]. *)
Definition cleanString (dirtyString : list Z) : list Z := filter isalpha dirtyString.

(** The key [loadDictionary] computes from a raw word:
    [nextWord = dosToWinCode(nextWord); clean = toupper(cleanString(nextWord))]. *)
Definition canonicalize (nextWord : list Z) : list Z :=
  toupper (cleanString (dosToWinCode nextWord)).

(** ** Specification vocabulary *)

(** An uppercase letter: alphabetic and below the lowercase range. *)
Definition is_upper (c : Z) : Prop := CYRILLIC_A - 32 <= c < CYRILLIC_A.
Definition is_upperb (c : Z) : bool := (CYRILLIC_A - 32 <=? c) && (c <? CYRILLIC_A).
Definition upper_word (w : list Z) : Prop := Forall is_upper w.

Lemma is_upperb_spec c : is_upperb c = true <-> is_upper c.
Proof. unfold is_upperb, is_upper. lia. Qed.

(** ** Characters *)

Lemma toupper_char_byte c : is_byte c -> is_byte (toupper_char c).
Proof. intros. unfold toupper_char. case_if; auto with xword. Qed.

Lemma dosToWinCode_char_byte c : is_byte c -> is_byte (dosToWinCode_char c).
Proof. intros. unfold dosToWinCode_char. case_if; auto with xword. Qed.

Lemma toupper_char_upper c :
  224 <= CYRILLIC_A -> is_byte c -> isalpha c = true -> is_upper (toupper_char c).
Proof. unfold toupper_char, isalpha, is_upper. intros. case_if; zwrap. Qed.

Lemma toupper_char_fixed c : is_upper c -> toupper_char c = c.
Proof. unfold toupper_char, is_upper. intros. case_if; lia. Qed.

Lemma dosToWinCode_char_fixed c : isalpha c = true -> dosToWinCode_char c = c.
Proof. unfold dosToWinCode_char, isalpha. intros. case_if; lia. Qed.

Lemma is_upper_alpha c : is_upper c -> isalpha c = true.
Proof. unfold is_upper, isalpha. lia. Qed.

Lemma is_upper_byte c : 32 <= CYRILLIC_A <= 256 -> is_upper c -> is_byte c.
Proof. unfold is_upper, is_byte. lia. Qed.

Lemma is_upper_nonzero c : 32 < CYRILLIC_A -> is_upper c -> c <> 0.
Proof. unfold is_upper. lia. Qed.

(** A lowercase letter and its uppercase have the same key character. *)
Lemma toupper_char_idem c :
  224 <= CYRILLIC_A -> is_byte c -> toupper_char (toupper_char c) = toupper_char c.
Proof. unfold toupper_char. intros. repeat case_if; zwrap. Qed.

Lemma isalpha_toupper_char c :
  224 <= CYRILLIC_A -> is_byte c -> isalpha (toupper_char c) = isalpha c.
Proof. unfold toupper_char, isalpha. intros. case_if; zwrap. Qed.

(** Below the lowercase range of Windows-1251 the DOS shift never wraps, so
    a shifted character is alphabetic and is not shifted again. *)
Lemma dosToWinCode_char_idem c :
  CYRILLIC_A <= 224 -> is_byte c ->
  dosToWinCode_char (dosToWinCode_char c) = dosToWinCode_char c.
Proof. unfold dosToWinCode_char. intros. repeat case_if; zwrap. Qed.

(** ** Strings *)

Lemma toupper_length w : length (toupper w) = length w.
Proof. apply length_map. Qed.

Lemma dosToWinCode_length w : length (dosToWinCode w) = length w.
Proof. apply length_map. Qed.

Lemma cleanString_length w : (length (cleanString w) <= length w)%nat.
Proof. apply filter_length_le. Qed.

Lemma toupper_bytes w : bytes w -> bytes (toupper w).
Proof. apply bytes_map, toupper_char_byte. Qed.

Lemma dosToWinCode_bytes w : bytes w -> bytes (dosToWinCode w).
Proof. apply bytes_map, dosToWinCode_char_byte. Qed.

Lemma cleanString_alpha w : Forall (fun c => isalpha c = true) (cleanString w).
Proof. apply Forall_forall. intros c Hc. now apply filter_In in Hc. Qed.

Lemma cleanString_fixed w : Forall (fun c => isalpha c = true) w -> cleanString w = w.
Proof.
  induction 1 as [|c w Hc _ IH]; simpl; [reflexivity|]. now rewrite Hc, IH.
Qed.

Lemma cleanString_app a b : cleanString (a ++ b) = cleanString a ++ cleanString b.
Proof. apply filter_app. Qed.

Lemma toupper_fixed w : upper_word w -> toupper w = w.
Proof.
  induction 1 as [|c w Hc _ IH]; simpl; [reflexivity|].
  now rewrite toupper_char_fixed, IH.
Qed.

Lemma dosToWinCode_fixed w : Forall (fun c => isalpha c = true) w -> dosToWinCode w = w.
Proof.
  induction 1 as [|c w Hc _ IH]; simpl; [reflexivity|].
  now rewrite dosToWinCode_char_fixed, IH.
Qed.

Lemma upper_word_alpha w : upper_word w -> Forall (fun c => isalpha c = true) w.
Proof. apply Forall_impl, is_upper_alpha. Qed.

Lemma upper_word_bytes w : 32 <= CYRILLIC_A <= 256 -> upper_word w -> bytes w.
Proof. intros HA. apply Forall_impl. intros c. now apply is_upper_byte. Qed.

Lemma canonicalize_app a b : canonicalize (a ++ b) = canonicalize a ++ canonicalize b.
Proof.
  unfold canonicalize, toupper, dosToWinCode. now rewrite map_app, cleanString_app, map_app.
Qed.

Lemma canonicalize_bytes w : bytes w -> bytes (canonicalize w).
Proof. intros. apply toupper_bytes, bytes_filter, dosToWinCode_bytes. assumption. Qed.

Lemma canonicalize_length w : (length (canonicalize w) <= length w)%nat.
Proof.
  unfold canonicalize. rewrite toupper_length, <- (dosToWinCode_length w).
  apply cleanString_length.
Qed.

(** Commutation of upper-casing with the two other passes, character by
    character, then on strings. *)
Lemma cleanString_toupper w :
  224 <= CYRILLIC_A -> bytes w -> cleanString (toupper w) = toupper (cleanString w).
Proof.
  intros HA. induction 1 as [|c w Hc _ IH]; simpl; [reflexivity|].
  rewrite (isalpha_toupper_char c HA Hc), IH. now case_if.
Qed.

Lemma dosToWinCode_toupper_char c :
  224 <= CYRILLIC_A -> is_byte c ->
  toupper_char (dosToWinCode_char (toupper_char c)) = toupper_char (dosToWinCode_char c).
Proof. unfold toupper_char, dosToWinCode_char. intros. repeat case_if; zwrap. Qed.

Lemma isalpha_dosToWinCode_toupper_char c :
  224 <= CYRILLIC_A -> is_byte c ->
  isalpha (dosToWinCode_char (toupper_char c)) = isalpha (dosToWinCode_char c).
Proof. unfold toupper_char, dosToWinCode_char, isalpha. intros. repeat case_if; zwrap. Qed.

(** Upper-casing what the filter keeps gives uppercase letters. *)
Lemma toupper_cleanString_upper w :
  224 <= CYRILLIC_A -> bytes w -> upper_word (toupper (cleanString w)).
Proof.
  intros HA Hw. unfold toupper, upper_word. apply Forall_map.
  pose proof (cleanString_alpha w) as Halpha.
  pose proof (bytes_filter isalpha _ Hw) as Hb.
  fold (cleanString w) in Hb. unfold bytes in Hb.
  induction Halpha as [|c l Hc _ IH]; constructor.
  - apply toupper_char_upper; [assumption| |assumption]. now inversion Hb.
  - apply IH. now inversion Hb.
Qed.

(** ** Properties of the canonical key *)

(** [C40] The key computed from any raw word consists of uppercase letters
    only: every character of [canonicalize w] lies in
    [CYRILLIC_A - 32, CYRILLIC_A). *)
Theorem canonicalize_upper w :
  224 <= CYRILLIC_A -> bytes w -> upper_word (canonicalize w).
Proof.
  intros HA Hw. unfold canonicalize. apply toupper_cleanString_upper; [assumption|].
  now apply dosToWinCode_bytes.
Qed.

(** Round trip of the specification: a word that is already uppercase
    alphabetic is its own key. *)
Theorem canonicalize_fixed w : upper_word w -> canonicalize w = w.
Proof.
  intros Hw. unfold canonicalize.
  rewrite (dosToWinCode_fixed w), (cleanString_fixed w), toupper_fixed;
    auto using upper_word_alpha.
Qed.

(** Canonicalising twice is canonicalising once. *)
Theorem canonicalize_idem w :
  224 <= CYRILLIC_A -> bytes w -> canonicalize (canonicalize w) = canonicalize w.
Proof.
  intros HA Hw.
  pose proof (toupper_cleanString_upper _ HA (dosToWinCode_bytes w Hw)) as Hu.
  fold (canonicalize w) in Hu. unfold canonicalize at 1.
  rewrite (dosToWinCode_fixed (canonicalize w)), (cleanString_fixed (canonicalize w)),
    toupper_fixed; auto using upper_word_alpha.
Qed.

(** Decoration is ignored: a character that is not alphabetic after
    the code-page shift does not change the key. *)
Theorem canonicalize_decoration a c b :
  isalpha (dosToWinCode_char c) = false ->
  canonicalize (a ++ c :: b) = canonicalize (a ++ b).
Proof.
  intros Hc. rewrite !canonicalize_app. f_equal.
  change (c :: b) with ([c] ++ b). rewrite canonicalize_app.
  unfold canonicalize at 1. simpl. now rewrite Hc.
Qed.

(** Case is ignored: a word and its upper-cased spelling have the same
    key. *)
Theorem canonicalize_case w :
  224 <= CYRILLIC_A -> bytes w -> canonicalize (toupper w) = canonicalize w.
Proof.
  intros HA. induction 1 as [|c w Hc _ IH]; [reflexivity|].
  change (toupper (c :: w)) with ([toupper_char c] ++ toupper w).
  change (c :: w) with ([c] ++ w).
  rewrite !canonicalize_app, IH. f_equal.
  unfold canonicalize. simpl.
  rewrite (isalpha_dosToWinCode_toupper_char c HA Hc).
  case_if; simpl; [|reflexivity]. now rewrite dosToWinCode_toupper_char.
Qed.

End Normalizer.

#[export] Hint Resolve toupper_char_byte dosToWinCode_char_byte toupper_bytes
  dosToWinCode_bytes canonicalize_bytes upper_word_bytes : xword.

(** ** Witnesses on Windows-1251 *)

(** "aB-v" in the DOS code page (0xA0 0x81 '-' 0xA2) and its key in
    Windows-1251 (0xC0 0xC1 0xC2). *)
Example canonicalize_example :
  @canonicalize cp1251 [160; 129; 45; 162] = [192; 193; 194].
Proof. reflexivity. Qed.

Lemma upper_word_dec_true `{HeaderConstants} s : forallb is_upperb s = true -> upper_word s.
Proof.
  intros Hs. apply Forall_forall. intros c Hc.
  apply is_upperb_spec. now apply (proj1 (forallb_forall _ _) Hs).
Qed.

Lemma canonicalize_upper_witness :
  @upper_word cp1251 (@canonicalize cp1251 [160; 129; 45; 162; 255; 10]).
Proof.
  apply (@canonicalize_upper cp1251); [simpl; lia | now apply bytes_of_forallb].
Defined.

Lemma canonicalize_fixed_witness : @canonicalize cp1251 [192; 193; 223] = [192; 193; 223].
Proof. apply (@canonicalize_fixed cp1251). now apply upper_word_dec_true. Defined.

Lemma canonicalize_idem_witness :
  @canonicalize cp1251 (@canonicalize cp1251 [160; 129; 45; 255]) =
  @canonicalize cp1251 [160; 129; 45; 255].
Proof.
  apply (@canonicalize_idem cp1251); [simpl; lia | now apply bytes_of_forallb].
Defined.

Lemma canonicalize_decoration_witness :
  @canonicalize cp1251 ([160] ++ 45 :: [129]) = @canonicalize cp1251 ([160] ++ [129]).
Proof. apply (@canonicalize_decoration cp1251). reflexivity. Defined.

Lemma canonicalize_case_witness :
  @canonicalize cp1251 (@toupper cp1251 [224; 193; 255]) = @canonicalize cp1251 [224; 193; 255].
Proof.
  apply (@canonicalize_case cp1251); [simpl; lia | now apply bytes_of_forallb].
Defined.
