(* ===== verification/KeyPacking.v ===== *)
(** * Key packing of the word index

    The two overloads of [Dictionary::getKey] in [src/dictionary.cpp]: a
    48-bit key with one letter per byte.  Each is a [switch] on the word's
    size whose cases fall through from [case 6] (also the [default]) down to
    [case 0]; [fallthrough] is the chain of cases entered at a label.  The
    design notes of the specification ask for a loop instead: [getKey_loop],
    proved equal. *)

From Stdlib Require Import ZArith List Lia Bool.
From S2P Require Import Prelude.
Import ListNotations.
#[local] Open Scope Z_scope.
#[local] Open Scope cxx_scope.

(** ** The masked overload: [getKey(uint32_t mask, const std::string& word)] *)

(** [(mask >> i & 1u)] used as a condition. *)
Definition maskBit (mask : Z) (i : nat) : bool :=
  negb (((mask >>> Z.of_nat i) .& 1) =? 0).

(** The operand of one [key |= ...]. *)
Definition keyPart (mask : Z) (word : list Z) (i : nat) : Z :=
  if maskBit mask i then at_ word i <<< (8 * Z.of_nat i) else 0.

(** The label at which [switch (word.size())] enters. *)
Definition switch_label (size : nat) : nat :=
  match size with
  | 0 => 0 | 1 => 1 | 2 => 2 | 3 => 3 | 4 => 4 | 5 => 5
  | _ => 6
  end%nat.

(** The cases from [case label] down to [case 0: break]. *)
Fixpoint fallthrough (mask : Z) (word : list Z) (label : nat) (key : Z) : Z :=
  match label with
  | O => key
  | S i => fallthrough mask word i (key .| keyPart mask word i)
  end.

Definition getKey (mask : Z) (word : list Z) : Z :=
  fallthrough mask word (switch_label (length word)) 0.

(** ** The unmasked overload: [getKey(const std::string& word)] *)

Fixpoint fallthroughW (word : list Z) (label : nat) (key : Z) : Z :=
  match label with
  | O => key
  | S i => fallthroughW word i (key .| (at_ word i <<< (8 * Z.of_nat i)))
  end.

Definition getKeyW (word : list Z) : Z :=
  fallthroughW word (switch_label (length word)) 0.

(** ** The loop of the design notes *)

Definition getKey_loop (mask : Z) (word : list Z) : Z :=
  fold_left (fun key i => key .| keyPart mask word i)
            (seq 0 (Nat.min (length word) 6)) 0.

(** The masks of [for (uint32_t mask = 0u; mask < 64u; ++mask)]. *)
Definition masks : list Z := map Z.of_nat (seq 0 64).
#[global] Arguments masks : simpl never.

(** The mask with bit [i] set for each listed position [i] where the
    pattern does not hold the zero byte. *)
Definition maskOn (pattern : list Z) (positions : list nat) : Z :=
  fold_right (fun i m => if at_ pattern i =? 0 then m else m .| (1 <<< Z.of_nat i))
             0 positions.

(** The mask of the concrete positions of a pattern, over the positions the
    key holds. *)
Definition maskOf (pattern : list Z) : Z :=
  maskOn pattern (seq 0 (Nat.min (length pattern) 6)).

(** The first [n] bits of the mask are the given ones. *)
Definition fits (bits : nat -> bool) (n : nat) (mask : Z) : bool :=
  forallb (fun i => Bool.eqb (maskBit mask i) (bits i)) (seq 0 n).

(** ** The switch *)

Lemma switch_label_min size : switch_label size = Nat.min size 6.
Proof. do 7 (destruct size as [|size]; [reflexivity|]). reflexivity. Qed.

Lemma switch_label_le size : (switch_label size <= 6)%nat.
Proof. rewrite switch_label_min. lia. Qed.

Lemma fallthrough_lor mask word label key :
  fallthrough mask word label key = key .| fallthrough mask word label 0.
Proof.
  revert key. induction label as [|i IH]; intros key; simpl.
  - now rewrite Z.lor_0_r.
  - rewrite ?Z.lor_0_l, IH, (IH (keyPart mask word i)). symmetry. apply Z.lor_assoc.
Qed.

Lemma fold_keyPart_snoc mask word n :
  fold_left (fun key i => key .| keyPart mask word i) (seq 0 (S n)) 0 =
  fold_left (fun key i => key .| keyPart mask word i) (seq 0 n) 0 .| keyPart mask word n.
Proof. now rewrite seq_S, fold_left_app. Qed.

Lemma fallthrough_loop mask word label :
  fallthrough mask word label 0 =
  fold_left (fun key i => key .| keyPart mask word i) (seq 0 label) 0.
Proof.
  induction label as [|i IH]; [reflexivity|].
  rewrite fold_keyPart_snoc, <- IH. simpl.
  rewrite ?Z.lor_0_l, fallthrough_lor. apply Z.lor_comm.
Qed.

(** ** Bits of a mask *)

Lemma maskBit_testbit mask i : maskBit mask i = Z.testbit mask (Z.of_nat i).
Proof.
  unfold maskBit. change 1 with (Z.ones 1). rewrite Z.land_ones by lia.
  change (2 ^ 1) with 2. rewrite <- Z.bit0_mod, Z.shiftr_spec by lia.
  rewrite Z.add_0_l. now destruct (Z.testbit mask (Z.of_nat i)).
Qed.

Lemma maskBit_63 i : (i < 6)%nat -> maskBit 63 i = true.
Proof. intros Hi. do 6 (destruct i as [|i]; [reflexivity|]). lia. Qed.

Lemma keyPart_63 word i : (i < 6)%nat -> keyPart 63 word i = at_ word i <<< (8 * Z.of_nat i).
Proof. intros Hi. unfold keyPart. now rewrite maskBit_63. Qed.

Lemma fallthroughW_63 word label key :
  (label <= 6)%nat -> fallthroughW word label key = fallthrough 63 word label key.
Proof.
  revert key. induction label as [|i IH]; intros key Hl; simpl; [reflexivity|].
  rewrite keyPart_63 by lia. apply IH. lia.
Qed.

(** ** The mask of a pattern *)

Lemma maskOn_range pattern positions :
  Forall (fun i => (i < 6)%nat) positions -> 0 <= maskOn pattern positions < 2 ^ 6.
Proof.
  induction 1 as [|i positions Hi _ IH]; cbn [maskOn fold_right]; [lia|].
  case_if; [assumption|]. apply lor_bound; [assumption|].
  rewrite Z.shiftl_1_l. split; [apply Z.pow_nonneg; lia|]. apply Z.pow_lt_mono_r; lia.
Qed.

Lemma testbit_maskOn pattern positions j :
  Z.testbit (maskOn pattern positions) (Z.of_nat j) =
  existsb (fun i => (i =? j)%nat && negb (at_ pattern i =? 0)) positions.
Proof.
  induction positions as [|i positions IH]; cbn [maskOn fold_right existsb]; [apply Z.bits_0|].
  fold (maskOn pattern positions). destruct (at_ pattern i =? 0) eqn:E; cbn [negb].
  - now rewrite andb_false_r.
  - rewrite andb_true_r, Z.lor_spec, IH, Z.shiftl_1_l, Z.pow2_bits_eqb by lia.
    rewrite orb_comm. f_equal.
    destruct (Nat.eqb_spec i j), (Z.eqb_spec (Z.of_nat i) (Z.of_nat j)); lia || reflexivity.
Qed.

Lemma existsb_seq_at (f : nat -> bool) n j :
  existsb (fun i => (i =? j)%nat && f i) (seq 0 n) = (j <? n)%nat && f j.
Proof.
  induction n as [|n IH]; [reflexivity|].
  rewrite seq_S, existsb_app, IH. simpl. rewrite orb_false_r.
  destruct (Nat.eqb_spec n j) as [->|Hne].
  - replace (j <? j)%nat with false by (symmetry; apply Nat.ltb_ge; lia).
    replace (j <? S j)%nat with true by (symmetry; apply Nat.ltb_lt; lia). reflexivity.
  - simpl. rewrite orb_false_r. f_equal.
    destruct (Nat.ltb_spec j n), (Nat.ltb_spec j (S n)); lia || reflexivity.
Qed.

Lemma maskOf_range pattern : 0 <= maskOf pattern < 64.
Proof.
  apply (maskOn_range pattern). apply Forall_forall. intros i Hi. apply in_seq in Hi. lia.
Qed.

Lemma maskBit_maskOf pattern i :
  (i < Nat.min (length pattern) 6)%nat -> maskBit (maskOf pattern) i = negb (at_ pattern i =? 0).
Proof.
  intros Hi. rewrite maskBit_testbit. unfold maskOf.
  rewrite testbit_maskOn, existsb_seq_at.
  now replace (i <? Nat.min (length pattern) 6)%nat with true by (symmetry; apply Nat.ltb_lt; lia).
Qed.

Lemma count_fits bits n :
  (n <= 6)%nat -> length (filter (fits bits n) masks) = (2 ^ (6 - n))%nat.
Proof.
  intros Hn. destruct n as [|[|[|[|[|[|[|n]]]]]]]; [..|lia]; clear Hn;
    unfold fits; cbn [seq forallb];
    repeat match goal with
           | |- context [bits ?k] => is_ground k; generalize (bits k); intros []
           end;
    vm_compute; reflexivity.
Qed.

Lemma fits_true bits n mask :
  fits bits n mask = true <-> forall i, (i < n)%nat -> maskBit mask i = bits i.
Proof.
  unfold fits. rewrite forallb_forall. split.
  - intros H i Hi. apply eqb_prop, H, in_seq. lia.
  - intros H i Hi. apply in_seq in Hi. rewrite H by lia. apply eqb_reflx.
Qed.

(** ** Bytes and bounds of a key *)

Lemma keyPart_bound mask word i :
  bytes word -> (i < 6)%nat -> 0 <= keyPart mask word i < 2 ^ 48.
Proof.
  intros Hw Hi. unfold keyPart. case_if; [|lia].
  apply (shiftl_byte_bound _ i 6); auto with xword.
Qed.

Lemma fallthrough_bound mask word label key :
  bytes word -> (label <= 6)%nat -> 0 <= key < 2 ^ 48 ->
  0 <= fallthrough mask word label key < 2 ^ 48.
Proof.
  intros Hw. revert key. induction label as [|i IH]; intros key Hl Hk; simpl; [assumption|].
  apply IH; [lia|]. apply lor_bound; [assumption|]. apply keyPart_bound; [assumption|lia].
Qed.

Lemma getByte_keyPart mask word i j :
  bytes word ->
  getByte (keyPart mask word j) i =
  if (i =? j)%nat && maskBit mask j then at_ word j else 0.
Proof.
  intros Hw. unfold keyPart. destruct (maskBit mask j).
  - destruct (Nat.eqb_spec i j) as [->|Hne]; simpl.
    + apply getByte_shiftl_same. auto with xword.
    + apply getByte_shiftl_other; auto with xword.
  - rewrite andb_false_r. apply getByte_0.
Qed.

Lemma getByte_fallthrough mask word label key i :
  bytes word ->
  getByte (fallthrough mask word label key) i =
  getByte key i .| (if (i <? label)%nat && maskBit mask i then at_ word i else 0).
Proof.
  intros Hw. revert key. induction label as [|l IH]; intros key; simpl.
  - now rewrite Z.lor_0_r.
  - rewrite IH, getByte_lor, getByte_keyPart by assumption.
    rewrite <- Z.lor_assoc. f_equal.
    destruct (Nat.eqb_spec i l) as [->|Hne]; simpl.
    + replace (l <? l)%nat with false by (symmetry; apply Nat.ltb_ge; lia).
      replace (l <? S l)%nat with true by (symmetry; apply Nat.ltb_lt; lia).
      simpl. apply Z.lor_0_r.
    + replace (i <? S l)%nat with (i <? l)%nat; [apply Z.lor_0_l|].
      destruct (Nat.ltb_spec i l), (Nat.ltb_spec i (S l)); lia || reflexivity.
Qed.

Lemma getByte_getKey mask word i :
  bytes word ->
  getByte (getKey mask word) i =
  if (i <? Nat.min (length word) 6)%nat && maskBit mask i then at_ word i else 0.
Proof.
  intros Hw. unfold getKey.
  now rewrite getByte_fallthrough, getByte_0, Z.lor_0_l, switch_label_min.
Qed.

Lemma getKeyW_63 word : getKeyW word = getKey 63 word.
Proof. apply fallthroughW_63, switch_label_le. Qed.

Lemma getByte_getKeyW word i :
  bytes word ->
  getByte (getKeyW word) i = if (i <? Nat.min (length word) 6)%nat then at_ word i else 0.
Proof.
  intros Hw. rewrite getKeyW_63, getByte_getKey by assumption.
  destruct (Nat.ltb_spec i (Nat.min (length word) 6)); [|reflexivity].
  now rewrite maskBit_63 by lia.
Qed.

Lemma getKey_range mask word : bytes word -> 0 <= getKey mask word < 2 ^ (8 * Z.of_nat 6).
Proof.
  intros Hw. apply fallthrough_bound; [assumption|apply switch_label_le|].
  change (8 * Z.of_nat 6) with 48. lia.
Qed.

#[export] Hint Resolve getKey_range switch_label_le : xword.
#[export] Hint Rewrite getByte_getKey getByte_getKeyW using assumption : xbytes.

(** ** Equal keys of a word and a pattern of the same length *)

Section SameLength.
Variables word pattern : list Z.
Hypothesis Hw : bytes word.
Hypothesis Hp : bytes pattern.
Hypothesis Hlen : length word = length pattern.

Lemma getKey_eq_at mask i :
  getKey mask word = getKeyW pattern -> (i < Nat.min (length word) 6)%nat ->
  at_ pattern i = if maskBit mask i then at_ word i else 0.
Proof.
  intros E Hi. apply (f_equal (fun k => getByte k i)) in E.
  rewrite getByte_getKey, getByte_getKeyW, <- Hlen in E by assumption.
  replace (i <? Nat.min (length word) 6)%nat with true in E
    by (symmetry; apply Nat.ltb_lt; lia).
  now symmetry.
Qed.

Lemma getKey_eq_intro mask :
  (forall i, (i < Nat.min (length word) 6)%nat ->
             at_ pattern i = if maskBit mask i then at_ word i else 0) ->
  getKey mask word = getKeyW pattern.
Proof.
  intros H. apply (key_ext 6); auto with xword.
  { rewrite getKeyW_63. auto with xword. }
  intros i Hi. rewrite getByte_getKey, getByte_getKeyW, <- Hlen by assumption.
  destruct (Nat.ltb_spec i (Nat.min (length word) 6)) as [Hlt|Hge]; [|reflexivity].
  simpl. now rewrite H.
Qed.

(** For a word without zero bytes in the positions of the key, the masks
    that give the pattern's key are those whose bits mark the non-zero
    positions of the pattern, and there are some only if the word has the
    pattern's byte at each of them. *)
Lemma getKey_eq_fits mask :
  (forall i, (i < Nat.min (length word) 6)%nat -> at_ word i <> 0) ->
  getKey mask word = getKeyW pattern <->
  fits (fun i => negb (at_ pattern i =? 0)) (Nat.min (length word) 6) mask = true /\
  forall i, (i < Nat.min (length word) 6)%nat -> at_ pattern i <> 0 -> at_ word i = at_ pattern i.
Proof.
  intros Hnz. rewrite fits_true. split.
  - intros E. split; intros i Hi; pose proof (getKey_eq_at mask i E Hi) as H;
      specialize (Hnz i Hi); destruct (maskBit mask i), (Z.eqb_spec (at_ pattern i) 0);
      simpl; congruence.
  - intros [Hf Hm]. apply getKey_eq_intro. intros i Hi.
    specialize (Hf i Hi). specialize (Hm i Hi).
    destruct (maskBit mask i), (Z.eqb_spec (at_ pattern i) 0); simpl in Hf;
      try discriminate; auto. symmetry; auto.
Qed.

(** Some mask gives the pattern's key exactly when the word has the
    pattern's byte wherever the pattern's byte is not zero. *)
Lemma getKey_hit_iff :
  (forall i, (i < Nat.min (length word) 6)%nat -> at_ word i <> 0) ->
  (exists mask, 0 <= mask < 64 /\ getKey mask word = getKeyW pattern) <->
  forall i, (i < Nat.min (length word) 6)%nat -> at_ pattern i <> 0 -> at_ word i = at_ pattern i.
Proof.
  intros Hnz. split.
  - intros (mask & _ & E). now apply getKey_eq_fits in E.
  - intros Hm. exists (maskOf pattern). split; [apply maskOf_range|].
    apply getKey_eq_fits; [assumption|]. split; [|assumption].
    apply fits_true. intros i Hi. apply maskBit_maskOf. lia.
Qed.

End SameLength.

(** ** Claims *)

(** [C31] The fall-through switch computes what the loop over the first
    [min (size, 6)] positions computes. *)
Theorem getKey_loop_equiv mask word : getKey mask word = getKey_loop mask word.
Proof.
  unfold getKey, getKey_loop. now rewrite fallthrough_loop, switch_label_min.
Qed.

(** A key fits 48 bits: the [uint64_t] arithmetic of [getKey] never
    overflows. *)
Theorem getKey_bound mask word : bytes word -> 0 <= getKey mask word < 2 ^ 48.
Proof. intros Hw. exact (getKey_range mask word Hw). Qed.

(** [C6] The key of a pattern equals the masked key of a word of the same
    length exactly when, at each of the first [min (size, 6)] positions, the
    pattern holds the word's letter where the mask bit is set and the zero
    byte where it is clear. *)
Theorem getKey_eq_iff mask word pattern :
  bytes word -> bytes pattern -> length word = length pattern ->
  getKey mask word = getKeyW pattern <->
  forall i, (i < Nat.min (length word) 6)%nat ->
            at_ pattern i = if maskBit mask i then at_ word i else 0.
Proof.
  intros Hw Hp Hlen. split.
  - intros E i Hi. now apply getKey_eq_at.
  - now apply getKey_eq_intro.
Qed.

(** ** Witnesses *)

(** "CAT" with mask 0b101 keeps C and T; the pattern "C?T" with the zero
    byte as placeholder has the same key. *)
Example getKey_CAT : getKey 5 [67; 65; 84] = 67 + 84 * 65536.
Proof. reflexivity. Qed.

Lemma getKey_bound_witness : 0 <= getKey 5 [67; 65; 84] < 2 ^ 48.
Proof. apply getKey_bound. now apply bytes_of_forallb. Defined.

Lemma getKey_eq_iff_witness :
  getKey 5 [67; 65; 84] = getKeyW [67; 0; 84] <->
  forall i, (i < Nat.min (length [67; 65; 84]) 6)%nat ->
            at_ [67; 0; 84] i = if maskBit 5 i then at_ [67; 65; 84] i else 0.
Proof.
  apply getKey_eq_iff; [now apply bytes_of_forallb | now apply bytes_of_forallb | reflexivity].
Defined.
