(* ===== verification/Dictionary.v ===== *)
(** * The word index of [utils::Dictionary]: state, loading, lookup tables

    The state of a [Dictionary] object and the operations of
    [src/dictionary.cpp] that build it: [reset], [addToFastSearch], the body
    and the loop of [loadDictionary], [getDirty], [getExplanation].  The
    maps are [gmap]s; the array [_fastSearch] is a list of [LONGEST_WORD]
    maps, and indexing it out of range, undefined behaviour in the source,
    is [None].  [bucket_of] is the abstract content of a bucket as a
    function of the word table; [index_exact] says the index holds exactly
    that, [index_ok] that it holds it up to the order [shuffle] changes. *)

From stdpp Require Import list gmap.
From S2P Require Import Prelude Normalizer KeyPacking.
#[local] Open Scope Z_scope.

(** ** State *)

(** The data members, by their names in the source.  A word identifier is
    the [uint16_t] value stored in a bucket.  [_cacheSearchMap] maps a
    pattern to a pointer to a vector of identifiers: an address of the
    heap, which is not part of the object. *)
Record Dict : Type := mkDict {
  _allWords : list (list Z);
  _dirtyDict : gmap (list Z) (list Z);
  _explanationDict : gmap (list Z) (list Z);
  _cacheSearchMap : gmap (list Z) nat;
  _fastSearch : list (gmap Z (list Z))
}.

(** What a function returning [const std::string&] hands back: a reference
    into the object, or a reference to a temporary that is gone when the
    caller reads it. *)
Inductive StringRef : Type :=
| Ref (s : list Z)
| Dangling.

Definition with_allWords (ws : list (list Z)) (d : Dict) : Dict :=
  mkDict ws (_dirtyDict d) (_explanationDict d) (_cacheSearchMap d) (_fastSearch d).
Definition with_dicts (dirty expl : gmap (list Z) (list Z)) (d : Dict) : Dict :=
  mkDict (_allWords d) dirty expl (_cacheSearchMap d) (_fastSearch d).
Definition with_cache (c : gmap (list Z) nat) (d : Dict) : Dict :=
  mkDict (_allWords d) (_dirtyDict d) (_explanationDict d) c (_fastSearch d).
Definition with_fastSearch (fs : list (gmap Z (list Z))) (d : Dict) : Dict :=
  mkDict (_allWords d) (_dirtyDict d) (_explanationDict d) (_cacheSearchMap d) fs.

Section Dictionary.
Context `{HC : HeaderConstants}.

(** The members as default construction leaves them, before a constructor's
    body runs. *)
Definition empty_dict : Dict := mkDict [] ∅ ∅ ∅ (replicate LONGEST_WORD ∅).

(** ** Operations *)

(** [void Dictionary::reset()]: the loop clears the maps at the indices
    below [LONGEST_WORD]. *)
Definition reset (d : Dict) : Dict :=
  mkDict [] ∅ ∅ ∅
         (imap (λ i m, if decide (i < LONGEST_WORD)%nat then ∅ else m) (_fastSearch d)).

(** [currentFastSearch[key].push_back(index)]: [operator[]] creates the
    bucket when the key is new. *)
Definition push_back_at (key index : Z) (cur : gmap Z (list Z)) : gmap Z (list Z) :=
  <[key := default [] (cur !! key) ++ [index]]> cur.

(** [void Dictionary::addToFastSearch(const std::string& newWord, uint16_t index)]:
    the argument is converted to 16 bits on entry. *)
Definition addToFastSearch (newWord : list Z) (index : Z) (d : Dict) : option Dict :=
  let index := wrap16 index in
  currentFastSearch ← _fastSearch d !! length newWord;
  let filled :=
    foldl (λ cur mask, push_back_at (getKey mask newWord) index cur)
          currentFastSearch masks in
  Some (with_fastSearch (<[length newWord := filled]> (_fastSearch d)) d).

(** [std::map::emplace]: no effect when the key is present. *)
Definition emplace (k v : list Z) (m : gmap (list Z) (list Z)) : gmap (list Z) (list Z) :=
  match m !! k with
  | Some _ => m
  | None => <[k := v]> m
  end.

(** The body of the [while] loop of [loadDictionary], for the two fields
    the stream has delivered. *)
Definition loadRecord (nextWord explanation : list Z) (d : Dict) : option Dict :=
  let nextWord := dosToWinCode nextWord in
  let explanation := dosToWinCode explanation in
  let clean := toupper (cleanString nextWord) in
  let d1 := with_dicts (emplace clean nextWord (_dirtyDict d))
                       (emplace clean explanation (_explanationDict d)) d in
  d2 ← addToFastSearch clean (Z.of_nat (length (_allWords d1))) d1;
  Some (with_allWords (_allWords d2 ++ [clean]) d2).

(** The [while] loop over the records of the file. *)
Fixpoint loadRecords (records : list (list Z * list Z)) (d : Dict) : option Dict :=
  match records with
  | [] => Some d
  | (nextWord, explanation) :: rest =>
      d' ← loadRecord nextWord explanation d; loadRecords rest d'
  end.

(** [void Dictionary::loadDictionary()]: [fin] is [None] when the file
    cannot be opened, else the records it holds. *)
Definition loadDictionary (fin : option (list (list Z * list Z))) (d : Dict) : option Dict :=
  let d := reset d in
  match fin with
  | None => Some d
  | Some records => loadRecords records d
  end.

(** [const std::string& Dictionary::getDirty(const std::string& clean) const]. *)
Definition getDirty (clean : list Z) (d : Dict) : StringRef :=
  match _dirtyDict d !! clean with
  | Some s => Ref s
  | None => Dangling
  end.

(** [const std::string& Dictionary::getExplanation(const std::string& clean) const]. *)
Definition getExplanation (clean : list Z) (d : Dict) : StringRef :=
  match _explanationDict d !! clean with
  | Some s => Ref s
  | None => Dangling
  end.

(** [getFromIndex(index)] of the header, [_allWords[index]]: [None] past
    the end of the table. *)
Definition getFromIndex (index : Z) (d : Dict) : option (list Z) :=
  _allWords d !! Z.to_nat index.

(** ** Abstract content of the index *)

(** The bucket [_fastSearch[len][key]], empty when absent. *)
Definition bucket (len : nat) (key : Z) (d : Dict) : list Z :=
  default [] (_fastSearch d !! len ≫= (.!! key)).

(** The masks under which a word has the given key. *)
Definition hits (w : list Z) (key : Z) : list Z :=
  filter (λ mask, getKey mask w = key) masks.

(** What the word at position [n] of the table contributes to the bucket
    of length [len] and key [key]: its identifier, once per hitting mask. *)
Definition contribution (len : nat) (key : Z) (n : nat) (w : list Z) : list Z :=
  if decide (length w = len) then (λ _, wrap16 (Z.of_nat n)) <$> hits w key else [].

(** The bucket as a function of the word table. *)
Definition bucket_of (words : list (list Z)) (len : nat) (key : Z) : list Z :=
  mjoin (imap (contribution len key) words).

(** The index holds exactly what the word table determines. *)
Definition index_exact (d : Dict) : Prop :=
  length (_fastSearch d) = LONGEST_WORD ∧
  ∀ len key, bucket len key d = bucket_of (_allWords d) len key.

(** The index holds it up to the order of each bucket. *)
Definition index_ok (d : Dict) : Prop :=
  length (_fastSearch d) = LONGEST_WORD ∧
  ∀ len key, bucket len key d ≡ₚ bucket_of (_allWords d) len key.

(** The first record of the file whose key is [clean]. *)
Fixpoint first_record (clean : list Z) (records : list (list Z * list Z))
  : option (list Z * list Z) :=
  match records with
  | [] => None
  | r :: rest =>
      if decide (canonicalize r.1 = clean) then Some r else first_record clean rest
  end.

(** Every word of the table is uppercase alphabetic and fits the array. *)
Definition words_ok (d : Dict) : Prop :=
  Forall (λ w, upper_word w ∧ (length w < LONGEST_WORD)%nat) (_allWords d).

(** ** Buckets under the operations *)

Lemma bucket_insert_eq fs len m key d :
  (len < length fs)%nat ->
  bucket len key (with_fastSearch (<[len := m]> fs) d) = default [] (m !! key).
Proof. intros Hl. unfold bucket. simpl. now rewrite list_lookup_insert_eq. Qed.

Lemma bucket_insert_ne len len' m key d :
  len ≠ len' ->
  bucket len' key (with_fastSearch (<[len := m]> (_fastSearch d)) d) = bucket len' key d.
Proof. intros Hne. unfold bucket. simpl. now rewrite list_lookup_insert_ne. Qed.

Lemma push_back_at_lookup key' key index cur :
  default [] (push_back_at key index cur !! key') =
  default [] (cur !! key') ++ (if decide (key = key') then [index] else []).
Proof.
  unfold push_back_at. case_decide as E.
  - subst. now rewrite lookup_insert_eq.
  - rewrite lookup_insert_ne by done. now rewrite app_nil_r.
Qed.

Lemma foldl_push_lookup ms w index cur key :
  default [] (foldl (λ cur mask, push_back_at (getKey mask w) index cur) cur ms !! key) =
  default [] (cur !! key) ++ ((λ _, index) <$> filter (λ mask, getKey mask w = key) ms).
Proof.
  revert cur. induction ms as [|m ms IH]; intros cur; simpl.
  - now rewrite app_nil_r.
  - rewrite IH, push_back_at_lookup, filter_cons. case_decide; simpl.
    + now rewrite <- app_assoc.
    + now rewrite app_nil_r.
Qed.

Lemma addToFastSearch_Some w index d :
  (length w < length (_fastSearch d))%nat -> is_Some (addToFastSearch w index d).
Proof.
  intros Hl. unfold addToFastSearch.
  destruct (lookup_lt_is_Some_2 _ _ Hl) as [cur ->]. cbn [mbind option_bind]. eauto.
Qed.

Lemma addToFastSearch_None w index d :
  (length (_fastSearch d) <= length w)%nat -> addToFastSearch w index d = None.
Proof. intros Hl. unfold addToFastSearch. now rewrite lookup_ge_None_2. Qed.

Lemma addToFastSearch_inv w index d d' :
  addToFastSearch w index d = Some d' ->
  (length w < length (_fastSearch d))%nat ∧
  _allWords d' = _allWords d ∧ _dirtyDict d' = _dirtyDict d ∧
  _explanationDict d' = _explanationDict d ∧ _cacheSearchMap d' = _cacheSearchMap d ∧
  length (_fastSearch d') = length (_fastSearch d) ∧
  ∀ len key, bucket len key d' =
             bucket len key d ++
             (if decide (length w = len) then (λ _, wrap16 index) <$> hits w key else []).
Proof.
  unfold addToFastSearch. intros H.
  destruct (_fastSearch d !! length w) as [cur|] eqn:Hcur; [|done]. cbn [mbind option_bind] in H. simplify_eq.
  pose proof (lookup_lt_Some _ _ _ Hcur) as Hlt.
  repeat split; auto; [cbn; now rewrite length_insert|].
  intros len key. case_decide as E.
  - subst len. rewrite bucket_insert_eq by done. rewrite foldl_push_lookup.
    unfold bucket. now rewrite Hcur.
  - rewrite bucket_insert_ne by done. now rewrite app_nil_r.
Qed.

Lemma bucket_of_snoc ws w len key :
  bucket_of (ws ++ [w]) len key = bucket_of ws len key ++ contribution len key (length ws) w.
Proof.
  unfold bucket_of. rewrite imap_app, join_app. simpl.
  now rewrite Nat.add_0_r, app_nil_r.
Qed.

Lemma bucket_reset len key d :
  length (_fastSearch d) = LONGEST_WORD -> bucket len key (reset d) = [].
Proof.
  intros Hl. unfold bucket, reset. cbn. rewrite list_lookup_imap.
  destruct (_fastSearch d !! len) as [m|] eqn:E; [|done]. cbn.
  apply lookup_lt_Some in E. rewrite decide_True by lia. done.
Qed.

Lemma bucket_fresh len key : bucket len key empty_dict = [].
Proof.
  unfold bucket, empty_dict. cbn.
  destruct (replicate LONGEST_WORD ∅ !! len) as [m|] eqn:E; [|done].
  apply lookup_replicate in E as [-> _]. done.
Qed.

Lemma index_exact_reset d : length (_fastSearch d) = LONGEST_WORD -> index_exact (reset d).
Proof.
  intros Hl. split; [cbn; now rewrite length_imap|].
  intros len key. now rewrite bucket_reset.
Qed.

Lemma index_exact_fresh : index_exact empty_dict.
Proof. split; [cbn; apply length_replicate|]. intros. now rewrite bucket_fresh. Qed.

Lemma loadRecord_inv nw ex d d' :
  loadRecord nw ex d = Some d' ->
  let clean := canonicalize nw in
  (length clean < length (_fastSearch d))%nat ∧
  _allWords d' = _allWords d ++ [clean] ∧
  _dirtyDict d' = emplace clean (dosToWinCode nw) (_dirtyDict d) ∧
  _explanationDict d' = emplace clean (dosToWinCode ex) (_explanationDict d) ∧
  _cacheSearchMap d' = _cacheSearchMap d ∧
  length (_fastSearch d') = length (_fastSearch d) ∧
  ∀ len key, bucket len key d' =
             bucket len key d ++ contribution len key (length (_allWords d)) clean.
Proof.
  unfold loadRecord. intros H.
  destruct (addToFastSearch _ _ _) as [d2|] eqn:E; [|done].
  cbn [mbind option_bind] in H. simplify_eq.
  apply addToFastSearch_inv in E as (Hlt & Hw & Hd & He & Hc & Hfs & Hb).
  cbn in *. fold (canonicalize nw) in *. rewrite Hw.
  repeat split; auto.
Qed.

Lemma index_exact_loadRecord nw ex d d' :
  index_exact d -> loadRecord nw ex d = Some d' -> index_exact d'.
Proof.
  intros [Hlen Hb] H. apply loadRecord_inv in H as (_ & Hw & _ & _ & _ & Hfs & Hb').
  split; [congruence|]. intros len key. now rewrite Hb', Hw, bucket_of_snoc, Hb.
Qed.

(** ** The loading loop *)

(** Rule of the loop: a property that every record satisfying [Q] preserves
    holds after the loop over records that all satisfy [Q]. *)
Lemma loadRecords_ind (Q : list Z * list Z → Prop) (P : Dict → Prop) :
  (∀ nw ex d d', Q (nw, ex) → P d → loadRecord nw ex d = Some d' → P d') →
  ∀ rs d d', Forall Q rs → P d → loadRecords rs d = Some d' → P d'.
Proof.
  intros Hstep rs. induction rs as [|[nw ex] rs IH]; intros d d' HQ HP H.
  - cbn in H. by simplify_eq.
  - apply Forall_cons in HQ as [Hq HQ]. cbn [loadRecords] in H.
    destruct (loadRecord nw ex d) as [d1|] eqn:E; [|done].
    eapply IH; [done| |exact H]. eauto.
Qed.

Lemma loadRecords_app rs1 rs2 d :
  loadRecords (rs1 ++ rs2) d = loadRecords rs1 d ≫= loadRecords rs2.
Proof.
  revert d. induction rs1 as [|[nw ex] rs1 IH]; intros d; [done|].
  cbn [loadRecords app]. destruct (loadRecord nw ex d) as [d1|]; [apply IH|done].
Qed.

Lemma loadRecords_words rs d d' :
  loadRecords rs d = Some d' →
  _allWords d' = _allWords d ++ ((λ r, canonicalize r.1) <$> rs).
Proof.
  revert d. induction rs as [|[nw ex] rs IH]; intros d H; cbn [loadRecords] in H.
  - simplify_eq. by rewrite app_nil_r.
  - destruct (loadRecord nw ex d) as [d1|] eqn:E; [|done].
    apply loadRecord_inv in E as (_ & Hw & _). rewrite (IH _ H), Hw.
    by rewrite <- app_assoc.
Qed.

Lemma index_exact_loadRecords rs d d' :
  index_exact d → loadRecords rs d = Some d' → index_exact d'.
Proof.
  intros Hd H. eapply (loadRecords_ind (λ _, True) index_exact); [|by apply Forall_true|done|done].
  intros ???? _. apply index_exact_loadRecord.
Qed.

Lemma cache_loadRecords rs d d' :
  loadRecords rs d = Some d' → _cacheSearchMap d' = _cacheSearchMap d.
Proof.
  intros H.
  eapply (loadRecords_ind (λ _, True) (λ x, _cacheSearchMap x = _cacheSearchMap d));
    [|by apply Forall_true|done|done].
  intros nw ex d1 d2 _ Hc E. apply loadRecord_inv in E as (_ & _ & _ & _ & -> & _). done.
Qed.

Lemma loadRecord_Some nw ex d :
  (length (canonicalize nw) < length (_fastSearch d))%nat → is_Some (loadRecord nw ex d).
Proof.
  intros Hl. unfold loadRecord.
  edestruct (addToFastSearch_Some) as [d2 ->]; [|cbn [mbind option_bind]; eauto]. done.
Qed.

Lemma loadRecord_None nw ex d :
  (length (_fastSearch d) ≤ length (canonicalize nw))%nat → loadRecord nw ex d = None.
Proof. intros Hl. unfold loadRecord. by rewrite addToFastSearch_None. Qed.

Lemma loadRecords_Some rs d :
  Forall (λ r, (length (canonicalize r.1) < length (_fastSearch d))%nat) rs →
  is_Some (loadRecords rs d).
Proof.
  revert d. induction rs as [|[nw ex] rs IH]; intros d Hrs; [by eexists|].
  apply Forall_cons in Hrs as [Hr Hrs]. cbn [loadRecords].
  destruct (loadRecord_Some nw ex d Hr) as [d1 E]. rewrite E. cbn [mbind option_bind].
  apply IH. apply loadRecord_inv in E as (_ & _ & _ & _ & _ & -> & _). done.
Qed.

(** ** Membership in the abstract bucket *)

Lemma elem_of_hits mask w key : mask ∈ hits w key ↔ getKey mask w = key ∧ mask ∈ masks.
Proof. unfold hits. by rewrite list_elem_of_filter. Qed.

Lemma elem_of_contribution id len key n w :
  id ∈ contribution len key n w ↔
  length w = len ∧ id = wrap16 (Z.of_nat n) ∧ ∃ mask, mask ∈ masks ∧ getKey mask w = key.
Proof.
  unfold contribution. case_decide as E.
  - rewrite list_elem_of_fmap. setoid_rewrite elem_of_hits. naive_solver.
  - rewrite elem_of_nil. naive_solver.
Qed.

Lemma elem_of_bucket_of id ws len key :
  id ∈ bucket_of ws len key ↔
  ∃ n w mask, ws !! n = Some w ∧ length w = len ∧ id = wrap16 (Z.of_nat n) ∧
              mask ∈ masks ∧ getKey mask w = key.
Proof.
  unfold bucket_of. rewrite list_elem_of_join. split.
  - intros (l & Hid & Hl). apply list_elem_of_lookup in Hl as [n Hn].
    rewrite list_lookup_imap in Hn. destruct (ws !! n) as [w|] eqn:E; [|done].
    cbn in Hn. simplify_eq. apply elem_of_contribution in Hid. naive_solver.
  - intros (n & w & mask & Hn & Hlen & -> & Hm & Hk). exists (contribution len key n w). split.
    + apply elem_of_contribution. naive_solver.
    + apply list_elem_of_lookup. exists n. by rewrite list_lookup_imap, Hn.
Qed.

Lemma index_exact_ok d : index_exact d → index_ok d.
Proof. intros [Hl Hb]. split; [done|]. intros len key. by rewrite Hb. Qed.

Lemma length_fastSearch_loadRecords rs d d' :
  loadRecords rs d = Some d' → length (_fastSearch d') = length (_fastSearch d).
Proof.
  intros H.
  eapply (loadRecords_ind (λ _, True) (λ x, length (_fastSearch x) = length (_fastSearch d)));
    [|by apply Forall_true|done|done].
  intros nw ex d1 d2 _ Hc E. apply loadRecord_inv in E as (_ & _ & _ & _ & _ & -> & _). done.
Qed.

Lemma length_fastSearch_fresh : length (_fastSearch empty_dict) = LONGEST_WORD.
Proof. apply length_replicate. Qed.

Lemma length_fastSearch_reset d : length (_fastSearch (reset d)) = length (_fastSearch d).
Proof. cbn. apply length_imap. Qed.

Lemma loadRecords_None rs d :
  Exists (λ r, (length (_fastSearch d) ≤ length (canonicalize r.1))%nat) rs →
  loadRecords rs d = None.
Proof.
  revert d. induction rs as [|[nw ex] rs IH]; intros d Hex; [by apply Exists_nil in Hex|].
  cbn [loadRecords]. destruct (loadRecord nw ex d) as [d1|] eqn:E; [|done].
  cbn [mbind option_bind]. apply Exists_cons in Hex as [Hh|Ht].
  - by rewrite loadRecord_None in E.
  - apply IH. apply loadRecord_inv in E as (_ & _ & _ & _ & _ & -> & _). done.
Qed.

(** ** The surface and explanation maps *)

Lemma lookup_emplace k v m k' :
  emplace k v m !! k' =
  match m !! k' with
  | Some x => Some x
  | None => if decide (k = k') then Some v else None
  end.
Proof.
  unfold emplace. destruct (m !! k) as [x|] eqn:E.
  - destruct (m !! k') eqn:E'; [done|]. case_decide; [congruence|done].
  - case_decide as Hk; [subst; by rewrite lookup_insert_eq, E|].
    rewrite lookup_insert_ne by done. by destruct (m !! k').
Qed.

Lemma loadRecords_dicts rs d d' clean :
  loadRecords rs d = Some d' →
  _dirtyDict d' !! clean =
    match _dirtyDict d !! clean with
    | Some x => Some x
    | None => (λ r, dosToWinCode r.1) <$> first_record clean rs
    end ∧
  _explanationDict d' !! clean =
    match _explanationDict d !! clean with
    | Some x => Some x
    | None => (λ r, dosToWinCode r.2) <$> first_record clean rs
    end.
Proof.
  revert d. induction rs as [|[nw ex] rs IH]; intros d H; cbn [loadRecords] in H.
  - simplify_eq. cbn. by destruct (_dirtyDict d' !! clean), (_explanationDict d' !! clean).
  - destruct (loadRecord nw ex d) as [d1|] eqn:E; [|done].
    apply loadRecord_inv in E as (_ & _ & Hd & He & _). destruct (IH _ H) as [-> ->].
    rewrite Hd, He, !lookup_emplace. cbn [first_record fst].
    destruct (_dirtyDict d !! clean), (_explanationDict d !! clean); repeat case_decide; done.
Qed.

(** ** The word table *)

Lemma words_ok_loadRecord nw ex d d' :
  224 ≤ CYRILLIC_A → length (_fastSearch d) = LONGEST_WORD → bytes nw →
  words_ok d → loadRecord nw ex d = Some d' → words_ok d'.
Proof.
  intros HA Hfs Hnw Hd E. apply loadRecord_inv in E as (Hlt & Hw & _).
  unfold words_ok. rewrite Hw. apply Forall_app. split; [done|].
  apply Forall_singleton. split; [|lia].
  apply toupper_cleanString_upper; [done|]. by apply dosToWinCode_bytes.
Qed.

(** Below the capacity an identifier of the abstract bucket is a position
    of the table. *)
Lemma bucket_of_resolves ws len key id :
  (length ws ≤ capacity)%nat → id ∈ bucket_of ws len key →
  ∃ w mask, ws !! Z.to_nat id = Some w ∧ length w = len ∧ mask ∈ masks ∧ getKey mask w = key.
Proof.
  intros Hcap Hid.
  apply elem_of_bucket_of in Hid as (n & w & mask & Hn & Hlen & -> & Hm & Hk).
  pose proof (lookup_lt_Some _ _ _ Hn) as Hlt. exists w, mask.
  rewrite wrap16_below_capacity by lia. by rewrite Nat2Z.id.
Qed.

Lemma elem_of_masks mask : mask ∈ masks ↔ 0 ≤ mask < 64.
Proof.
  unfold masks. rewrite list_elem_of_fmap. setoid_rewrite elem_of_seq. split.
  - intros (n & -> & Hn). lia.
  - intros Hm. exists (Z.to_nat mask). lia.
Qed.

(** ** How often a word is filed under a pattern's key *)

(** The word has the pattern's byte at each position of the key where the
    pattern's byte is not zero. *)
Definition prefix_matches (pattern w : list Z) : Prop :=
  Forall (λ i, at_ pattern i ≠ 0 → at_ w i = at_ pattern i) (seq 0 (Nat.min (length w) 6)).

#[global] Instance prefix_matches_dec pattern w : Decision (prefix_matches pattern w).
Proof. unfold prefix_matches. apply _. Defined.

Lemma prefix_matches_spec pattern w :
  prefix_matches pattern w ↔
  ∀ i, (i < Nat.min (length w) 6)%nat → at_ pattern i ≠ 0 → at_ w i = at_ pattern i.
Proof.
  unfold prefix_matches. rewrite Forall_forall. setoid_rewrite elem_of_seq. naive_solver lia.
Qed.

(** A word the loader may have stored: bytes, none of them zero. *)
Definition solid (w : list Z) : Prop := Forall (λ c, 0 < c < 256) w.

Lemma solid_bytes w : solid w → bytes w.
Proof. intros H. eapply Forall_impl; [exact H|]. unfold is_byte. cbn. lia. Qed.

Lemma solid_at w i : solid w → (i < length w)%nat → at_ w i ≠ 0.
Proof.
  intros Hw Hi. destruct (lookup_lt_is_Some_2 w i Hi) as [c Hc].
  unfold at_. rewrite (nth_lookup_Some _ _ _ _ Hc).
  pose proof (Forall_lookup_1 _ _ _ _ Hw Hc) as H. cbn in H. lia.
Qed.

Lemma upper_word_solid w : 32 < CYRILLIC_A ≤ 256 → upper_word w → solid w.
Proof. intros HA H. eapply Forall_impl; [exact H|]. unfold is_upper. cbn. lia. Qed.

Lemma filter_bool {A} (f : A → bool) (l : list A) :
  filter (λ x, f x = true) l = List.filter f l.
Proof.
  induction l as [|x l IH]; [done|]. rewrite filter_cons. cbn [List.filter].
  destruct (f x); [rewrite decide_True by done|rewrite decide_False by done]; by rewrite IH.
Qed.

Lemma filter_none {A} (P : A → Prop) `{∀ x, Decision (P x)} (l : list A) :
  (∀ x, ¬ P x) → filter P l = [].
Proof.
  intros HP. induction l as [|x l IH]; [done|]. rewrite filter_cons, decide_False by apply HP.
  done.
Qed.

Section Hits.
Variables pattern w : list Z.
Hypothesis Hw : solid w.
Hypothesis Hp : bytes pattern.
Hypothesis Hlen : length w = length pattern.

Lemma hit_prefix_matches :
  (∃ mask, mask ∈ masks ∧ getKey mask w = getKeyW pattern) ↔ prefix_matches pattern w.
Proof.
  setoid_rewrite elem_of_masks. rewrite prefix_matches_spec.
  apply getKey_hit_iff; auto using solid_bytes.
  intros i Hi. apply solid_at; [done|lia].
Qed.

Lemma length_hits :
  prefix_matches pattern w →
  length (hits w (getKeyW pattern)) = (2 ^ (6 - Nat.min (length w) 6))%nat.
Proof.
  intros Hm. rewrite prefix_matches_spec in Hm. unfold hits.
  rewrite (list_filter_iff _
             (λ mask, fits (λ i, negb (at_ pattern i =? 0)) (Nat.min (length w) 6) mask = true)).
  - rewrite filter_bool. apply count_fits. lia.
  - intros mask. rewrite getKey_eq_fits; auto using solid_bytes; [naive_solver|].
    intros i Hi. apply solid_at; [done|lia].
Qed.

Lemma hits_nil : ¬ prefix_matches pattern w → hits w (getKeyW pattern) = [].
Proof.
  intros Hm. apply filter_none. intros mask E. apply Hm, prefix_matches_spec.
  apply getKey_eq_fits in E as [_ E]; auto using solid_bytes.
  intros i Hi. apply solid_at; [done|lia].
Qed.

End Hits.

Lemma length_contribution pattern n w :
  solid w → bytes pattern →
  length (contribution (length pattern) (getKeyW pattern) n w) =
  if decide (length w = length pattern ∧ prefix_matches pattern w)
  then (2 ^ (6 - Nat.min (length pattern) 6))%nat else 0%nat.
Proof.
  intros Hw Hp. unfold contribution. case_decide as Hl.
  - rewrite length_fmap. destruct (decide (prefix_matches pattern w)).
    + rewrite decide_True by done. rewrite length_hits by done. by rewrite Hl.
    + rewrite decide_False by naive_solver. by rewrite hits_nil.
  - by rewrite decide_False by naive_solver.
Qed.

(** The bucket of a pattern's key holds [2 ^ (6 - min (size, 6))] entries
    for each word of the pattern's length that matches it on the positions
    of the key. *)
Lemma length_bucket_of words pattern :
  Forall solid words → bytes pattern →
  length (bucket_of words (length pattern) (getKeyW pattern)) =
  (2 ^ (6 - Nat.min (length pattern) 6) *
   length (filter (λ w, length w = length pattern ∧ prefix_matches pattern w) words))%nat.
Proof.
  intros Hws Hp. induction words as [|w ws IH] using rev_ind; [cbn; lia|].
  apply Forall_app in Hws as [Hws Hw]. rewrite Forall_singleton in Hw.
  rewrite bucket_of_snoc, filter_app, !length_app, IH, length_contribution by done.
  rewrite filter_cons, filter_nil. case_decide; cbn [length]; lia.
Qed.

(** ** Dictionaries with the same content *)

(** Two dictionaries hold the same content when they agree on every member
    but the order inside the buckets of the index and the presence of empty
    buckets. *)
#[global] Instance dict_equiv : Equiv Dict := λ d d',
  _allWords d = _allWords d' ∧ _dirtyDict d = _dirtyDict d' ∧
  _explanationDict d = _explanationDict d' ∧ _cacheSearchMap d = _cacheSearchMap d' ∧
  length (_fastSearch d) = length (_fastSearch d') ∧
  ∀ len key, bucket len key d ≡ₚ bucket len key d'.

#[global] Instance dict_equiv_equivalence : Equivalence (≡@{Dict}).
Proof.
  split.
  - by intros d.
  - intros d d' (? & ? & ? & ? & ? & Hb). by split_and!.
  - intros d1 d2 d3 (? & ? & ? & ? & ? & Hb) (? & ? & ? & ? & ? & Hb').
    split_and!; try congruence. intros len key. by rewrite Hb.
Qed.

#[global] Instance index_ok_proper : Proper ((≡) ==> iff) index_ok.
Proof.
  assert (∀ d d', d ≡ d' → index_ok d → index_ok d') as H.
  { intros d d' (Hw & _ & _ & _ & Hl & Hb) [Hlen Hi]. split; [congruence|].
    intros len key. by rewrite <- Hb, <- Hw. }
  intros d d' E. split; apply H; done.
Qed.

#[global] Instance words_ok_proper : Proper ((≡) ==> iff) words_ok.
Proof. intros d d' (Hw & _). unfold words_ok. by rewrite Hw. Qed.

#[global] Instance getFromIndex_proper index : Proper ((≡) ==> (=)) (getFromIndex index).
Proof. intros d d' (Hw & _). unfold getFromIndex. by rewrite Hw. Qed.

#[global] Instance getDirty_proper clean : Proper ((≡) ==> (=)) (getDirty clean).
Proof. intros d d' (_ & Hd & _). unfold getDirty. by rewrite Hd. Qed.

#[global] Instance getExplanation_proper clean : Proper ((≡) ==> (=)) (getExplanation clean).
Proof. intros d d' (_ & _ & He & _). unfold getExplanation. by rewrite He. Qed.

(** What any load leaves: an exact index and an empty cache. *)
Lemma loadDictionary_inv fin d d' :
  length (_fastSearch d) = LONGEST_WORD → loadDictionary fin d = Some d' →
  index_exact d' ∧ _cacheSearchMap d' = ∅.
Proof.
  intros Hl H. destruct fin as [rs|]; cbn in H.
  - split; [|by rewrite (cache_loadRecords _ _ _ H)].
    eapply index_exact_loadRecords; [|done]. by apply index_exact_reset.
  - simplify_eq. split; [by apply index_exact_reset|done].
Qed.

(** ** Claims on loading *)

(** [C1] Refinement: after [loadDictionary] on a readable file the word
    table is the list of the records' keys in file order, every bucket holds
    exactly what [bucket_of] computes from that table, and the cache is
    empty. *)
Theorem loadDictionary_exact rs d d' :
  length (_fastSearch d) = LONGEST_WORD →
  loadDictionary (Some rs) d = Some d' →
  index_exact d' ∧ _cacheSearchMap d' = ∅ ∧
  _allWords d' = (λ r, canonicalize r.1) <$> rs.
Proof.
  unfold loadDictionary. intros Hl H. split_and!.
  - eapply index_exact_loadRecords; [|done]. by apply index_exact_reset.
  - by rewrite (cache_loadRecords _ _ _ H).
  - by rewrite (loadRecords_words _ _ _ H).
Qed.

(** [C28] Safety: when every key of the file is shorter than
    [LONGEST_WORD], every access to [_fastSearch] is in range and
    [loadDictionary] returns a dictionary. *)
Theorem loadDictionary_total rs d :
  length (_fastSearch d) = LONGEST_WORD →
  Forall (λ r, (length (canonicalize r.1) < LONGEST_WORD)%nat) rs →
  is_Some (loadDictionary (Some rs) d).
Proof.
  intros Hl Hrs. unfold loadDictionary. apply loadRecords_Some.
  by rewrite length_fastSearch_reset, Hl.
Qed.

(** [C27] Error: a record whose key has [LONGEST_WORD] letters or more
    indexes [_fastSearch] past its end; the load has no defined result. *)
Theorem loadDictionary_overlong rs d :
  length (_fastSearch d) = LONGEST_WORD →
  Exists (λ r, (LONGEST_WORD ≤ length (canonicalize r.1))%nat) rs →
  loadDictionary (Some rs) d = None.
Proof.
  intros Hl Hrs. unfold loadDictionary. apply loadRecords_None.
  by rewrite length_fastSearch_reset, Hl.
Qed.

(** Error: an unreadable file leaves a valid, empty dictionary: no
    word, no surface form, no cached answer, every bucket empty. *)
Theorem loadDictionary_unreadable d :
  length (_fastSearch d) = LONGEST_WORD →
  ∃ d', loadDictionary None d = Some d' ∧ index_exact d' ∧
        _allWords d' = [] ∧ _dirtyDict d' = ∅ ∧ _explanationDict d' = ∅ ∧
        _cacheSearchMap d' = ∅ ∧ ∀ len key, bucket len key d' = [].
Proof.
  intros Hl. exists (reset d). split_and!; try done.
  - by apply index_exact_reset.
  - intros. by apply bucket_reset.
Qed.

(** [C29] First wins: the surface form and the explanation returned for a
    key are those of the first record of the file with that key; for a key
    of no record both functions return a reference to a temporary. *)
Theorem loadDictionary_first_wins rs d d' clean :
  loadDictionary (Some rs) d = Some d' →
  getDirty clean d' =
    match first_record clean rs with
    | Some r => Ref (dosToWinCode r.1)
    | None => Dangling
    end ∧
  getExplanation clean d' =
    match first_record clean rs with
    | Some r => Ref (dosToWinCode r.2)
    | None => Dangling
    end.
Proof.
  unfold loadDictionary, getDirty, getExplanation. intros H.
  destruct (loadRecords_dicts _ _ _ clean H) as [-> ->]. cbn.
  rewrite !lookup_empty. by destruct (first_record clean rs).
Qed.

(** Type invariant of the word table: loading bytes yields only
    uppercase alphabetic words shorter than [LONGEST_WORD]. *)
Theorem loadDictionary_words_ok rs d d' :
  224 ≤ CYRILLIC_A → length (_fastSearch d) = LONGEST_WORD →
  Forall (λ r, bytes r.1) rs →
  loadDictionary (Some rs) d = Some d' → words_ok d'.
Proof.
  unfold loadDictionary. intros HA Hl Hrs H.
  eapply (loadRecords_ind (λ r, bytes r.1)
            (λ x, length (_fastSearch x) = LONGEST_WORD ∧ words_ok x)); [|done| |done].
  - intros nw ex d1 d2 Hb [Hfs Hw] E. split; [|by eapply words_ok_loadRecord].
    apply loadRecord_inv in E as (_ & _ & _ & _ & _ & -> & _). done.
  - split; [by rewrite length_fastSearch_reset|]. apply Forall_nil_2.
Qed.

(** ** Claims on identifiers *)

(** What a loaded dictionary holds: the keys of the records in the table,
    and in each bucket what the table determines. *)
Lemma loadDictionary_loaded rs d d' :
  length (_fastSearch d) = LONGEST_WORD → loadDictionary (Some rs) d = Some d' →
  _allWords d' = (λ r, canonicalize r.1) <$> rs ∧
  ∀ len key, bucket len key d' = bucket_of ((λ r, canonicalize r.1) <$> rs) len key.
Proof.
  intros Hl H. destruct (loadDictionary_inv _ _ _ Hl H) as [[_ Hb] _].
  cbn in H. apply loadRecords_words in H. cbn in H. rewrite <- H. by split.
Qed.

(** [C30] Capacity: after [loadDictionary] on a file of at most 2^16
    records, every identifier [addToFastSearch] has pushed on a bucket is
    the position of a record of the file, [getFromIndex] resolves it to
    the key of that record, and that key has the bucket's length and,
    under one of the 64 masks, the bucket's key. *)
Theorem identifiers_resolve rs d d' len key id :
  length (_fastSearch d) = LONGEST_WORD → loadDictionary (Some rs) d = Some d' →
  (length rs ≤ capacity)%nat → id ∈ bucket len key d' →
  ∃ r mask, rs !! Z.to_nat id = Some r ∧ getFromIndex id d' = Some (canonicalize r.1) ∧
            length (canonicalize r.1) = len ∧ mask ∈ masks ∧
            getKey mask (canonicalize r.1) = key.
Proof.
  intros Hl H Hcap Hid. destruct (loadDictionary_loaded _ _ _ Hl H) as [Hw Hb].
  rewrite Hb in Hid. apply bucket_of_resolves in Hid as (w & mask & Hid & ? & ? & ?);
    [|by rewrite length_fmap].
  unfold getFromIndex. rewrite Hw. rewrite list_lookup_fmap in Hid |- *.
  destruct (rs !! Z.to_nat id) as [r|]; [|done]. cbn in Hid. simplify_eq. by exists r, mask.
Qed.

(** [C10] Overflow: [loadDictionary] on a file of more than 2^16 records
    files the record at position [capacity + n] under the identifier [n]
    in each of its buckets and never under its position, and
    [getFromIndex] resolves that identifier to the key of the record at
    position [n]. *)
Theorem identifier_wraps rs d d' n r0 r mask :
  length (_fastSearch d) = LONGEST_WORD → loadDictionary (Some rs) d = Some d' →
  (n < capacity)%nat → rs !! n = Some r0 → rs !! (capacity + n)%nat = Some r →
  mask ∈ masks →
  Z.of_nat n ∈ bucket (length (canonicalize r.1)) (getKey mask (canonicalize r.1)) d' ∧
  (Z.of_nat (capacity + n) ∉
     bucket (length (canonicalize r.1)) (getKey mask (canonicalize r.1)) d') ∧
  getFromIndex (Z.of_nat n) d' = Some (canonicalize r0.1).
Proof.
  intros Hl H Hn Hr0 Hr Hm. destruct (loadDictionary_loaded _ _ _ Hl H) as [Hw Hb].
  rewrite Hb. split_and!.
  - apply elem_of_bucket_of. exists (capacity + n)%nat, (canonicalize r.1), mask.
    rewrite list_lookup_fmap, Hr, wrap16_above_capacity, wrap16_below_capacity by done. done.
  - intros (? & ? & ? & _ & _ & E & _)%elem_of_bucket_of.
    pose proof (wrap16_range (Z.of_nat x)). pose proof capacity_Z. lia.
  - unfold getFromIndex. by rewrite Hw, Nat2Z.id, list_lookup_fmap, Hr0.
Qed.

End Dictionary.

(** ** Witnesses on Windows-1251 *)

Section Witnesses.
#[local] Existing Instance cp1251.

(** CAT, CAR and "cat": Latin capitals moved into the Cyrillic range by
    adding 128, and the lowercase spelling 32 above. *)
Definition CAT : list Z := [195; 193; 212].
Definition CAR : list Z := [195; 193; 210].
Definition cat : list Z := [227; 225; 244].

Definition two_records : list (list Z * list Z) := [(CAT, [1]); (CAR, [2])].

Definition two_words : Dict := default empty_dict (loadDictionary (Some two_records) empty_dict).

Example load_two_words : loadDictionary (Some two_records) empty_dict = Some two_words.
Proof. vm_compute. reflexivity. Qed.

Example two_words_table : _allWords two_words = [CAT; CAR].
Proof. vm_compute. reflexivity. Qed.

Lemma two_words_exact : index_exact two_words.
Proof.
  eapply index_exact_loadRecords; [|exact load_two_words].
  apply index_exact_reset. reflexivity.
Qed.

Lemma loadDictionary_exact_witness :
  index_exact two_words ∧ _cacheSearchMap two_words = ∅ ∧
  _allWords two_words = (λ r, canonicalize r.1) <$> two_records.
Proof. apply (loadDictionary_exact two_records empty_dict); [reflexivity|exact load_two_words]. Defined.

Lemma loadDictionary_total_witness : is_Some (loadDictionary (Some two_records) empty_dict).
Proof.
  apply loadDictionary_total; [reflexivity|].
  repeat constructor; vm_compute; lia.
Defined.

Lemma loadDictionary_overlong_witness :
  loadDictionary (Some [(CAT, [1]); (replicate 32 195, [2])]) empty_dict = None.
Proof.
  apply loadDictionary_overlong; [reflexivity|].
  apply Exists_cons_tl, Exists_cons_hd. vm_compute. lia.
Defined.

Lemma loadDictionary_unreadable_witness :
  ∃ d', loadDictionary None two_words = Some d' ∧ index_exact d' ∧
        _allWords d' = [] ∧ _dirtyDict d' = ∅ ∧ _explanationDict d' = ∅ ∧
        _cacheSearchMap d' = ∅ ∧ ∀ len key, bucket len key d' = [].
Proof. apply loadDictionary_unreadable. reflexivity. Defined.

Lemma loadDictionary_first_wins_witness :
  getDirty CAT (default empty_dict (loadDictionary (Some [(cat, [1]); (CAT, [2])]) empty_dict)) =
    match first_record CAT [(cat, [1]); (CAT, [2])] with
    | Some r => Ref (dosToWinCode r.1)
    | None => Dangling
    end ∧
  getExplanation CAT (default empty_dict (loadDictionary (Some [(cat, [1]); (CAT, [2])]) empty_dict)) =
    match first_record CAT [(cat, [1]); (CAT, [2])] with
    | Some r => Ref (dosToWinCode r.2)
    | None => Dangling
    end.
Proof. apply (loadDictionary_first_wins _ empty_dict). vm_compute. reflexivity. Defined.

Example first_wins_value :
  getDirty CAT (default empty_dict (loadDictionary (Some [(cat, [1]); (CAT, [2])]) empty_dict)) = Ref cat.
Proof. vm_compute. reflexivity. Qed.

Lemma loadDictionary_words_ok_witness : words_ok two_words.
Proof.
  apply (loadDictionary_words_ok two_records empty_dict);
    [cbn; lia | reflexivity | | exact load_two_words].
  repeat (apply Forall_cons_2; [by apply bytes_of_forallb|]). apply Forall_nil_2.
Defined.

Lemma identifiers_resolve_witness :
  ∃ r mask, two_records !! Z.to_nat 0 = Some r ∧
            getFromIndex 0 two_words = Some (canonicalize r.1) ∧
            length (canonicalize r.1) = 3%nat ∧ mask ∈ masks ∧
            getKey mask (canonicalize r.1) = getKey 5 CAT.
Proof.
  apply (identifiers_resolve two_records empty_dict).
  - reflexivity.
  - exact load_two_words.
  - pose proof capacity_Z. cbn. lia.
  - apply list_elem_of_In. vm_compute. left. reflexivity.
Defined.

(** A file of [capacity] records without a letter, then CAT. *)
Definition overflowing : list (list Z * list Z) := replicate capacity ([], []) ++ [(CAT, [])].

Lemma overflowing_loads : ∃ d, loadDictionary (Some overflowing) empty_dict = Some d.
Proof.
  apply (loadRecords_Some overflowing (reset empty_dict)). unfold overflowing.
  apply Forall_app. split; [apply Forall_replicate|apply Forall_singleton]; vm_compute; lia.
Qed.

Lemma overflowing_first : overflowing !! 0%nat = Some ([], []).
Proof.
  unfold overflowing. pose proof capacity_Z.
  rewrite lookup_app_l by (rewrite length_replicate; lia). apply lookup_replicate_2. lia.
Qed.

Lemma overflowing_record : overflowing !! (capacity + 0)%nat = Some (CAT, []).
Proof.
  unfold overflowing. rewrite lookup_app_r; rewrite length_replicate; [|lia].
  by replace (capacity + 0 - capacity)%nat with 0%nat by lia.
Qed.

Lemma identifier_wraps_witness :
  ∃ d, loadDictionary (Some overflowing) empty_dict = Some d ∧
       Z.of_nat 0 ∈ bucket (length (canonicalize (CAT, [] : list Z).1))
                           (getKey 5 (canonicalize (CAT, [] : list Z).1)) d ∧
       (Z.of_nat (capacity + 0) ∉ bucket (length (canonicalize (CAT, [] : list Z).1))
                                         (getKey 5 (canonicalize (CAT, [] : list Z).1)) d) ∧
       getFromIndex (Z.of_nat 0) d = Some (canonicalize (([], []) : list Z * list Z).1).
Proof.
  destruct overflowing_loads as [d Hd]. exists d. split; [exact Hd|].
  apply (identifier_wraps overflowing empty_dict d 0 ([], []) (CAT, []) 5);
    [reflexivity|exact Hd| |exact overflowing_first|exact overflowing_record|].
  - pose proof capacity_Z. lia.
  - apply elem_of_masks. lia.
Defined.

End Witnesses.
