(* ===== verification/Query.v ===== *)
(** * Pattern queries and the results cache of [utils::Dictionary]

    [isPossible] and [findPossible] of [src/dictionary.cpp].  The cache maps
    a pattern to a pointer to a heap-allocated vector of identifiers; the
    heap is a [gmap] from addresses to vectors, [new] allocates at a fresh
    address, and the result view [Pattern] holds the address it iterates
    from, so that what a view shows is read through the heap and follows
    later changes of the vector.  Indexing a string past its end, the word
    table past its end or [_fastSearch] past its end is [None]. *)

From stdpp Require Import list gmap.
From S2P Require Import Prelude Normalizer KeyPacking Dictionary.
#[local] Open Scope Z_scope.

(** ** The heap and the result view *)

Abbreviation Heap := (gmap nat (list Z)).

(** [new std::vector<uint16_t>(v)]: a fresh address holding [v]. *)
Definition new_vector (v : list Z) (h : Heap) : nat * Heap :=
  let p := fresh (dom h) in (p, <[p := v]> h).

(** [Pattern(size, begin, resolver)]: the number of identifiers and the
    vector the iterator points into; the resolver is [getFromIndex] of the
    dictionary that made the view. *)
Record Pattern : Type := mkPattern {
  pat_size : nat;
  pat_begin : nat
}.

(** The identifiers a view enumerates in a heap. *)
Definition view_ids (v : Pattern) (h : Heap) : list Z :=
  take (pat_size v) (default [] (h !! pat_begin v)).

(** [s[i]] where [i <= s.size()] is required. *)
Definition char_at (s : list Z) (i : nat) : option Z :=
  if decide (i ≤ length s)%nat then Some (at_ s i) else None.

(** [bool Dictionary::isPossible(pattern, contender, filledIndices)]: the
    loop returns at the first mismatch. *)
Fixpoint isPossible (pattern contender : list Z) (filledIndices : list nat) : option bool :=
  match filledIndices with
  | [] => Some true
  | i :: rest =>
      p ← char_at pattern i;
      c ← char_at contender i;
      if decide (p ≠ c) then Some false else isPossible pattern contender rest
  end.

Section Query.
Context `{HC : HeaderConstants}.

(** The loop that collects [filledIndices]. *)
Definition filledIndices_of (pattern : list Z) : list nat :=
  filter (λ i, at_ pattern i ≠ ANY_CHAR) (seq 0 (length pattern)).

(** The loop over [narrowedWords] that keeps the possible contenders. *)
Fixpoint select (pattern : list Z) (filledIndices : list nat) (d : Dict)
    (narrowedWords : list Z) : option (list Z) :=
  match narrowedWords with
  | [] => Some []
  | contender :: rest =>
      w ← getFromIndex contender d;
      ok ← isPossible pattern w filledIndices;
      kept ← select pattern filledIndices d rest;
      Some (if (ok : bool) then contender :: kept else kept)
  end.

(** [_fastSearch[pattern.size()][key]]: [operator[]] of the map creates an
    empty bucket for a new key. *)
Definition touch_bucket (len : nat) (key : Z) (d : Dict) : option (list Z * Dict) :=
  cur ← _fastSearch d !! len;
  let narrowedWords := default [] (cur !! key) in
  Some (narrowedWords,
        with_fastSearch (<[len := <[key := narrowedWords]> cur]> (_fastSearch d)) d).

(** [_cacheSearchMap[pattern] = new std::vector<uint16_t>(ids)] and the
    view over it. *)
Definition cache_store (pattern ids : list Z) (s : Dict * Heap) : Pattern * (Dict * Heap) :=
  let '(p, h) := new_vector ids s.2 in
  (mkPattern (length ids) p,
   (with_cache (<[pattern := p]> (_cacheSearchMap s.1)) s.1, h)).

(** [Dictionary::Pattern Dictionary::findPossible(const std::string& pattern)]. *)
Definition findPossible (pattern : list Z) (s : Dict * Heap)
    : option (Pattern * (Dict * Heap)) :=
  match _cacheSearchMap s.1 !! pattern with
  | Some newCachePosition =>
      cached ← s.2 !! newCachePosition;
      Some (mkPattern (length cached) newCachePosition, s)
  | None =>
      let key := getKeyW pattern in
      '(narrowedWords, d) ← touch_bucket (length pattern) key s.1;
      if decide (length pattern ≤ 6)%nat then
        Some (cache_store pattern narrowedWords (d, s.2))
      else
        possibleWordIndices ← select pattern (filledIndices_of pattern) d narrowedWords;
        Some (cache_store pattern possibleWordIndices (d, s.2))
  end.

(** ** Specification of a query *)

(** The contender agrees with the pattern on the given positions. *)
Definition agrees (pattern w : list Z) (filled : list nat) : bool :=
  forallb (λ i, bool_decide (at_ pattern i = at_ w i)) filled.

(** The identifier resolves to a word that agrees with the pattern on its
    concrete positions. *)
Definition keeps (pattern : list Z) (words : list (list Z)) (id : Z) : Prop :=
  from_option (λ w, agrees pattern w (filledIndices_of pattern) = true) False
              (words !! Z.to_nat id).

#[global] Instance keeps_dec pattern words id : Decision (keeps pattern words id).
Proof. unfold keeps. destruct (words !! Z.to_nat id); cbn; apply _. Defined.

(** The answer to a pattern as a function of the word table: the abstract
    bucket of the pattern's key, filtered on the long path. *)
Definition answer (words : list (list Z)) (pattern : list Z) : list Z :=
  let b := bucket_of words (length pattern) (getKeyW pattern) in
  if decide (length pattern ≤ 6)%nat then b else filter (keeps pattern words) b.

(** A word matches a pattern: same length, same letter at every position
    that is not the placeholder. *)
Definition matches (pattern w : list Z) : Prop :=
  length w = length pattern ∧
  ∀ i, (i < length pattern)%nat → at_ pattern i ≠ ANY_CHAR → at_ w i = at_ pattern i.

(** A pattern that fixes every position the other fixes, to the same
    letter. *)
Definition stricter (pattern' pattern : list Z) : Prop :=
  length pattern' = length pattern ∧
  ∀ i, (i < length pattern)%nat → at_ pattern i ≠ ANY_CHAR → at_ pattern' i = at_ pattern i.

(** Every cached pointer is allocated and its vector is the answer to its
    pattern, in some order. *)
Definition cache_ok (s : Dict * Heap) : Prop :=
  ∀ p l, _cacheSearchMap s.1 !! p = Some l →
         ∃ v, s.2 !! l = Some v ∧ v ≡ₚ answer (_allWords s.1) p.

(** No two patterns share a vector. *)
Definition cache_inj (d : Dict) : Prop :=
  ∀ p q l, _cacheSearchMap d !! p = Some l → _cacheSearchMap d !! q = Some l → p = q.

(** The invariant of a dictionary and the heap it points into. *)
Definition dict_ok (s : Dict * Heap) : Prop :=
  index_ok s.1 ∧ cache_ok s ∧ cache_inj s.1.

(** What a query may change: the cache and the heap grow, and an empty
    bucket may appear in the index. *)
Definition extends (s s' : Dict * Heap) : Prop :=
  s.1 ≡ with_cache (_cacheSearchMap s.1) s'.1 ∧
  _cacheSearchMap s.1 ⊆ _cacheSearchMap s'.1 ∧ s.2 ⊆ s'.2.

(** ** The loops of the long path *)

Lemma char_at_Some s i : (i ≤ length s)%nat → char_at s i = Some (at_ s i).
Proof. intros. unfold char_at. by rewrite decide_True. Qed.

Lemma isPossible_agrees pattern w filled :
  Forall (λ i, i ≤ length pattern ∧ i ≤ length w)%nat filled →
  isPossible pattern w filled = Some (agrees pattern w filled).
Proof.
  induction 1 as [|i filled [Hp Hw] _ IH]; [done|].
  cbn [isPossible agrees forallb]. rewrite !char_at_Some by done. cbn [mbind option_bind].
  case_decide as E.
  - by rewrite bool_decide_eq_false_2.
  - by rewrite bool_decide_eq_true_2, IH.
Qed.

Lemma elem_of_filledIndices_of pattern i :
  i ∈ filledIndices_of pattern ↔ (i < length pattern)%nat ∧ at_ pattern i ≠ ANY_CHAR.
Proof. unfold filledIndices_of. rewrite list_elem_of_filter, elem_of_seq. naive_solver lia. Qed.

Lemma filledIndices_of_lt pattern :
  Forall (λ i, i < length pattern)%nat (filledIndices_of pattern).
Proof. apply Forall_forall. intros i Hi. by apply elem_of_filledIndices_of in Hi as [? _]. Qed.

Lemma keeps_Some pattern words id w :
  words !! Z.to_nat id = Some w →
  keeps pattern words id ↔ agrees pattern w (filledIndices_of pattern) = true.
Proof. intros E. unfold keeps. by rewrite E. Qed.

Lemma select_filter pattern d narrowed :
  Forall (λ id, ∃ w, getFromIndex id d = Some w ∧ length w = length pattern) narrowed →
  select pattern (filledIndices_of pattern) d narrowed =
  Some (filter (keeps pattern (_allWords d)) narrowed).
Proof.
  induction 1 as [|id narrowed (w & Hw & Hl) _ IH]; [done|].
  cbn [select]. rewrite Hw. cbn [mbind option_bind].
  rewrite isPossible_agrees, IH; cbn [mbind option_bind].
  - rewrite filter_cons. destruct (agrees pattern w (filledIndices_of pattern)) eqn:E.
    + by rewrite decide_True by by apply (keeps_Some _ _ _ _ Hw).
    + rewrite decide_False; [done|]. rewrite (keeps_Some _ _ _ _ Hw). congruence.
  - eapply Forall_impl; [apply filledIndices_of_lt|]. intros i Hi. cbn in Hi. lia.
Qed.

(** The early return of [isPossible] and the conjunction over all
    positions agree whenever the former is defined. *)
Lemma isPossible_inv pattern w filled b :
  isPossible pattern w filled = Some b → b = agrees pattern w filled.
Proof.
  revert b. induction filled as [|i filled IH]; intros b; cbn [isPossible agrees forallb].
  - by intros [= <-].
  - unfold char_at.
    destruct (decide (i ≤ length pattern)%nat); [|done].
    destruct (decide (i ≤ length w)%nat); [|done]. cbn [mbind option_bind].
    destruct (decide (at_ pattern i ≠ at_ w i)) as [Hne|Heq].
    + intros [= <-]. by rewrite bool_decide_eq_false_2.
    + intros H. apply dec_stable in Heq. by rewrite bool_decide_eq_true_2, (IH b H).
Qed.

Lemma select_inv pattern d narrowedWords ids :
  select pattern (filledIndices_of pattern) d narrowedWords = Some ids →
  ids = filter (keeps pattern (_allWords d)) narrowedWords.
Proof.
  revert ids. induction narrowedWords as [|id narrowed IH]; intros ids; cbn [select].
  - by intros [= <-].
  - destruct (getFromIndex id d) as [w|] eqn:Hw; [|done]. cbn [mbind option_bind].
    destruct (isPossible pattern w _) as [ok|] eqn:Hok; [|done]. cbn [mbind option_bind].
    destruct (select _ _ _ narrowed) as [kept|]; [|done]. cbn [mbind option_bind].
    intros [= <-]. rewrite (IH kept eq_refl), filter_cons. apply isPossible_inv in Hok as ->.
    destruct (agrees pattern w (filledIndices_of pattern)) eqn:E.
    + by rewrite decide_True by by apply (keeps_Some _ _ _ _ Hw).
    + rewrite decide_False; [done|]. rewrite (keeps_Some _ _ _ _ Hw). congruence.
Qed.

Lemma agrees_true pattern w filled :
  agrees pattern w filled = true ↔ ∀ i, i ∈ filled → at_ pattern i = at_ w i.
Proof.
  unfold agrees. rewrite forallb_forall. setoid_rewrite <- list_elem_of_In.
  by setoid_rewrite bool_decide_eq_true.
Qed.

(** Agreement on the concrete positions is matching, for a contender of
    the pattern's length. *)
Lemma agrees_matches pattern w :
  length w = length pattern →
  agrees pattern w (filledIndices_of pattern) = true ↔ matches pattern w.
Proof.
  intros Hl. rewrite agrees_true. unfold matches. setoid_rewrite elem_of_filledIndices_of.
  naive_solver.
Qed.

(** ** The steps of [findPossible] *)

Lemma touch_bucket_Some len key d :
  (len < length (_fastSearch d))%nat →
  ∃ d', touch_bucket len key d = Some (bucket len key d, d') ∧ d ≡ d' ∧
        _cacheSearchMap d' = _cacheSearchMap d.
Proof.
  intros Hl. destruct (lookup_lt_is_Some_2 _ _ Hl) as [cur Hcur].
  unfold touch_bucket. rewrite Hcur. cbn [mbind option_bind].
  assert (Hb : bucket len key d = default [] (cur !! key)) by (unfold bucket; by rewrite Hcur).
  rewrite <- Hb. eexists. split; [done|]. split; [|done]. split_and!; try done.
  - cbn. by rewrite length_insert.
  - intros len' key'. destruct (decide (len = len')) as [<-|Hne].
    + rewrite bucket_insert_eq by done. destruct (decide (key = key')) as [<-|Hk].
      * by rewrite lookup_insert_eq.
      * rewrite lookup_insert_ne by done. unfold bucket. by rewrite Hcur.
    + by rewrite bucket_insert_ne.
Qed.

Lemma touch_bucket_None len key d :
  (length (_fastSearch d) ≤ len)%nat → touch_bucket len key d = None.
Proof. intros Hl. unfold touch_bucket. by rewrite lookup_ge_None_2. Qed.

Lemma new_vector_fresh v h : (new_vector v h).1 ∉ dom h.
Proof. unfold new_vector. cbn. apply is_fresh. Qed.

Lemma cache_store_ok pattern ids s :
  ids ≡ₚ answer (_allWords s.1) pattern → _cacheSearchMap s.1 !! pattern = None →
  index_ok s.1 → cache_ok s → cache_inj s.1 →
  dict_ok (cache_store pattern ids s).2 ∧
  view_ids (cache_store pattern ids s).1 (cache_store pattern ids s).2.2 = ids ∧
  pat_size (cache_store pattern ids s).1 = length ids.
Proof.
  intros Hids Hmiss Hi Hc Hinj. destruct s as [d h]. unfold cache_store, new_vector. cbn.
  pose proof (is_fresh (dom h)) as Hfresh. set (p := fresh (dom h)) in *.
  assert (Hfar : ∀ q l, _cacheSearchMap d !! q = Some l → l ≠ p).
  { intros q l Hq ->. destruct (Hc q p Hq) as (v & Hv & _). cbn in Hv.
    apply Hfresh, elem_of_dom. eauto. }
  unfold dict_ok. split_and!.
  - exact Hi.
  - intros q l. cbn. destruct (decide (pattern = q)) as [<-|Hne].
    + rewrite lookup_insert_eq. intros [= <-]. exists ids. by rewrite lookup_insert_eq.
    + rewrite lookup_insert_ne by done. intros Hq. rewrite lookup_insert_ne by (apply not_eq_sym; by eapply Hfar).
      apply (Hc q l Hq).
  - intros q1 q2 l. cbn. rewrite !lookup_insert. repeat case_decide; subst; intros H1 H2;
      simplify_eq; try done; [by destruct (Hfar _ _ H2)|by destruct (Hfar _ _ H1)|by eapply Hinj].
  - unfold view_ids. cbn. by rewrite lookup_insert_eq, take_ge.
  - done.
Qed.

Lemma dict_ok_equiv d d' h : d ≡ d' → dict_ok (d, h) → dict_ok (d', h).
Proof.
  intros E (Hi & Hc & Hinj). pose proof E as (Hw & _ & _ & Hcache & _).
  unfold dict_ok, cache_ok, cache_inj in *. cbn in *. rewrite <- Hcache, <- Hw.
  split_and!; [by rewrite <- E|done|done].
Qed.

#[global] Instance extends_preorder : PreOrder extends.
Proof.
  split.
  - intros [d h]. unfold extends. cbn. by destruct d.
  - intros s1 s2 s3 (E1 & C1 & H1) (E2 & C2 & H2). split_and!; [|by etrans..].
    etrans; [exact E1|]. destruct E2 as (? & ? & ? & _ & ? & ?). by split_and!.
Qed.

Lemma cache_store_extends pattern ids s :
  _cacheSearchMap s.1 !! pattern = None → extends s (cache_store pattern ids s).2.
Proof.
  intros Hmiss. destruct s as [d h]. unfold extends, cache_store, new_vector. cbn.
  split_and!.
  - by destruct d.
  - by apply insert_subseteq.
  - apply insert_subseteq, not_elem_of_dom, is_fresh.
Qed.

(** ** What the answer holds *)

#[global] Instance matches_dec pattern w : Decision (matches pattern w).
Proof.
  destruct (decide (length w = length pattern)) as [Hl|Hl]; [|right; by intros [? _]].
  destruct (agrees pattern w (filledIndices_of pattern)) eqn:E.
  - left. by apply agrees_matches.
  - right. intros H. apply agrees_matches in H; congruence.
Defined.

Lemma matches_prefix pattern w : ANY_CHAR = 0 → matches pattern w → prefix_matches pattern w.
Proof.
  intros Hany [Hl Hm]. apply prefix_matches_spec. intros i Hi Hnz. apply Hm; [lia|congruence].
Qed.

Lemma prefix_matches_short pattern w :
  ANY_CHAR = 0 → (length pattern ≤ 6)%nat → length w = length pattern →
  prefix_matches pattern w → matches pattern w.
Proof.
  intros Hany Hshort Hl Hm. split; [done|]. intros i Hi Hnz.
  apply (proj1 (prefix_matches_spec _ _) Hm); [lia|congruence].
Qed.

Lemma matches_replicate len w : matches (replicate len ANY_CHAR) w ↔ length w = len.
Proof.
  unfold matches. rewrite length_replicate. split; [naive_solver|]. intros Hl. split; [done|].
  intros i Hi Hne. destruct Hne. unfold at_. by rewrite nth_lookup, lookup_replicate_2.
Qed.

Lemma solid_lookup (words : list (list Z)) n w :
  Forall solid words → words !! n = Some w → solid w.
Proof. intros Hwords Hn. apply (Forall_lookup_1 _ _ _ _ Hwords Hn). Qed.

Section Answer.
Context (words : list (list Z)) (pattern : list Z).
Hypothesis Hany : ANY_CHAR = 0.
Hypothesis Hwords : Forall solid words.
Hypothesis Hp : bytes pattern.

Lemma elem_of_bucket_of_pattern id :
  id ∈ bucket_of words (length pattern) (getKeyW pattern) ↔
  ∃ n w, words !! n = Some w ∧ id = wrap16 (Z.of_nat n) ∧
         length w = length pattern ∧ prefix_matches pattern w.
Proof.
  rewrite elem_of_bucket_of. split.
  - intros (n & w & mask & Hn & Hl & -> & Hm & Hk). exists n, w. split_and!; try done.
    apply hit_prefix_matches; eauto using solid_lookup.
  - intros (n & w & Hn & -> & Hl & Hm).
    apply hit_prefix_matches in Hm as (mask & ? & ?); eauto using solid_lookup.
    by exists n, w, mask.
Qed.

(** Below the capacity, the answer holds the positions of the words that
    match the pattern and nothing else. *)
Lemma elem_of_answer id :
  (length words ≤ capacity)%nat →
  id ∈ answer words pattern ↔
  ∃ n w, words !! n = Some w ∧ id = Z.of_nat n ∧ matches pattern w.
Proof.
  intros Hcap.
  assert (Hid : ∀ n w, words !! n = Some w → wrap16 (Z.of_nat n) = Z.of_nat n).
  { intros n w Hn%lookup_lt_Some. apply wrap16_below_capacity. lia. }
  unfold answer. case_decide as Hshort.
  - rewrite elem_of_bucket_of_pattern. split.
    + intros (n & w & Hn & -> & Hl & Hm). exists n, w.
      eauto using prefix_matches_short.
    + intros (n & w & Hn & -> & Hm). exists n, w. rewrite (Hid n w Hn).
      split_and!; [done..|apply Hm|by apply matches_prefix].
  - rewrite list_elem_of_filter, elem_of_bucket_of_pattern. split.
    + intros (Hk & n & w & Hn & -> & Hl & _). exists n, w. rewrite (Hid n w Hn) in *.
      split_and!; [done..|]. apply agrees_matches; [done|].
      apply (keeps_Some _ _ _ w) in Hk; [done|by rewrite Nat2Z.id].
    + intros (n & w & Hn & -> & Hm). split.
      * apply (keeps_Some _ _ _ w); [by rewrite Nat2Z.id|]. apply agrees_matches; [apply Hm|done].
      * exists n, w. rewrite (Hid n w Hn). split_and!; [done..|apply Hm|by apply matches_prefix].
Qed.

(** A pattern of at most six positions is answered with [2 ^ (6 - size)]
    entries for each matching word. *)
Lemma length_answer :
  (length pattern ≤ 6)%nat →
  length (answer words pattern) =
  (2 ^ (6 - length pattern) * length (filter (matches pattern) words))%nat.
Proof.
  intros Hshort. unfold answer. rewrite decide_True by done.
  rewrite length_bucket_of, Nat.min_l by done. do 2 f_equal. apply list_filter_iff.
  intros w. split; [intros [? ?]; by apply prefix_matches_short|].
  intros Hm. split; [apply Hm|by apply matches_prefix].
Qed.

End Answer.

(** With a placeholder other than the zero byte, a pattern that holds the
    placeholder in a position of the key has an empty answer unless a word
    holds the placeholder byte there. *)
Lemma answer_placeholder words pattern i :
  Forall solid words → bytes pattern → (i < Nat.min (length pattern) 6)%nat →
  at_ pattern i = ANY_CHAR → ANY_CHAR ≠ 0 → Forall (λ w, at_ w i ≠ ANY_CHAR) words →
  answer words pattern = [].
Proof.
  intros Hwords Hp Hi Hat Hany Hfree.
  assert (bucket_of words (length pattern) (getKeyW pattern) = []) as Hb.
  { apply elem_of_nil_inv. intros id (n & w & mask & Hn & Hl & _ & Hm & Hk)%elem_of_bucket_of.
    assert (prefix_matches pattern w) as Hpm
      by (apply hit_prefix_matches; eauto using solid_lookup).
    rewrite prefix_matches_spec in Hpm.
    apply (Forall_lookup_1 _ _ _ _ Hfree Hn). rewrite <- Hat. apply Hpm; [lia|congruence]. }
  unfold answer. rewrite Hb. by case_decide.
Qed.

(** ** The two paths of [findPossible] *)

Lemma findPossible_hit pattern s l :
  _cacheSearchMap s.1 !! pattern = Some l →
  findPossible pattern s = (λ cached, (mkPattern (length cached) l, s)) <$> s.2 !! l.
Proof. intros E. unfold findPossible. rewrite E. by destruct (s.2 !! l). Qed.

Lemma select_answer pattern d narrowedWords :
  narrowedWords ≡ₚ bucket_of (_allWords d) (length pattern) (getKeyW pattern) →
  (length (_allWords d) ≤ capacity)%nat →
  select pattern (filledIndices_of pattern) d narrowedWords =
  Some (filter (keeps pattern (_allWords d)) narrowedWords).
Proof.
  intros Hb Hcap. apply select_filter, Forall_forall. intros id Hid.
  rewrite Hb in Hid. apply bucket_of_resolves in Hid as (w & _ & Hw & Hl & _); eauto.
Qed.

Lemma findPossible_miss pattern s :
  _cacheSearchMap s.1 !! pattern = None → index_ok s.1 →
  (length pattern < LONGEST_WORD)%nat → (length (_allWords s.1) ≤ capacity)%nat →
  ∃ d' ids, s.1 ≡ d' ∧ _cacheSearchMap d' = _cacheSearchMap s.1 ∧
            ids ≡ₚ answer (_allWords s.1) pattern ∧
            findPossible pattern s = Some (cache_store pattern ids (d', s.2)).
Proof.
  intros Hmiss Hi Hlen Hcap.
  destruct (touch_bucket_Some (length pattern) (getKeyW pattern) s.1) as (d' & Ht & E & Hc);
    [by rewrite (proj1 Hi)|].
  unfold findPossible, answer. rewrite Hmiss, Ht. cbn [mbind option_bind]. case_decide.
  - eexists d', _. split_and!; [done..|apply Hi|done].
  - pose proof E as (Hw & _). rewrite select_answer; rewrite <- Hw; [|apply Hi|done].
    eexists d', _. split_and!; [done..| |done]. by rewrite (proj2 Hi).
Qed.

(** A query that misses the cache: the state it leaves and the view it
    returns. *)
Lemma findPossible_miss_ok pattern s :
  _cacheSearchMap s.1 !! pattern = None → dict_ok s →
  (length pattern < LONGEST_WORD)%nat → (length (_allWords s.1) ≤ capacity)%nat →
  ∃ v s', findPossible pattern s = Some (v, s') ∧ dict_ok s' ∧ extends s s' ∧
          view_ids v s'.2 ≡ₚ answer (_allWords s.1) pattern ∧
          pat_size v = length (view_ids v s'.2).
Proof.
  intros Hmiss Hok Hlen Hcap.
  destruct (findPossible_miss pattern s) as (d' & ids & E & Hc & Hids & ->); [done|apply Hok|done..|].
  pose proof E as (Hw & _). destruct s as [d h]. cbn [fst snd] in *.
  apply (dict_ok_equiv _ _ _ E) in Hok as (Hi & Hcok & Hinj).
  rewrite Hw in Hids. rewrite <- Hc in Hmiss.
  destruct (cache_store_ok pattern ids (d', h)) as (Hok' & Hv & Hsize); [done..|].
  pose proof (cache_store_extends pattern ids (d', h) Hmiss) as Hext.
  destruct (cache_store pattern ids (d', h)) as [v s'] eqn:Hcs. cbn [fst snd] in *.
  exists v, s'. split_and!; [done|done| | |].
  2:{ by rewrite Hv, Hw. }
  - trans (d', h); [|done].
    unfold extends. cbn [fst snd]. rewrite <- Hc. split_and!; [|done..].
    etrans; [exact E|]. by destruct d'.
  - by rewrite Hv.
Qed.

(** A query that hits the cache changes nothing. *)
Lemma findPossible_hit_ok pattern s l :
  _cacheSearchMap s.1 !! pattern = Some l → cache_ok s →
  ∃ v, findPossible pattern s = Some (v, s) ∧
       view_ids v s.2 ≡ₚ answer (_allWords s.1) pattern ∧
       pat_size v = length (view_ids v s.2).
Proof.
  intros Hhit Hc. destruct (Hc _ _ Hhit) as (cached & Hl & Hp).
  rewrite (findPossible_hit _ _ _ Hhit), Hl. eexists. split; [done|].
  unfold view_ids. cbn. by rewrite Hl, take_ge.
Qed.


(** ** Inversion of a query *)

Lemma findPossible_cache_store pattern ids s :
  findPossible pattern (cache_store pattern ids s).2 = Some (cache_store pattern ids s).
Proof.
  destruct s as [d h]. unfold findPossible, cache_store, new_vector. cbn.
  by rewrite !lookup_insert_eq.
Qed.

Lemma cache_store_heap pattern ids s : s.2 ⊆ (cache_store pattern ids s).2.2.
Proof.
  destruct s as [d h]. unfold cache_store, new_vector. cbn.
  apply insert_subseteq, not_elem_of_dom, is_fresh.
Qed.

Lemma findPossible_inv pattern s v s' :
  findPossible pattern s = Some (v, s') →
  (∃ l cached, _cacheSearchMap s.1 !! pattern = Some l ∧ s.2 !! l = Some cached ∧
               v = mkPattern (length cached) l ∧ s' = s) ∨
  (_cacheSearchMap s.1 !! pattern = None ∧
   (length pattern < length (_fastSearch s.1))%nat ∧
   ∃ d' ids, s.1 ≡ d' ∧ _cacheSearchMap d' = _cacheSearchMap s.1 ∧
             ids = (let b := bucket (length pattern) (getKeyW pattern) s.1 in
                    if decide (length pattern ≤ 6)%nat then b
                    else filter (keeps pattern (_allWords s.1)) b) ∧
             (v, s') = cache_store pattern ids (d', s.2)).
Proof.
  unfold findPossible. destruct (_cacheSearchMap s.1 !! pattern) as [l|] eqn:Hc.
  - destruct (s.2 !! l) as [cached|] eqn:Hl; [|done]. intros [= <- <-]. left. by exists l, cached.
  - intros H. right. split; [done|].
    destruct (decide (length pattern < length (_fastSearch s.1))%nat) as [Hlt|Hge];
      [|by rewrite touch_bucket_None in H by lia].
    split; [done|].
    destruct (touch_bucket_Some _ (getKeyW pattern) _ Hlt) as (d' & Ht & E & Hcache).
    rewrite Ht in H. cbn [mbind option_bind] in H. exists d'. cbn zeta. case_decide.
    + simplify_eq. by eexists.
    + destruct (select _ _ _ _) as [ids|] eqn:Hsel; [|done]. cbn in H. simplify_eq.
      apply select_inv in Hsel as ->. pose proof E as (Hw & _). rewrite <- Hw. by eexists.
Qed.

Lemma findPossible_heap pattern s v s' : findPossible pattern s = Some (v, s') → s.2 ⊆ s'.2.
Proof.
  intros [(l & cached & _ & _ & _ & ->)|(_ & _ & d' & ids & _ & _ & _ & E)]%findPossible_inv;
    [done|].
  pose proof (cache_store_heap pattern ids (d', s.2)) as Hh. by rewrite <- E in Hh.
Qed.

Lemma findPossible_allocated pattern s v s' :
  findPossible pattern s = Some (v, s') → is_Some (s'.2 !! pat_begin v).
Proof.
  intros [(l & cached & _ & Hl & -> & ->)|(_ & _ & d' & ids & _ & _ & _ & E)]%findPossible_inv;
    [by eexists|].
  unfold cache_store, new_vector in E. cbn in E. simplify_eq. cbn. by rewrite lookup_insert_eq.
Qed.

Lemma view_ids_weaken v h h' : h ⊆ h' → is_Some (h !! pat_begin v) → view_ids v h' = view_ids v h.
Proof. intros Hh [x Hx]. unfold view_ids. by rewrite Hx, (lookup_weaken _ _ _ _ Hx Hh). Qed.

Lemma matches_stricter pattern' pattern w :
  stricter pattern' pattern → matches pattern' w → matches pattern w.
Proof.
  intros [Hl Hs] [Hlw Hm]. split; [congruence|]. intros i Hi Hne.
  rewrite <- (Hs i Hi Hne). apply Hm; [lia|]. by rewrite (Hs i Hi Hne).
Qed.

Lemma findPossible_None pattern s :
  _cacheSearchMap s.1 !! pattern = None → (length (_fastSearch s.1) ≤ length pattern)%nat →
  findPossible pattern s = None.
Proof. intros Hmiss Hlen. unfold findPossible. by rewrite Hmiss, touch_bucket_None. Qed.

(** What a query that returns has done. *)
Lemma findPossible_view pattern s v s' :
  dict_ok s → findPossible pattern s = Some (v, s') →
  dict_ok s' ∧ extends s s' ∧ view_ids v s'.2 ≡ₚ answer (_allWords s.1) pattern ∧
  pat_size v = length (view_ids v s'.2).
Proof.
  intros Hok [(l & cached & Hhit & Hl & -> & ->)|
              (Hmiss & _ & d' & ids & E & Hc & Hids & Hs)]%findPossible_inv.
  - destruct (proj1 (proj2 Hok) _ _ Hhit) as (cached' & Hl' & Hp). simplify_eq.
    unfold view_ids. cbn. rewrite Hl, take_ge by done. by split_and!.
  - pose proof E as (Hw & _). destruct s as [d h]. cbn [fst snd] in *.
    assert (ids ≡ₚ answer (_allWords d') pattern) as Hans.
    { rewrite Hids, <- Hw. unfold answer. destruct (proj1 Hok) as [_ Hb]. cbn in Hb.
      case_decide; by rewrite (Hb _ _). }
    apply (dict_ok_equiv _ _ _ E) in Hok as (Hi & Hcok & Hinj). rewrite <- Hc in Hmiss.
    destruct (cache_store_ok pattern ids (d', h)) as (Hok' & Hv & Hsize); [done..|].
    pose proof (cache_store_extends pattern ids (d', h) Hmiss) as Hext.
    rewrite <- Hs in *. cbn [fst snd] in *. split_and!; [done| |by rewrite Hv, Hw|by rewrite Hv].
    trans (d', h); [|done].
    unfold extends. cbn [fst snd]. rewrite <- Hc. split_and!; [|done..].
    etrans; [exact E|]. by destruct d'.
Qed.

(** ** Claims on queries *)

(** [C2] Refinement: on a dictionary that satisfies its invariant and holds
    at most 2^16 words, a query with a pattern shorter than [LONGEST_WORD]
    returns; the view it returns enumerates the abstract answer to the
    pattern in some order, its size is the number of identifiers it
    enumerates, the invariant holds afterwards, and only the cache and the
    heap have grown. *)
Theorem findPossible_refines pattern s :
  dict_ok s → (length pattern < LONGEST_WORD)%nat → (length (_allWords s.1) ≤ capacity)%nat →
  ∃ v s', findPossible pattern s = Some (v, s') ∧ dict_ok s' ∧ extends s s' ∧
          view_ids v s'.2 ≡ₚ answer (_allWords s.1) pattern ∧
          pat_size v = length (view_ids v s'.2).
Proof.
  intros Hok Hlen Hcap. destruct (_cacheSearchMap s.1 !! pattern) as [l|] eqn:Hc.
  - destruct (findPossible_hit_ok pattern s l) as (v & ? & ? & ?); [done|apply Hok|].
    by exists v, s.
  - by apply findPossible_miss_ok.
Qed.

(** [C3] Exactness: with the zero byte as placeholder, a view returned for
    a pattern enumerates exactly the positions of the words of the table
    that have the pattern's length and its letter at every position that is
    not the placeholder. *)
Theorem findPossible_exact pattern s v s' id :
  ANY_CHAR = 0 → dict_ok s → (length (_allWords s.1) ≤ capacity)%nat →
  Forall solid (_allWords s.1) → bytes pattern →
  findPossible pattern s = Some (v, s') →
  id ∈ view_ids v s'.2 ↔
  ∃ n w, _allWords s.1 !! n = Some w ∧ id = Z.of_nat n ∧ matches pattern w.
Proof.
  intros Hany Hok Hcap Hwords Hp H.
  destruct (findPossible_view _ _ _ _ Hok H) as (_ & _ & -> & _).
  by apply elem_of_answer.
Qed.

(** [C15] Cache: repeating a query that returned gives the same view and
    leaves the state as the first call left it. *)
Theorem findPossible_cached pattern s v s' :
  findPossible pattern s = Some (v, s') → findPossible pattern s' = Some (v, s').
Proof.
  intros H.
  pose proof H as [(l & cached & _ & _ & _ & ->)|(_ & _ & d' & ids & _ & _ & _ & E)]%findPossible_inv;
    [done|].
  rewrite E. replace s' with (cache_store pattern ids (d', s.2)).2 by by rewrite <- E.
  apply findPossible_cache_store.
Qed.

(** [C16] Stability of views: a view over an allocated vector enumerates the
    same identifiers after any later query. *)
Theorem findPossible_stable pattern s v s' (old : Pattern) :
  findPossible pattern s = Some (v, s') → is_Some (s.2 !! pat_begin old) →
  view_ids old s'.2 = view_ids old s.2.
Proof.
  intros H%findPossible_heap Hold. by apply view_ids_weaken.
Qed.

(** [C11] Multiplicity: for a pattern of at most six positions the size of
    the view is [2 ^ (6 - size)] times the number of matching words; a
    matching word of fewer than six letters is enumerated more than once. *)
Theorem findPossible_multiplicity pattern s v s' :
  ANY_CHAR = 0 → dict_ok s →
  Forall solid (_allWords s.1) → bytes pattern → (length pattern ≤ 6)%nat →
  findPossible pattern s = Some (v, s') →
  pat_size v = (2 ^ (6 - length pattern) * length (filter (matches pattern) (_allWords s.1)))%nat.
Proof.
  intros Hany Hok Hwords Hp Hshort H.
  destruct (findPossible_view _ _ _ _ Hok H) as (_ & _ & Hv & ->).
  rewrite Hv. by apply length_answer.
Qed.

(** [C12] Placeholder: when [ANY_CHAR] is not the zero byte, a pattern that
    holds it in one of the first six positions is answered with the empty
    view, whatever words of letters the table holds. *)
Theorem findPossible_placeholder pattern s v s' i :
  ANY_CHAR ≠ 0 → dict_ok s →
  Forall solid (_allWords s.1) → bytes pattern →
  (i < Nat.min (length pattern) 6)%nat → at_ pattern i = ANY_CHAR →
  Forall (λ w, at_ w i ≠ ANY_CHAR) (_allWords s.1) →
  findPossible pattern s = Some (v, s') → view_ids v s'.2 = [] ∧ pat_size v = 0%nat.
Proof.
  intros Hany Hok Hwords Hp Hi Hat Hfree H.
  destruct (findPossible_view _ _ _ _ Hok H) as (_ & _ & Hv & ->).
  rewrite (answer_placeholder _ _ i) in Hv by done. apply Permutation_nil_r in Hv.
  by rewrite Hv.
Qed.

(** Monotonicity: after a query for a pattern and a query for a
    stricter pattern, every identifier the second view enumerates is
    enumerated by the first. *)
Theorem findPossible_monotone pattern pattern' s v s1 v' s2 id :
  ANY_CHAR = 0 → dict_ok s → (length (_allWords s.1) ≤ capacity)%nat →
  Forall solid (_allWords s.1) → bytes pattern → bytes pattern' →
  stricter pattern' pattern →
  findPossible pattern s = Some (v, s1) → findPossible pattern' s1 = Some (v', s2) →
  id ∈ view_ids v' s2.2 → id ∈ view_ids v s2.2.
Proof.
  intros Hany Hok Hcap Hwords Hp Hp' Hs H1 H2.
  destruct (findPossible_view _ _ _ _ Hok H1) as (Hok1 & (Hw & _) & Hv1 & _).
  destruct (findPossible_view _ _ _ _ Hok1 H2) as (_ & _ & Hv2 & _).
  destruct Hw as (Hw & _). cbn in Hw.
  rewrite (view_ids_weaken v s1.2 s2.2), Hv1, Hv2, <- Hw
    by eauto using findPossible_heap, findPossible_allocated.
  rewrite !elem_of_answer by done. intros (n & w & ? & ? & ?).
  exists n, w. eauto using matches_stricter.
Qed.

(** [C26] Over-long pattern: a pattern of [LONGEST_WORD] characters or more
    that is not in the cache indexes [_fastSearch] past its end. *)
Theorem findPossible_overlong pattern s :
  index_ok s.1 → _cacheSearchMap s.1 !! pattern = None →
  (LONGEST_WORD ≤ length pattern)%nat → findPossible pattern s = None.
Proof. intros [Hl _] Hmiss Hlen. apply findPossible_None; [done|]. by rewrite Hl. Qed.

(** A loaded word finds itself: the view for a pattern equal to a
    word of the table enumerates that word's position. *)
Theorem findPossible_self s n w v s' :
  ANY_CHAR = 0 → dict_ok s → (length (_allWords s.1) ≤ capacity)%nat →
  Forall solid (_allWords s.1) → _allWords s.1 !! n = Some w →
  findPossible w s = Some (v, s') → Z.of_nat n ∈ view_ids v s'.2.
Proof.
  intros Hany Hok Hcap Hwords Hn H.
  destruct (findPossible_view _ _ _ _ Hok H) as (_ & _ & -> & _).
  apply elem_of_answer; eauto using solid_bytes, solid_lookup. by exists n, w.
Qed.

(** All positions unknown: the view for a pattern of placeholders
    enumerates exactly the positions of the words of the pattern's
    length. *)
Theorem findPossible_all_unknown s len v s' id :
  ANY_CHAR = 0 → dict_ok s → (length (_allWords s.1) ≤ capacity)%nat →
  Forall solid (_allWords s.1) →
  findPossible (replicate len ANY_CHAR) s = Some (v, s') →
  id ∈ view_ids v s'.2 ↔ ∃ n w, _allWords s.1 !! n = Some w ∧ id = Z.of_nat n ∧ length w = len.
Proof.
  intros Hany Hok Hcap Hwords H.
  destruct (findPossible_view _ _ _ _ Hok H) as (_ & _ & -> & _).
  rewrite elem_of_answer; [|done..|rewrite Hany; by apply Forall_replicate|done].
  by setoid_rewrite matches_replicate.
Qed.

End Query.

(** ** Examples *)

Section Examples.
#[local] Existing Instance cp1251.

(** The example of the specification: CAT and CAR, pattern C?T.  Words of
    three letters are filed under [2 ^ 3] masks each. *)
Definition C_T : list Z := [195; 0; 212].

Example find_C_T :
  (λ r, view_ids r.1 r.2.2) <$> findPossible C_T (two_words, ∅) = Some [0; 0; 0; 0; 0; 0; 0; 0].
Proof. vm_compute. reflexivity. Qed.

(** A table with two words of eight letters that differ after the
    positions of the key. *)
Definition KROKODIL : list Z := [202; 208; 206; 202; 206; 196; 200; 203].
Definition KROKODIM : list Z := [202; 208; 206; 202; 206; 196; 200; 204].
Definition K______L : list Z := [202; 0; 0; 0; 0; 0; 0; 203].

Definition zoo_records : list (list Z * list Z) :=
  [(CAT, [1]); (CAR, [2]); (KROKODIL, [3]); (KROKODIM, [4])].

Definition zoo : Dict :=
  Eval vm_compute in default empty_dict (loadDictionary (Some zoo_records) empty_dict).

Example load_zoo : loadDictionary (Some zoo_records) empty_dict = Some zoo.
Proof. vm_compute. reflexivity. Qed.

Example find_K______L :
  (λ r, view_ids r.1 r.2.2) <$> findPossible K______L (zoo, ∅) = Some [2].
Proof. vm_compute. reflexivity. Qed.

Lemma zoo_ok : dict_ok (zoo, ∅).
Proof.
  destruct (loadDictionary_inv _ _ _ length_fastSearch_fresh load_zoo) as [Hi Hc].
  split_and!; [by apply index_exact_ok|..]; intros p; intros *; cbn [fst]; by rewrite Hc.
Qed.

Lemma zoo_solid : Forall solid (_allWords zoo).
Proof. apply (bool_decide_unpack _). by vm_compute. Qed.

Lemma zoo_capacity : (length (_allWords zoo) ≤ capacity)%nat.
Proof. pose proof capacity_Z. change (length (_allWords zoo)) with 4%nat. lia. Qed.

Lemma zoo_index_ok : index_ok zoo.
Proof. exact (proj1 zoo_ok). Qed.

(** The state after the query C?T, and after the query K??????L that
    follows it. *)
Definition after_C_T : Pattern * (Dict * Heap) :=
  Eval vm_compute in default (mkPattern 0 0, (zoo, ∅)) (findPossible C_T (zoo, ∅)).
Definition after_K______L : Pattern * (Dict * Heap) :=
  Eval vm_compute in default after_C_T (findPossible K______L after_C_T.2).
Definition after_K______L_first : Pattern * (Dict * Heap) :=
  Eval vm_compute in default (mkPattern 0 0, (zoo, ∅)) (findPossible K______L (zoo, ∅)).
Definition after_KROKODIL : Pattern * (Dict * Heap) :=
  Eval vm_compute in default after_K______L_first (findPossible KROKODIL after_K______L_first.2).
Definition after_CAT : Pattern * (Dict * Heap) :=
  Eval vm_compute in default (mkPattern 0 0, (zoo, ∅)) (findPossible CAT (zoo, ∅)).
Definition after_unknown : Pattern * (Dict * Heap) :=
  Eval vm_compute in
    default (mkPattern 0 0, (zoo, ∅)) (findPossible (replicate 3 ANY_CHAR) (zoo, ∅)).

Example find_after_C_T : findPossible C_T (zoo, ∅) = Some (after_C_T.1, after_C_T.2).
Proof. vm_compute. reflexivity. Qed.

Example find_after_K______L :
  findPossible K______L after_C_T.2 = Some (after_K______L.1, after_K______L.2).
Proof. vm_compute. reflexivity. Qed.

Lemma findPossible_refines_witness :
  ∃ v s', findPossible K______L (zoo, ∅) = Some (v, s') ∧ dict_ok s' ∧ extends (zoo, ∅) s' ∧
          view_ids v s'.2 ≡ₚ answer (_allWords zoo) K______L ∧
          pat_size v = length (view_ids v s'.2).
Proof.
  apply (findPossible_refines K______L (zoo, ∅)); [exact zoo_ok|vm_compute; lia|exact zoo_capacity].
Defined.

Lemma findPossible_exact_witness :
  0 ∈ view_ids after_C_T.1 after_C_T.2.2 ↔
  ∃ n w, _allWords zoo !! n = Some w ∧ 0 = Z.of_nat n ∧ matches C_T w.
Proof.
  apply (findPossible_exact C_T (zoo, ∅) after_C_T.1 after_C_T.2 0);
    [reflexivity|exact zoo_ok|exact zoo_capacity|exact zoo_solid| |exact find_after_C_T].
  by apply bytes_of_forallb.
Defined.

Lemma findPossible_cached_witness :
  findPossible C_T after_C_T.2 = Some (after_C_T.1, after_C_T.2).
Proof. apply (findPossible_cached C_T (zoo, ∅)). exact find_after_C_T. Defined.

Lemma findPossible_stable_witness :
  view_ids after_C_T.1 after_K______L.2.2 = view_ids after_C_T.1 after_C_T.2.2.
Proof.
  apply (findPossible_stable K______L after_C_T.2 after_K______L.1 after_K______L.2);
    [exact find_after_K______L|]. vm_compute. eauto.
Defined.

Lemma findPossible_multiplicity_witness :
  pat_size after_C_T.1 = (2 ^ (6 - length C_T) * length (filter (matches C_T) (_allWords zoo)))%nat.
Proof.
  apply (findPossible_multiplicity C_T (zoo, ∅) after_C_T.1 after_C_T.2);
    [reflexivity|exact zoo_ok|exact zoo_solid| | |exact find_after_C_T].
  - by apply bytes_of_forallb.
  - vm_compute. lia.
Defined.

(** The view of C?T holds CAT eight times. *)
Example multiplicity_value : pat_size after_C_T.1 = 8%nat.
Proof. vm_compute. reflexivity. Qed.

Lemma KROKODIL_stricter : stricter KROKODIL K______L.
Proof.
  split; [done|]. intros i Hi. vm_compute in Hi.
  destruct i as [|[|[|[|[|[|[|[|i]]]]]]]]; vm_compute; try done; lia.
Qed.

Lemma findPossible_monotone_witness : 2 ∈ view_ids after_K______L_first.1 after_KROKODIL.2.2.
Proof.
  apply (findPossible_monotone K______L KROKODIL (zoo, ∅) _ after_K______L_first.2
           after_KROKODIL.1);
    [reflexivity|exact zoo_ok|exact zoo_capacity|exact zoo_solid|by apply bytes_of_forallb
    |by apply bytes_of_forallb|exact KROKODIL_stricter|by vm_compute|by vm_compute|].
  apply (bool_decide_unpack _). by vm_compute.
Defined.

Lemma findPossible_overlong_witness : findPossible (replicate 32 0) (zoo, ∅) = None.
Proof.
  apply findPossible_overlong; [exact zoo_index_ok|by vm_compute|vm_compute; lia].
Defined.

Lemma findPossible_self_witness : Z.of_nat 0 ∈ view_ids after_CAT.1 after_CAT.2.2.
Proof.
  apply (findPossible_self (zoo, ∅) 0 CAT after_CAT.1 after_CAT.2);
    [reflexivity|exact zoo_ok|exact zoo_capacity|exact zoo_solid|reflexivity|].
  vm_compute. reflexivity.
Defined.

Lemma findPossible_all_unknown_witness :
  1 ∈ view_ids after_unknown.1 after_unknown.2.2 ↔
  ∃ n w, _allWords zoo !! n = Some w ∧ 1 = Z.of_nat n ∧ length w = 3%nat.
Proof.
  apply (findPossible_all_unknown (zoo, ∅) 3 after_unknown.1 after_unknown.2);
    [reflexivity|exact zoo_ok|exact zoo_capacity|exact zoo_solid|]. vm_compute. reflexivity.
Defined.

End Examples.

(** A header that sets the placeholder to the question mark. *)
Section PlaceholderExample.
#[local] Existing Instance cp1251_qmark.

Definition C_qmark_T : list Z := [195; 63; 212].

Definition zoo_qmark : Dict :=
  Eval vm_compute in default empty_dict (loadDictionary (Some zoo_records) empty_dict).

Example load_zoo_qmark : loadDictionary (Some zoo_records) empty_dict = Some zoo_qmark.
Proof. vm_compute. reflexivity. Qed.

Definition after_C_qmark_T : Pattern * (Dict * Heap) :=
  Eval vm_compute in
    default (mkPattern 0 0, (zoo_qmark, ∅)) (findPossible C_qmark_T (zoo_qmark, ∅)).

Lemma zoo_qmark_ok : dict_ok (zoo_qmark, ∅).
Proof.
  destruct (loadDictionary_inv _ _ _ length_fastSearch_fresh load_zoo_qmark) as [Hi Hc].
  split_and!; [by apply index_exact_ok|..]; intros p; intros *; cbn [fst]; by rewrite Hc.
Qed.

Lemma findPossible_placeholder_witness :
  view_ids after_C_qmark_T.1 after_C_qmark_T.2.2 = [] ∧ pat_size after_C_qmark_T.1 = 0%nat.
Proof.
  apply (findPossible_placeholder C_qmark_T (zoo_qmark, ∅) _ _ 1).
  - discriminate.
  - exact zoo_qmark_ok.
  - apply (bool_decide_unpack _). by vm_compute.
  - by apply bytes_of_forallb.
  - vm_compute. lia.
  - reflexivity.
  - apply (bool_decide_unpack _). by vm_compute.
  - vm_compute. reflexivity.
Defined.

End PlaceholderExample.
