(* ===== verification/Stream.v ===== *)
(** * The dictionary file as a character stream

    [Dictionary::loadDictionary] of [src/dictionary.cpp] reads its file with
    [std::getline]: the word up to a tab, the explanation up to a newline,
    until the extraction of a word fails.  This file models the stream (the
    unread characters and the two state bits the loop depends on), the
    library's [getline] from its specification, the loop as the code writes
    it ([load_loop], by well-founded recursion on what is left to read) and
    the list of records the loop body sees ([records]).  The loop is shown
    equal to [loadRecords] of [Dictionary.v] over those records, so that
    the theorems on loading apply to the file. *)

From stdpp Require Import list gmap.
From Equations Require Import Equations.
From S2P Require Import Prelude Normalizer KeyPacking Dictionary.
#[local] Open Scope Z_scope.

(** ** The stream *)

(** [std::ifstream]: the characters not yet extracted, [eofbit] and
    [failbit]. *)
Record ifstream : Type := mkStream {
  buffer : list Z;
  eofbit : bool;
  failbit : bool
}.

Definition TAB : Z := 9.
Definition NEWLINE : Z := 10.

(** [std::ifstream fin(path)]: [None] is a file that cannot be opened. *)
Definition open (file : option (list Z)) : ifstream :=
  match file with
  | Some content => mkStream content false false
  | None => mkStream [] false true
  end.

(** [fin.good()]: no state bit is set. *)
Definition good (fin : ifstream) : bool := negb (eofbit fin) && negb (failbit fin).

(** The characters before the first delimiter and, when there is one, the
    characters after it. *)
Fixpoint extract (delim : Z) (buf : list Z) : list Z * option (list Z) :=
  match buf with
  | [] => ([], None)
  | c :: rest =>
      if decide (c = delim) then ([], Some rest)
      else let '(field, after) := extract delim rest in (c :: field, after)
  end.

(** [std::getline(fin, str, delim)]: on a stream that is not good the
    sentry fails, [failbit] is set and [str] is untouched; else [str] is
    replaced by the characters up to the delimiter, which is discarded;
    running into the end of the file sets [eofbit], and also [failbit] when
    nothing was extracted. *)
Definition getline (fin : ifstream) (str : list Z) (delim : Z) : ifstream * list Z :=
  if good fin then
    match extract delim (buffer fin) with
    | (field, Some rest) => (mkStream rest false false, field)
    | (field, None) => (mkStream [] true (bool_decide (field = [])), field)
    end
  else (mkStream (buffer fin) (eofbit fin) true, str).

(** The loop condition [getline(fin, nextWord, '\t')] and, when it holds,
    the first statement of the body, [getline(fin, explanation)].  The
    result of the second call is not tested.  The previous content of
    [nextWord] is never read. *)
Definition read_record (fin : ifstream) (explanation : list Z)
  : option (list Z * list Z * ifstream) :=
  let '(fin, nextWord) := getline fin [] TAB in
  if failbit fin then None
  else let '(fin, explanation) := getline fin explanation NEWLINE in
       Some (nextWord, explanation, fin).

(** What is left to read: the loop's variant. *)
Definition remaining (fin : ifstream) : nat :=
  length (buffer fin) + (if eofbit fin then 0 else 1).

Lemma extract_Some delim buf field rest :
  extract delim buf = (field, Some rest) → buf = field ++ delim :: rest ∧ delim ∉ field.
Proof.
  revert field. induction buf as [|c buf IH]; intros field; cbn; [done|].
  case_decide as Hc; [intros [= <- <-]; subst; split; [done|apply not_elem_of_nil]|].
  destruct (extract delim buf) as [f [a|]] eqn:E; intros [= <- <-].
  destruct (IH _ eq_refl) as [-> Hf]. split; [done|]. rewrite not_elem_of_cons. by split; [congruence|].
Qed.

Lemma extract_None delim buf field :
  extract delim buf = (field, None) → buf = field ∧ delim ∉ field.
Proof.
  revert field. induction buf as [|c buf IH]; intros field; cbn.
  - intros [= <-]. split; [done|apply not_elem_of_nil].
  - case_decide as Hc; [done|]. destruct (extract delim buf) as [f [a|]] eqn:E; intros [= <-].
    destruct (IH _ eq_refl) as [-> Hf]. split; [done|]. rewrite not_elem_of_cons. by split; [congruence|].
Qed.

Lemma extract_app delim field rest :
  delim ∉ field → extract delim (field ++ delim :: rest) = (field, Some rest).
Proof.
  induction field as [|c field IH]; cbn; [by rewrite decide_True|].
  rewrite not_elem_of_cons. intros [Hc Hf]. rewrite decide_False by congruence. by rewrite IH.
Qed.

Lemma extract_all delim field : delim ∉ field → extract delim field = (field, None).
Proof.
  induction field as [|c field IH]; cbn; [done|].
  rewrite not_elem_of_cons. intros [Hc Hf]. rewrite decide_False by congruence. by rewrite IH.
Qed.

Lemma getline_remaining fin str delim :
  (remaining (getline fin str delim).1 ≤ remaining fin)%nat.
Proof.
  unfold getline, remaining. destruct (good fin); [|cbn; lia].
  destruct (extract delim (buffer fin)) as [field [rest|]] eqn:E; cbn.
  - apply extract_Some in E as [-> _]. rewrite length_app. cbn. destruct (eofbit fin); lia.
  - destruct (eofbit fin); lia.
Qed.

Lemma getline_consumes fin str delim :
  failbit (getline fin str delim).1 = false →
  (remaining (getline fin str delim).1 < remaining fin)%nat.
Proof.
  unfold getline, remaining, good. destruct (eofbit fin) eqn:Ee; [done|].
  destruct (failbit fin) eqn:Ef; [done|]. cbn [negb andb].
  destruct (extract delim (buffer fin)) as [field [rest|]] eqn:E; cbn.
  - apply extract_Some in E as [-> _]. rewrite length_app. cbn. lia.
  - lia.
Qed.

Lemma read_record_remaining fin explanation nextWord explanation' fin' :
  read_record fin explanation = Some (nextWord, explanation', fin') →
  (remaining fin' < remaining fin)%nat.
Proof.
  unfold read_record. pose proof (getline_consumes fin [] TAB) as H1.
  destruct (getline fin [] TAB) as [fin1 w]. cbn [fst] in H1.
  destruct (failbit fin1) eqn:Ef; [done|].
  pose proof (getline_remaining fin1 explanation NEWLINE) as H2.
  destruct (getline fin1 explanation NEWLINE) as [fin2 e]. cbn [fst] in H2.
  intros [= <- <- <-]. specialize (H1 eq_refl). lia.
Qed.

Section Stream.
Context `{HC : HeaderConstants}.

(** ** The loop *)

(** The [while] loop of [loadDictionary] over the stream [fin], here
    [input]: [explanation] is the variable declared before the loop, which
    the body overwrites with its code-page shifted form. *)
Equations? load_loop (input : ifstream) (explanation : list Z) (d : Dict) : option Dict
    by wf (remaining input) lt :=
  load_loop input explanation d with inspect (read_record input explanation) := {
    | exist _ None _ => Some d
    | exist _ (Some (pair (pair nextWord explanation') fin')) E
        with loadRecord nextWord explanation' d => {
        | None => None
        | Some d' => load_loop fin' (dosToWinCode explanation') d' } }.
Proof. eapply read_record_remaining. exact E. Qed.

(** [void Dictionary::loadDictionary()] on the content of the file at
    [_dictionaryFilePath]. *)
Definition loadDictionary_file (file : option (list Z)) (d : Dict) : option Dict :=
  let d := reset d in
  let fin := open file in
  if negb (good fin) then Some d else load_loop fin [] d.

(** ** The records of a file *)

(** The pairs of word and explanation the body of the loop works on. *)
Equations? records (input : ifstream) (explanation : list Z) : list (list Z * list Z)
    by wf (remaining input) lt :=
  records input explanation with inspect (read_record input explanation) := {
    | exist _ None _ => []
    | exist _ (Some (pair (pair nextWord explanation') fin')) E =>
        (nextWord, explanation') :: records fin' (dosToWinCode explanation') }.
Proof. eapply read_record_remaining. exact E. Qed.

(** The records of a file, [None] for a file that cannot be opened. *)
Definition file_records (file : option (list Z)) : option (list (list Z * list Z)) :=
  (λ content, records (open (Some content)) []) <$> file.

(** A file that holds the given records, each closed by a newline. *)
Definition print (rs : list (list Z * list Z)) : list Z :=
  mjoin ((λ r, r.1 ++ TAB :: r.2 ++ [NEWLINE]) <$> rs).

(** Fields that hold no delimiter. *)
Definition plain (r : list Z * list Z) : Prop := (TAB ∉ r.1) ∧ (NEWLINE ∉ r.2).

#[global] Instance plain_dec r : Decision (plain r).
Proof. unfold plain. apply _. Defined.

(** ** Unfolding the loops *)

Lemma load_loop_eq input explanation d :
  load_loop input explanation d =
  match read_record input explanation with
  | None => Some d
  | Some (nextWord, explanation', fin') =>
      d' ← loadRecord nextWord explanation' d; load_loop fin' (dosToWinCode explanation') d'
  end.
Proof.
  simp load_loop. unfold inspect.
  generalize (@eq_refl _ (read_record input explanation)).
  generalize (read_record input explanation) at 2 4 5.
  intros [[[nextWord explanation'] fin']|] E; simp load_loop; [|done].
  by destruct (loadRecord nextWord explanation' d).
Qed.

Lemma records_eq input explanation :
  records input explanation =
  match read_record input explanation with
  | None => []
  | Some (nextWord, explanation', fin') =>
      (nextWord, explanation') :: records fin' (dosToWinCode explanation')
  end.
Proof.
  simp records. unfold inspect.
  generalize (@eq_refl _ (read_record input explanation)).
  generalize (read_record input explanation) at 2 4 5.
  by intros [[[nextWord explanation'] fin']|] E.
Qed.

(** Induction over the iterations of the loop. *)
Lemma stream_ind (P : ifstream → list Z → Prop) :
  (∀ input explanation,
     (∀ nextWord explanation' fin',
        read_record input explanation = Some (nextWord, explanation', fin') →
        P fin' (dosToWinCode explanation')) →
     P input explanation) →
  ∀ input explanation, P input explanation.
Proof.
  intros step input.
  induction input as [input IH] using (induction_ltof1 _ remaining). unfold ltof in IH.
  intros explanation. apply step. intros nextWord explanation' fin' E.
  apply IH. by eapply read_record_remaining.
Qed.

(** ** Reading one record *)

Lemma getline_field rest explanation field delim :
  delim ∉ field →
  getline (mkStream (field ++ delim :: rest) false false) explanation delim =
  (mkStream rest false false, field).
Proof. intros Hf. unfold getline. cbn. by rewrite extract_app. Qed.

Lemma getline_eof explanation field delim :
  delim ∉ field →
  getline (mkStream field false false) explanation delim =
  (mkStream [] true (bool_decide (field = [])), field).
Proof. intros Hf. unfold getline. cbn. by rewrite extract_all. Qed.

Lemma read_record_full w e rest explanation :
  TAB ∉ w → NEWLINE ∉ e →
  read_record (mkStream (w ++ TAB :: e ++ NEWLINE :: rest) false false) explanation =
  Some (w, e, mkStream rest false false).
Proof. intros Hw He. unfold read_record. by rewrite getline_field, getline_field. Qed.

Lemma read_record_unclosed w e explanation :
  TAB ∉ w → NEWLINE ∉ e →
  read_record (mkStream (w ++ TAB :: e) false false) explanation =
  Some (w, e, mkStream [] true (bool_decide (e = []))).
Proof. intros Hw He. unfold read_record. by rewrite getline_field, getline_eof. Qed.

Lemma read_record_truncated w explanation :
  TAB ∉ w → w ≠ [] →
  read_record (mkStream w false false) explanation = Some (w, explanation, mkStream [] true true).
Proof.
  intros Hw Hne. unfold read_record. rewrite getline_eof by done. cbn.
  by rewrite bool_decide_eq_false_2.
Qed.

Lemma read_record_not_good input explanation :
  good input = false → read_record input explanation = None.
Proof. intros Hg. unfold read_record, getline. by rewrite Hg. Qed.

Lemma read_record_empty explanation : read_record (mkStream [] false false) explanation = None.
Proof. done. Qed.

Lemma records_not_good input explanation : good input = false → records input explanation = [].
Proof. intros Hg. by rewrite records_eq, read_record_not_good. Qed.

Lemma records_print_app rs rest explanation :
  Forall plain rs →
  records (mkStream (print rs ++ rest) false false) explanation =
  rs ++ records (mkStream rest false false)
                (from_option (λ r, dosToWinCode r.2) explanation (last rs)).
Proof.
  intros Hrs. revert explanation. induction Hrs as [|[w e] rs [Hw He] _ IH]; intros explanation;
    [done|].
  unfold print. cbn [fmap list_fmap mjoin list_join fst snd]. fold (print rs).
  rewrite <- !app_assoc. cbn [app]. rewrite <- !app_assoc. cbn [app].
  rewrite records_eq, read_record_full by done. rewrite IH. cbn [app]. do 2 f_equal.
  rewrite last_cons. by destruct (last rs).
Qed.

Lemma records_empty explanation : records (mkStream [] false false) explanation = [].
Proof. by rewrite records_eq. Qed.

Lemma load_loop_loadRecords input explanation d :
  load_loop input explanation d = loadRecords (records input explanation) d.
Proof.
  revert d. revert input explanation.
  apply (stream_ind (λ input explanation, ∀ d, load_loop input explanation d =
                                               loadRecords (records input explanation) d)).
  intros input explanation IH d. rewrite load_loop_eq, records_eq.
  destruct (read_record input explanation) as [[[w e'] fin']|] eqn:E; [|done].
  cbn [loadRecords]. destruct (loadRecord w e' d); cbn [mbind option_bind]; [by eapply IH|done].
Qed.

(** Loading from a file is [loadDictionary] over the records the stream
    delivers. *)
Lemma loadDictionary_file_eq file d :
  loadDictionary_file file d = loadDictionary (file_records file) d.
Proof.
  destruct file as [content|]; [|done].
  unfold loadDictionary_file, loadDictionary. cbn. apply load_loop_loadRecords.
Qed.

(** The word table after loading a file. *)
Lemma loadDictionary_file_words content d d' :
  loadDictionary_file (Some content) d = Some d' →
  _allWords d' = (λ r, canonicalize r.1) <$> records (open (Some content)) [].
Proof. rewrite loadDictionary_file_eq. cbn. intros H. by rewrite (loadRecords_words _ _ _ H). Qed.

(** ** Claims on reading the file *)

(** [C9] Refinement: after [loadDictionary] on a file that can be opened,
    the word table is the list of the keys of the records the stream
    delivers, in file order, every bucket of the index holds exactly what
    [bucket_of] computes from that table, and the cache is empty. *)
Theorem loadDictionary_file_exact content d d' :
  length (_fastSearch d) = LONGEST_WORD →
  loadDictionary_file (Some content) d = Some d' →
  index_exact d' ∧ _cacheSearchMap d' = ∅ ∧
  _allWords d' = (λ r, canonicalize r.1) <$> records (open (Some content)) [].
Proof.
  intros Hl H. pose proof (loadDictionary_file_words _ _ _ H). rewrite loadDictionary_file_eq in H.
  by destruct (loadDictionary_inv _ _ _ Hl H).
Qed.

(** [C39] Termination: the loop runs at most once per character left in the
    stream, and once more when the end has not been seen. *)
Theorem records_bound input explanation :
  (length (records input explanation) ≤ remaining input)%nat.
Proof.
  revert input explanation. apply stream_ind. intros input explanation IH.
  rewrite records_eq. destruct (read_record input explanation) as [[[w e'] fin']|] eqn:E;
    [|cbn; lia].
  cbn [length]. specialize (IH _ _ _ eq_refl). apply read_record_remaining in E. lia.
Qed.

(** [C21] Round trip: a file printed from records whose words hold no tab
    and whose explanations hold no newline is read back as those
    records. *)
Theorem records_print rs : Forall plain rs → file_records (Some (print rs)) = Some rs.
Proof.
  intros Hrs. cbn. f_equal. rewrite <- (app_nil_r (print rs)).
  by rewrite records_print_app, records_empty, app_nil_r.
Qed.

(** A last record that no newline closes is read like the others. *)
Theorem records_unclosed rs w e :
  Forall plain rs → plain (w, e) →
  file_records (Some (print rs ++ w ++ TAB :: e)) = Some (rs ++ [(w, e)]).
Proof.
  intros Hrs [Hw He]. cbn. f_equal.
  rewrite records_print_app, records_eq, read_record_unclosed by done.
  by rewrite records_not_good.
Qed.

(** [C22] A file that ends inside a word: the loop body still runs for that
    word, and the explanation it stores is the shifted explanation of the
    record before it, shifted once more by the body; the empty string when
    there is no record before it. *)
Theorem records_truncated rs w :
  Forall plain rs → TAB ∉ w → w ≠ [] →
  file_records (Some (print rs ++ w)) =
  Some (rs ++ [(w, from_option (λ r, dosToWinCode r.2) [] (last rs))]).
Proof.
  intros Hrs Hw Hne. cbn. f_equal.
  rewrite records_print_app, records_eq, read_record_truncated by done.
  by rewrite records_not_good.
Qed.

(** A file that cannot be opened: the dictionary is reset and nothing
    is read. *)
Theorem loadDictionary_file_unreadable d : loadDictionary_file None d = Some (reset d).
Proof. done. Qed.

End Stream.

(** ** Witnesses *)

Section StreamWitnesses.
#[local] Existing Instance cp1251.

(** The records of the specification's example, in the code page of the
    header: the words 195 193 212 and 195 193 210 (the letters at the
    places of C, A, T and C, A, R). *)
Definition two_lines : list Z := [195; 193; 212; 9; 1; 10; 195; 193; 210; 9; 2; 10].

Example two_lines_print : two_lines = print two_records.
Proof. reflexivity. Qed.

Example two_lines_load : loadDictionary_file (Some two_lines) empty_dict = Some two_words.
Proof. vm_compute. reflexivity. Qed.

Lemma two_records_plain : Forall plain two_records.
Proof. apply (bool_decide_unpack _). by vm_compute. Qed.

Lemma loadDictionary_file_exact_witness :
  index_exact two_words ∧ _cacheSearchMap two_words = ∅ ∧
  _allWords two_words = (λ r, canonicalize r.1) <$> records (open (Some two_lines)) [].
Proof.
  apply (loadDictionary_file_exact two_lines empty_dict); [reflexivity|exact two_lines_load].
Defined.

Lemma records_print_witness : file_records (Some (print two_records)) = Some two_records.
Proof. apply records_print. exact two_records_plain. Defined.

Lemma records_unclosed_witness :
  file_records (Some (print [(CAT, [1])] ++ CAR ++ TAB :: [2])) = Some ([(CAT, [1])] ++ [(CAR, [2])]).
Proof. apply records_unclosed; apply (bool_decide_unpack _); by vm_compute. Defined.

Lemma records_truncated_witness :
  file_records (Some (print [(CAT, [1])] ++ CAR)) =
  Some ([(CAT, [1])] ++ [(CAR, from_option (λ r, dosToWinCode r.2) [] (last [(CAT, [1])]))]).
Proof. apply records_truncated; [apply (bool_decide_unpack _); by vm_compute..|done]. Defined.

(** The truncated word is stored with the explanation of the word before
    it. *)
Example truncated_explanation :
  (λ d, getExplanation CAR d) <$> loadDictionary_file (Some (print [(CAT, [1])] ++ CAR)) empty_dict =
  Some (Ref [1]).
Proof. vm_compute. reflexivity. Qed.

End StreamWitnesses.
