(* ===== verification/Lifecycle.v ===== *)
(** * Lifecycle of a dictionary: shuffling, destruction, construction

    [Dictionary::shuffle], the destructor and the two constructors of
    [src/dictionary.cpp], and the sequences of calls a client may make on
    an object.  [std::random_shuffle] is an interface ([RandomShuffle]): a
    function over the state of the random number generator that returns a
    permutation; the theorems on [shuffle] are proved against it.  The
    destructor works on the heap of [Query.v].  The constructors read the
    configuration through an oracle for the file system ([FileSystem]);
    an exception is a value of [Outcome]. *)

From stdpp Require Import list gmap strings.
From S2P Require Import Prelude Normalizer KeyPacking Dictionary Query Stream.
#[local] Open Scope Z_scope.

(** ** The interface of [std::random_shuffle] *)

(** [std::random_shuffle(first, last)] over the generator state [R]: the
    rearranged vector and the state after the calls to [rand]. *)
Class RandomShuffle (R : Type) : Type := {
  random_shuffle : list Z → R → list Z * R;
  random_shuffle_perm v r : (random_shuffle v r).1 ≡ₚ v
}.

(** ** An implementation of the interface: the exchange shuffle

    [std::random_shuffle] as the GNU library writes it: for [i] from 1,
    exchange the elements at [i] and at [rand() % (i + 1)].  The generator
    state is the list of the values [rand] will return, 0 when it is
    exhausted. *)

Definition iter_swap (i j : nat) (v : list Z) : list Z :=
  match v !! i, v !! j with
  | Some x, Some y => <[i := y]> (<[j := x]> v)
  | _, _ => v
  end.

Definition exchange_step (acc : list Z * list nat) (i : nat) : list Z * list nat :=
  let j := (hd 0%nat acc.2 mod (i + 1))%nat in
  (if decide (i ≠ j) then iter_swap i j acc.1 else acc.1, tl acc.2).

Definition exchange_shuffle (v : list Z) (rand : list nat) : list Z * list nat :=
  foldl exchange_step (v, rand) (seq 1 (length v - 1)).

Lemma insert_head_perm (l : list Z) k y a :
  l !! k = Some y → y :: <[k := a]> l ≡ₚ a :: l.
Proof.
  revert k. induction l as [|b l IH]; intros [|k] Hk; simplify_eq/=; [apply perm_swap|].
  rewrite perm_swap, (IH k Hk). apply perm_swap.
Qed.

Lemma iter_swap_perm i j v : iter_swap i j v ≡ₚ v.
Proof.
  unfold iter_swap. destruct (v !! i) as [x|] eqn:Hi; [|done].
  destruct (v !! j) as [y|] eqn:Hj; [|done].
  revert i j Hi Hj. induction v as [|a v IH]; intros [|i] [|j] Hi Hj; simplify_eq/=.
  - done.
  - by apply insert_head_perm.
  - by apply insert_head_perm.
  - by rewrite IH.
Qed.

Lemma exchange_shuffle_perm v rand : (exchange_shuffle v rand).1 ≡ₚ v.
Proof.
  unfold exchange_shuffle. generalize (seq 1 (length v - 1)). intros idx.
  assert (∀ acc, (foldl exchange_step acc idx).1 ≡ₚ acc.1) as H; [|apply (H (v, rand))].
  induction idx as [|i idx IH]; intros acc; [done|]. cbn [foldl]. rewrite IH.
  unfold exchange_step. cbn. case_decide; [apply iter_swap_perm|done].
Qed.

#[global] Instance exchange_RandomShuffle : RandomShuffle (list nat) := {|
  random_shuffle := exchange_shuffle;
  random_shuffle_perm := exchange_shuffle_perm
|}.

Example exchange_shuffle_example :
  exchange_shuffle [10; 20; 30; 40] [1; 0; 2]%nat = ([30; 20; 40; 10], []).
Proof. vm_compute. reflexivity. Qed.

(** ** Heaps that hold the same vectors in another order *)

Definition heap_perm (h h' : Heap) : Prop := ∀ l, option_Forall2 (≡ₚ) (h !! l) (h' !! l).

(** States with the same content: equivalent dictionaries over such
    heaps. *)
#[global] Instance state_equiv : Equiv (Dict * Heap) := λ s s',
  s.1 ≡ s'.1 ∧ heap_perm s.2 s'.2.

(** A view that spans its vector, as [findPossible] returns them. *)
Definition whole_view (v : Pattern) (h : Heap) : Prop :=
  ∃ ids, h !! pat_begin v = Some ids ∧ pat_size v = length ids.

Section Shuffle.
Context `{HC : HeaderConstants} `{RS : RandomShuffle R}.

(** The inner loop of [shuffle], [for (auto& it : _fastSearch[length])]:
    every vector of the map is replaced by its rearrangement, the generator
    state passing from one to the next in the order of iteration. *)
Definition shuffle_buckets (m : gmap Z (list Z)) (r : R) : gmap Z (list Z) * R :=
  map_fold (λ key v acc, let '(v', r') := random_shuffle v acc.2 in (<[key := v']> acc.1, r'))
           (∅, r) m.

(** The outer loop, [for (auto length = 0; length < LONGEST_WORD; ++length)]. *)
Definition shuffle_length (acc : option (list (gmap Z (list Z)) * R)) (length : nat)
  : option (list (gmap Z (list Z)) * R) :=
  '(fs, r) ← acc;
  m ← fs !! length;
  let '(m', r') := shuffle_buckets m r in
  Some (<[length := m']> fs, r').

Definition shuffle_index (fs : list (gmap Z (list Z))) (r : R)
  : option (list (gmap Z (list Z)) * R) :=
  foldl shuffle_length (Some (fs, r)) (seq 0 LONGEST_WORD).

(** The loop over the cache, [for (auto& it : _cacheSearchMap)]: the
    vector each pointer refers to is rearranged in place. *)
Definition shuffle_entry (_ : list Z) (l : nat) (acc : option (Heap * R)) : option (Heap * R) :=
  '(h, r) ← acc;
  v ← h !! l;
  let '(v', r') := random_shuffle v r in
  Some (<[l := v']> h, r').

Definition shuffle_cache (c : gmap (list Z) nat) (hr : Heap * R) : option (Heap * R) :=
  map_fold shuffle_entry (Some hr) c.

(** [void Dictionary::shuffle()]. *)
Definition shuffle (s : Dict * Heap) (r : R) : option (Dict * Heap * R) :=
  '(fs, r) ← shuffle_index (_fastSearch s.1) r;
  '(h, r) ← shuffle_cache (_cacheSearchMap s.1) (s.2, r);
  Some (with_fastSearch fs s.1, h, r).

(** ** Heaps and states up to the order of the vectors *)

#[global] Instance heap_perm_equivalence : Equivalence heap_perm.
Proof.
  split.
  - intros h l. by destruct (h !! l); constructor.
  - intros h h' H l. destruct (H l); constructor. done.
  - intros h1 h2 h3 H1 H2 l. pose proof (H2 l) as H2l.
    destruct (H1 l); inversion H2l; constructor. by etrans.
Qed.

#[global] Instance state_equiv_equivalence : Equivalence (≡@{Dict * Heap}).
Proof.
  split.
  - by intros s.
  - intros s s' [? ?]. by split.
  - intros s1 s2 s3 [? ?] [? ?]. split; by etrans.
Qed.

Lemma heap_perm_lookup h h' l v :
  heap_perm h h' → h !! l = Some v → ∃ v', h' !! l = Some v' ∧ v ≡ₚ v'.
Proof. intros H Hl. specialize (H l). rewrite Hl in H. inversion H. eauto. Qed.

Lemma heap_perm_insert h h' l v v' :
  heap_perm h h' → v ≡ₚ v' → heap_perm (<[l := v]> h) (<[l := v']> h').
Proof.
  intros H Hv l'. destruct (decide (l = l')) as [<-|Hne].
  - rewrite !lookup_insert_eq. by constructor.
  - rewrite !lookup_insert_ne by done. apply H.
Qed.

#[global] Instance dict_ok_proper : Proper ((≡) ==> iff) dict_ok.
Proof.
  assert (∀ s s', s ≡ s' → dict_ok s → dict_ok s') as H.
  { intros [d h] [d' h'] [E Hh] (Hi & Hc & Hinj). cbn in E, Hh.
    pose proof E as (Hw & _ & _ & Hcache & _). unfold dict_ok, cache_ok, cache_inj in *. cbn in *.
    rewrite <- Hcache, <- Hw. split_and!; [by rewrite <- E| |done].
    intros p l Hp. destruct (Hc p l Hp) as (v & Hv & Hperm).
    destruct (heap_perm_lookup _ _ _ _ Hh Hv) as (v' & Hv' & Hvv'). exists v'. split; [done|]. by rewrite <- Hvv'. }
  intros s s' E. split; apply H; done.
Qed.

(** A whole view enumerates the same identifiers, in another order, in an
    equivalent heap. *)
Lemma view_ids_perm v h h' :
  heap_perm h h' → whole_view v h → view_ids v h ≡ₚ view_ids v h' ∧ whole_view v h'.
Proof.
  intros Hh (ids & Hl & Hs). destruct (heap_perm_lookup _ _ _ _ Hh Hl) as (ids' & Hl' & Hp).
  unfold view_ids, whole_view. rewrite Hl, Hl', Hs. cbn.
  pose proof (Permutation_length Hp) as Hlen.
  rewrite !take_ge by lia. split; [done|]. by exists ids'.
Qed.

(** ** The loops of [shuffle] *)

Lemma shuffle_buckets_lookup m r key :
  option_Forall2 (≡ₚ) (m !! key) ((shuffle_buckets m r).1 !! key).
Proof.
  revert key. unfold shuffle_buckets.
  apply (map_fold_weak_ind (λ acc m', ∀ key, option_Forall2 (≡ₚ) (m' !! key) (acc.1 !! key))).
  - intros key. rewrite !lookup_empty. constructor.
  - intros i x m' acc Hi IH key. pose proof (random_shuffle_perm x acc.2) as Hp.
    destruct (random_shuffle x acc.2) as [v' r']. cbn in *.
    destruct (decide (i = key)) as [<-|Hne].
    + rewrite !lookup_insert_eq. by constructor.
    + rewrite !lookup_insert_ne by done. apply IH.
Qed.

Lemma shuffle_buckets_default m r key :
  default [] (m !! key) ≡ₚ default [] ((shuffle_buckets m r).1 !! key).
Proof. by destruct (shuffle_buckets_lookup m r key). Qed.

(** The content of the array of maps at a length and a key. *)
Definition slot (fs : list (gmap Z (list Z))) (len : nat) (key : Z) : list Z :=
  default [] (fs !! len ≫= (.!! key)).

Lemma shuffle_length_Some fs r n :
  (n < length fs)%nat →
  ∃ fs' r', shuffle_length (Some (fs, r)) n = Some (fs', r') ∧ length fs' = length fs ∧
            ∀ len key, slot fs len key ≡ₚ slot fs' len key.
Proof.
  intros Hn. destruct (lookup_lt_is_Some_2 _ _ Hn) as [m Hm].
  unfold shuffle_length. cbn. rewrite Hm. cbn.
  pose proof (shuffle_buckets_default m r) as Hp.
  destruct (shuffle_buckets m r) as [m' r']. cbn in Hp. eexists _, _. split; [done|].
  split; [by rewrite length_insert|]. intros len key. unfold slot.
  destruct (decide (n = len)) as [<-|Hne].
  - rewrite list_lookup_insert_eq by done. rewrite Hm. cbn. apply Hp.
  - by rewrite list_lookup_insert_ne.
Qed.

Lemma shuffle_prefix_Some n fs r :
  (n ≤ length fs)%nat →
  ∃ fs' r', foldl shuffle_length (Some (fs, r)) (seq 0 n) = Some (fs', r') ∧
            length fs' = length fs ∧ ∀ len key, slot fs len key ≡ₚ slot fs' len key.
Proof.
  induction n as [|n IH]; intros Hn; [by exists fs, r|].
  destruct IH as (fs1 & r1 & E & Hl & Hp); [lia|].
  rewrite seq_S, foldl_app, E. cbn [foldl].
  destruct (shuffle_length_Some fs1 r1 n) as (fs2 & r2 & E2 & Hl2 & Hp2); [lia|].
  exists fs2, r2. split_and!; [done|congruence|]. intros len key. by rewrite Hp.
Qed.

Lemma shuffle_cache_Some c h r :
  (∀ p l, c !! p = Some l → is_Some (h !! l)) →
  ∃ h' r', shuffle_cache c (h, r) = Some (h', r') ∧ heap_perm h h'.
Proof.
  unfold shuffle_cache.
  apply (map_fold_weak_ind (λ acc c', (∀ p l, c' !! p = Some l → is_Some (h !! l)) →
                                       ∃ h' r', acc = Some (h', r') ∧ heap_perm h h')).
  - intros _. by exists h, r.
  - intros p l c' acc Hp IH Hall. destruct IH as (h1 & r1 & -> & Hh).
    { intros q k Hq. apply (Hall q k). rewrite lookup_insert_ne; [done|]. by intros ->; simplify_eq. }
    destruct (Hall p l) as [v Hv]; [by rewrite lookup_insert_eq|].
    destruct (heap_perm_lookup _ _ _ _ Hh Hv) as (v1 & Hv1 & Hvv1).
    unfold shuffle_entry. cbn. rewrite Hv1. cbn.
    pose proof (random_shuffle_perm v1 r1) as Hperm.
    destruct (random_shuffle v1 r1) as [v' r']. cbn in Hperm. eexists _, _. split; [done|].
    intros k. destruct (decide (l = k)) as [<-|Hne].
    + rewrite lookup_insert_eq, Hv. constructor. by rewrite Hperm.
    + rewrite lookup_insert_ne by done. apply Hh.
Qed.

(** [shuffle] on a state whose cached pointers are allocated. *)
Lemma shuffle_Some s r :
  length (_fastSearch s.1) = LONGEST_WORD →
  (∀ p l, _cacheSearchMap s.1 !! p = Some l → is_Some (s.2 !! l)) →
  ∃ s' r', shuffle s r = Some (s', r') ∧ s ≡ s'.
Proof.
  intros Hl Hc. unfold shuffle, shuffle_index.
  destruct (shuffle_prefix_Some LONGEST_WORD (_fastSearch s.1) r) as (fs & r1 & -> & Hfs & Hp);
    [lia|].
  cbn. destruct (shuffle_cache_Some _ _ r1 Hc) as (h & r2 & -> & Hh). cbn.
  eexists _, _. split; [done|]. split; [|done]. by split_and!.
Qed.

End Shuffle.

(** ** The destructor *)

(** [delete it.second]: freeing an address that is not allocated is
    undefined. *)
Definition delete_entry (_ : list Z) (l : nat) (acc : option Heap) : option Heap :=
  h ← acc;
  _ ← h !! l;
  Some (delete l h).

(** [Dictionary::~Dictionary()]: the heap after the loop over the cache. *)
Definition destructor (s : Dict * Heap) : option Heap :=
  map_fold delete_entry (Some s.2) (_cacheSearchMap s.1).

(** Every vector of the heap is referred to by the cache. *)
Definition owned (s : Dict * Heap) : Prop :=
  ∀ l, is_Some (s.2 !! l) → ∃ p, _cacheSearchMap s.1 !! p = Some l.

Section Destructor.

Lemma delete_entry_comm p1 l1 p2 l2 acc :
  delete_entry p1 l1 (delete_entry p2 l2 acc) = delete_entry p2 l2 (delete_entry p1 l1 acc).
Proof.
  destruct acc as [h|]; [|done]. unfold delete_entry. cbn.
  destruct (decide (l1 = l2)) as [->|Hne]; [done|].
  destruct (h !! l1) eqn:E1, (h !! l2) eqn:E2; cbn; rewrite ?lookup_delete_ne by done;
    rewrite ?E1, ?E2; cbn; try done.
  by rewrite delete_delete.
Qed.

Lemma destructor_loop (c : gmap (list Z) nat) (h : Heap) :
  (∀ p q l, c !! p = Some l → c !! q = Some l → p = q) →
  (∀ p l, c !! p = Some l → is_Some (h !! l)) →
  ∃ h', map_fold delete_entry (Some h) c = Some h' ∧ h' ⊆ h ∧
        (∀ p l, c !! p = Some l → h' !! l = None) ∧
        (∀ l, (∀ p, c !! p ≠ Some l) → h' !! l = h !! l).
Proof.
  apply (map_fold_weak_ind (λ acc c',
    (∀ p q l, c' !! p = Some l → c' !! q = Some l → p = q) →
    (∀ p l, c' !! p = Some l → is_Some (h !! l)) →
    ∃ h', acc = Some h' ∧ h' ⊆ h ∧ (∀ p l, c' !! p = Some l → h' !! l = None) ∧
          (∀ l, (∀ p, c' !! p ≠ Some l) → h' !! l = h !! l))).
  - intros _ _. exists h. split_and!; [done|done| |done]. intros p l. by rewrite lookup_empty.
  - intros p l c' acc Hp IH Hinj Hall.
    assert (Hsub : ∀ q k, c' !! q = Some k → <[p := l]> c' !! q = Some k).
    { intros q k Hq. rewrite lookup_insert_ne; [done|]. intros ->. congruence. }
    assert (Hnew : ∀ q, c' !! q ≠ Some l).
    { intros q Hq. assert (q = p) as -> by (eapply Hinj; [by apply Hsub|by rewrite lookup_insert_eq]).
      congruence. }
    destruct IH as (h1 & -> & Hh1 & Hfreed & Hkept); [by eauto..|].
    destruct (Hall p l) as [v Hv]; [by rewrite lookup_insert_eq|].
    unfold delete_entry. cbn. rewrite (Hkept l Hnew), Hv. cbn. eexists. split; [done|]. split_and!.
    + etrans; [apply delete_subseteq|done].
    + intros q k. destruct (decide (p = q)) as [<-|Hne].
      * rewrite lookup_insert_eq. intros [= <-]. apply lookup_delete_eq.
      * rewrite lookup_insert_ne by done. intros Hq. apply lookup_delete_None. eauto.
    + intros k Hk. assert (k ≠ l) by (intros ->; by apply (Hk p); rewrite lookup_insert_eq).
      rewrite lookup_delete_ne by done. apply Hkept. intros q Hq. by apply (Hk q), Hsub.
Qed.

End Destructor.

(** ** Construction *)

(** What [std::exception] a constructor lets escape. *)
Inductive Exception : Type :=
  | ini_parser_error (path : string)
  | runtime_error (what : string).

(** The result of a constructor: the object, an exception, or no defined
    behaviour. *)
Inductive Outcome (A : Type) : Type :=
  | Return (a : A)
  | Throw (e : Exception)
  | Undefined.
Arguments Return {A} a.
Arguments Throw {A} e.
Arguments Undefined {A}.

(** The files the constructors and [loadDictionary] see:
    [boost::property_tree::ini_parser::read_ini], [None] when it throws,
    and the content of a file, [None] when it cannot be opened. *)
Record FileSystem : Type := {
  read_ini : string → option (gmap string string);
  content : string → option (list Z)
}.

Definition DEFAULT_DICTIONARY_PATH : string := "z:/cross/bigdict.txt".
Definition DEFAULT_CONFIG_PATH : string := "z:/cross/config/config.ini".

(** An object with the heap its cache points into and the state of the
    random number generator. *)
Record State (R : Type) : Type := mkState {
  st_dict : Dict;
  st_heap : Heap;
  st_rng : R;
  _dictionaryFilePath : string
}.
Arguments mkState {R} _ _ _ _.
Arguments st_dict {R} _.
Arguments st_heap {R} _.
Arguments st_rng {R} _.
Arguments _dictionaryFilePath {R} _.

(** The calls a client makes on an object. *)
Inductive Call : Type :=
  | call_loadDictionary
  | call_reset
  | call_shuffle
  | call_findPossible (pattern : list Z).

Section Object.
Context `{HC : HeaderConstants} `{RS : RandomShuffle R} (fs : FileSystem).

(** [_iniPropertyTree.get<std::string>("dictionary.dictionary_file_path")]
    with the handler that defaults the path. *)
Definition get_dictionary_file_path (tree : gmap string string) : string :=
  match tree !! "dictionary.dictionary_file_path" with
  | Some path => path
  | None => DEFAULT_DICTIONARY_PATH
  end.

(** The object's [loadDictionary()]: the file is the one at
    [_dictionaryFilePath]. *)
Definition load (st : State R) : option (State R) :=
  d ← loadDictionary_file (content fs (_dictionaryFilePath st)) (st_dict st);
  Some (mkState d (st_heap st) (st_rng st) (_dictionaryFilePath st)).

(** The object's [shuffle()]. *)
Definition reshuffle (st : State R) : option (State R) :=
  '(d, h, r) ← shuffle (st_dict st, st_heap st) (st_rng st);
  Some (mkState d h r (_dictionaryFilePath st)).

(** The end of both constructors: the path from the tree, then
    [loadDictionary(); shuffle();] on the default-constructed members. *)
Definition construct (tree : gmap string string) (h : Heap) (r : R) : Outcome (State R) :=
  let st := mkState empty_dict h r (get_dictionary_file_path tree) in
  match load st ≫= reshuffle with
  | Some st' => Return st'
  | None => Undefined
  end.

(** [Dictionary::Dictionary()]: the handler rethrows. *)
Definition Dictionary_default (h : Heap) (r : R) : Outcome (State R) :=
  match read_ini fs DEFAULT_CONFIG_PATH with
  | Some tree => construct tree h r
  | None => Throw (ini_parser_error DEFAULT_CONFIG_PATH)
  end.

(** [Dictionary::Dictionary(const std::string& configFilePath)]: the
    handler throws when [std::ifstream{DEFAULT_CONFIG_PATH}] converts to
    true, and else reads [configFilePath] again. *)
Definition Dictionary_from (configFilePath : string) (h : Heap) (r : R) : Outcome (State R) :=
  match read_ini fs configFilePath with
  | Some tree => construct tree h r
  | None =>
      if bool_decide (is_Some (content fs DEFAULT_CONFIG_PATH))
      then Throw (runtime_error
                    "Could not open the given configuration path nor the default configuration path")
      else match read_ini fs configFilePath with
           | Some tree => construct tree h r
           | None => Throw (ini_parser_error configFilePath)
           end
  end.

(** One call on an object. *)
Definition step (c : Call) (st : State R) : option (State R) :=
  match c with
  | call_loadDictionary => load st
  | call_reset =>
      Some (mkState (reset (st_dict st)) (st_heap st) (st_rng st) (_dictionaryFilePath st))
  | call_shuffle => reshuffle st
  | call_findPossible pattern =>
      '(_, (d, h)) ← findPossible pattern (st_dict st, st_heap st);
      Some (mkState d h (st_rng st) (_dictionaryFilePath st))
  end.

(** A sequence of calls. *)
Definition run (cs : list Call) (st : State R) : option (State R) :=
  foldl (λ acc c, acc ≫= step c) (Some st) cs.

(** The states of an object between two calls. *)
Inductive reachable : State R → Prop :=
  | reachable_default h r st : Dictionary_default h r = Return st → reachable st
  | reachable_from configFilePath h r st :
      Dictionary_from configFilePath h r = Return st → reachable st
  | reachable_step c st st' : reachable st → step c st = Some st' → reachable st'.

(** The invariant of an object: the index is what the word table
    determines, every cached vector is allocated and holds the answer to
    its pattern, no vector is cached twice. *)
Definition inv (st : State R) : Prop := dict_ok (st_dict st, st_heap st).

(** What a call requires to return: the keys of the file are shorter
    than [LONGEST_WORD]; the pattern is shorter than [LONGEST_WORD] and the
    identifiers have not wrapped. *)
Definition call_ok (c : Call) (st : State R) : Prop :=
  match c with
  | call_loadDictionary =>
      ∀ rs, file_records (content fs (_dictionaryFilePath st)) = Some rs →
            Forall (λ r, (length (canonicalize r.1) < LONGEST_WORD)%nat) rs
  | call_findPossible pattern =>
      (length pattern < LONGEST_WORD)%nat ∧ (length (_allWords (st_dict st)) ≤ capacity)%nat
  | _ => True
  end.

End Object.

(** ** Preservation of the invariant *)

Section Invariant.
Context `{HC : HeaderConstants} `{RS : RandomShuffle R} (fs : FileSystem).

(** A loaded dictionary satisfies the invariant over any heap. *)
Lemma loaded_ok fin d d' h :
  length (_fastSearch d) = LONGEST_WORD → loadDictionary fin d = Some d' → dict_ok (d', h).
Proof.
  intros Hl H. destruct (loadDictionary_inv _ _ _ Hl H) as [Hi Hc].
  split_and!; [by apply index_exact_ok|..]; intros p; intros *; cbn [fst]; by rewrite Hc.
Qed.

Lemma shuffle_equiv s r s' r' : dict_ok s → shuffle s r = Some (s', r') → s ≡ s'.
Proof.
  intros (Hi & Hc & _) H. destruct (shuffle_Some s r) as (s1 & r1 & H1 & E); [apply Hi| |].
  - intros p l Hp. destruct (Hc p l Hp) as (v & -> & _). by eexists.
  - rewrite H in H1. by simplify_eq.
Qed.

Lemma load_inv (st st' : State R) : inv st → load fs st = Some st' → inv st'.
Proof.
  unfold load, inv. intros Hok H.
  destruct (loadDictionary_file _ _) as [d|] eqn:E; [|done]. cbn in H. simplify_eq. cbn.
  rewrite loadDictionary_file_eq in E. eapply loaded_ok; [|done]. apply Hok.
Qed.

Lemma reshuffle_inv (st st' : State R) : inv st → reshuffle st = Some st' → inv st'.
Proof.
  unfold reshuffle, inv. intros Hok H.
  destruct (shuffle _ _) as [[[d h] r]|] eqn:E; [|done]. cbn in H. simplify_eq. cbn.
  by rewrite <- (shuffle_equiv _ _ _ _ Hok E).
Qed.

Lemma step_inv c (st st' : State R) : inv st → step fs c st = Some st' → inv st'.
Proof.
  intros Hok H. destruct c as [| | |pattern]; cbn in H.
  - by eapply load_inv.
  - simplify_eq. unfold inv. cbn. apply (loaded_ok None (st_dict st)); [apply Hok|done].
  - by eapply reshuffle_inv.
  - destruct (findPossible _ _) as [[v [d h]]|] eqn:E; [|done]. cbn in H. simplify_eq.
    apply (findPossible_view _ _ _ _ Hok E).
Qed.

Lemma construct_inv tree h r (st : State R) : construct fs tree h r = Return st → inv st.
Proof.
  unfold construct. destruct (load fs _) as [st1|] eqn:E1; [|done]. cbn.
  destruct (reshuffle st1) as [st2|] eqn:E2; [|done]. intros [= <-].
  eapply reshuffle_inv; [|done]. unfold load in E1. cbn in E1.
  destruct (loadDictionary_file _ _) as [d|] eqn:E; [|done]. cbn in E1. simplify_eq.
  rewrite loadDictionary_file_eq in E. unfold inv. cbn.
  eapply loaded_ok; [|done]. apply length_fastSearch_fresh.
Qed.

(** What a constructor that returns has done: the file is loaded and the
    buckets are rearranged. *)
Lemma construct_Return tree h r (st : State R) :
  construct fs tree h r = Return st →
  ∃ d, loadDictionary_file (content fs (get_dictionary_file_path tree)) empty_dict = Some d ∧
       (d, h) ≡ (st_dict st, st_heap st) ∧ inv st.
Proof.
  intros H. pose proof (construct_inv _ _ _ _ H) as Hinv. revert H. unfold construct, load. cbn.
  destruct (loadDictionary_file _ _) as [d|] eqn:E; [|done]. cbn. unfold reshuffle. cbn.
  destruct (shuffle (d, h) r) as [[[d' h'] r']|] eqn:Es; [|done]. cbn. intros [= <-].
  exists d. split_and!; [done| |done]. cbn. eapply shuffle_equiv; [|done].
  rewrite loadDictionary_file_eq in E. eapply loaded_ok; [|done]. apply length_fastSearch_fresh.
Qed.

Lemma owned_cache_store pattern ids s :
  _cacheSearchMap s.1 !! pattern = None → owned s → owned (cache_store pattern ids s).2.
Proof.
  intros Hmiss Ho l. destruct s as [d h]. unfold cache_store, new_vector. cbn in *.
  destruct (decide (fresh (dom h) = l)) as [<-|Hne].
  - intros _. exists pattern. by rewrite lookup_insert_eq.
  - rewrite lookup_insert_ne by done. intros [p Hp]%Ho. cbn in Hp. exists p.
    rewrite lookup_insert_ne; [done|]. intros ->. congruence.
Qed.

Lemma owned_findPossible pattern s v s' :
  owned s → findPossible pattern s = Some (v, s') → owned s'.
Proof.
  intros Ho [(l & cached & _ & _ & _ & ->)|
             (Hmiss & _ & d' & ids & _ & Hc & _ & E)]%findPossible_inv; [done|].
  replace s' with (cache_store pattern ids (d', s.2)).2 by by rewrite <- E.
  apply owned_cache_store; cbn [fst snd]; [by rewrite Hc|].
  intros l Hl. cbn [fst snd] in *. rewrite Hc. by apply Ho.
Qed.

Lemma owned_equiv s s' : s ≡ s' → owned s → owned s'.
Proof.
  intros [(_ & _ & _ & Hc & _) Hh] Ho l [x Hx]. rewrite <- Hc. apply Ho.
  specialize (Hh l). rewrite Hx in Hh. inversion Hh. by eexists.
Qed.

(** The destructor on a state that satisfies the invariant. *)
Lemma destructor_Some s :
  cache_ok s → cache_inj s.1 →
  ∃ h', destructor s = Some h' ∧ h' ⊆ s.2 ∧
        (∀ p l, _cacheSearchMap s.1 !! p = Some l → h' !! l = None) ∧
        (∀ l, (∀ p, _cacheSearchMap s.1 !! p ≠ Some l) → h' !! l = s.2 !! l).
Proof.
  intros Hc Hinj. apply destructor_loop; [done|].
  intros p l Hp. destruct (Hc p l Hp) as (v & -> & _). by eexists.
Qed.

(** ** Claims on shuffling *)

(** [C13] [shuffle] on a state that satisfies the invariant returns, and
    the state it leaves holds the same content, each bucket and each cached
    vector in some order; the invariant holds afterwards. *)
Theorem shuffle_preserves s r :
  dict_ok s → ∃ s' r', shuffle s r = Some (s', r') ∧ s ≡ s' ∧ dict_ok s'.
Proof.
  intros Hok. destruct (shuffle_Some s r) as (s' & r' & H & E); [apply Hok| |].
  - intros p l Hp. destruct (proj1 (proj2 Hok) p l Hp) as (v & -> & _). by eexists.
  - exists s', r'. split_and!; [done..|]. by rewrite <- E.
Qed.

(** A view handed out before [shuffle] enumerates the same
    identifiers afterwards, in another order: the vector it points into is
    rearranged in place. *)
Theorem shuffle_view s r s' r' v :
  dict_ok s → shuffle s r = Some (s', r') → whole_view v s.2 →
  view_ids v s.2 ≡ₚ view_ids v s'.2 ∧ whole_view v s'.2.
Proof. intros Hok H Hv. apply view_ids_perm; [|done]. apply (shuffle_equiv _ _ _ _ Hok H). Qed.

(** [C14] Idempotence of the specification: a query, a shuffle and the same
    query again return views that enumerate the same identifiers, in some
    order. *)
Theorem findPossible_shuffle_findPossible pattern s v s1 r s2 r' v' s3 :
  dict_ok s → findPossible pattern s = Some (v, s1) → shuffle s1 r = Some (s2, r') →
  findPossible pattern s2 = Some (v', s3) → view_ids v' s3.2 ≡ₚ view_ids v s1.2.
Proof.
  intros Hok H1 H2 H3.
  destruct (findPossible_view _ _ _ _ Hok H1) as (Hok1 & ((Hw & _) & _) & -> & _).
  pose proof (shuffle_equiv _ _ _ _ Hok1 H2) as E. assert (dict_ok s2) as Hok2 by by rewrite <- E.
  destruct (findPossible_view _ _ _ _ Hok2 H3) as (_ & _ & -> & _).
  destruct E as ((<- & _) & _). by rewrite Hw.
Qed.

(** ** Claims on the destructor *)

(** [C24] On a state that satisfies the invariant the destructor frees each
    cached vector once: it returns, no cached address is allocated
    afterwards, and every other address holds what it held. *)
Theorem destructor_frees s :
  dict_ok s →
  ∃ h', destructor s = Some h' ∧
        (∀ p l, _cacheSearchMap s.1 !! p = Some l → h' !! l = None) ∧
        (∀ l, (∀ p, _cacheSearchMap s.1 !! p ≠ Some l) → h' !! l = s.2 !! l).
Proof.
  intros (_ & Hc & Hinj). destruct (destructor_Some s Hc Hinj) as (h' & ? & _ & ? & ?).
  by exists h'.
Qed.

(** No leak without a reload: when every vector of the heap is
    referred to by the cache, the destructor leaves the heap empty; queries
    and shuffles keep it so. *)
Theorem destructor_owned s :
  dict_ok s → owned s → destructor s = Some ∅.
Proof.
  intros (_ & Hc & Hinj) Ho. destruct (destructor_Some s Hc Hinj) as (h' & -> & Hsub & Hfreed & _).
  f_equal. apply map_empty. intros l. destruct (h' !! l) as [x|] eqn:Hl; [|done].
  destruct (Ho l) as [p Hp]; [by rewrite (lookup_weaken _ _ _ _ Hl Hsub)|].
  by rewrite (Hfreed p l Hp) in Hl.
Qed.

(** Two patterns cached with the same vector make the destructor free
    it twice. *)
Theorem destructor_double_free s p q l :
  p ≠ q → _cacheSearchMap s.1 !! p = Some l → _cacheSearchMap s.1 !! q = Some l →
  destructor s = None.
Proof.
  intros Hne Hp Hq. unfold destructor.
  assert (Hq' : delete p (_cacheSearchMap s.1) !! q = Some l) by by rewrite lookup_delete_ne.
  rewrite (map_fold_delete_L _ _ p l _
             (λ j1 j2 z1 z2 y _ _ _, delete_entry_comm j1 z1 j2 z2 y) Hp).
  rewrite (map_fold_delete_L _ _ q l _
             (λ j1 j2 z1 z2 y _ _ _, delete_entry_comm j1 z1 j2 z2 y) Hq').
  unfold delete_entry at 1 2. destruct (map_fold _ _ _) as [h|]; [|done]. cbn.
  destruct (h !! l); [|done]. cbn. by rewrite lookup_delete_eq.
Qed.

(** [C23] Leak on reload: the vector a query returned a view of is still
    allocated after [loadDictionary] and the destructor, which frees
    nothing: [reset] clears the cache without deleting the vectors. *)
Theorem reload_leaks pattern s v s1 fin d2 :
  findPossible pattern s = Some (v, s1) → loadDictionary fin s1.1 = Some d2 →
  length (_fastSearch s1.1) = LONGEST_WORD →
  destructor (d2, s1.2) = Some s1.2 ∧ is_Some (s1.2 !! pat_begin v).
Proof.
  intros H1 H2 Hl. split; [|by eapply findPossible_allocated].
  destruct (loadDictionary_inv _ _ _ Hl H2) as [_ Hc]. unfold destructor. cbn.
  by rewrite Hc, map_fold_empty.
Qed.

(** ** Claims on the object *)

(** [C5] Invariant: the state of an object after a constructor has
    returned and after any sequence of calls that returned satisfies the
    invariant, whatever the file held and however many words it had. *)
Theorem reachable_inv (st : State R) : reachable fs st → inv st.
Proof.
  induction 1 as [h r st H|path h r st H|c st st' _ IH H].
  - unfold Dictionary_default in H. destruct (read_ini fs _); [by eapply construct_inv|done].
  - unfold Dictionary_from in H. destruct (read_ini fs path); [by eapply construct_inv|].
    by case_bool_decide.
  - by eapply step_inv.
Qed.

(** [C17] Progress: on a state that satisfies the invariant a call whose
    requirement holds returns. *)
Theorem step_total c (st : State R) : inv st → call_ok fs c st → is_Some (step fs c st).
Proof.
  intros Hok Hc. destruct c as [| | |pattern]; cbn in *.
  - unfold load. rewrite loadDictionary_file_eq.
    destruct (file_records _) as [rs|] eqn:E; cbn; [|by eexists].
    destruct (loadRecords_Some rs (reset (st_dict st))) as [d ->]; [|by eexists].
    destruct Hok as [[Hl _] _]. cbn in Hl. rewrite length_fastSearch_reset, Hl. by apply Hc.
  - by eexists.
  - unfold reshuffle. destruct (shuffle_Some (st_dict st, st_heap st) (st_rng st))
      as ([d h] & r & -> & _); [apply Hok| |by eexists].
    intros p l Hp. destruct (proj1 (proj2 Hok) p l Hp) as (v & -> & _). by eexists.
  - destruct Hc as [Hlen Hcap].
    destruct (_cacheSearchMap (st_dict st) !! pattern) as [l|] eqn:Hhit.
    + destruct (findPossible_hit_ok pattern (st_dict st, st_heap st) l) as (v & -> & _);
        [done|apply Hok|by eexists].
    + destruct (findPossible_miss_ok pattern (st_dict st, st_heap st)) as (v & [d h] & -> & _);
        [done..|by eexists].
Qed.

(** [C25] The second constructor never falls back: when the given
    configuration cannot be read it throws, [runtime_error] if the default
    configuration file can be opened and the parser's error if it cannot. *)
Theorem Dictionary_from_throws configFilePath h r :
  read_ini fs configFilePath = None →
  Dictionary_from fs configFilePath h r =
  Throw (if bool_decide (is_Some (content fs DEFAULT_CONFIG_PATH))
         then runtime_error
                "Could not open the given configuration path nor the default configuration path"
         else ini_parser_error configFilePath).
Proof. intros H. unfold Dictionary_from. rewrite H. by case_bool_decide. Qed.

(** A constructor that has read its configuration leaves the
    dictionary loaded from the file the configuration names, or from the
    default file when it names none, each bucket in some order, and the
    heap untouched. *)
Theorem construct_loaded tree h r d :
  loadDictionary_file (content fs (get_dictionary_file_path tree)) empty_dict = Some d →
  ∃ st, construct fs tree h r = Return st ∧ st_dict st ≡ d ∧ st_heap st = h ∧
        _dictionaryFilePath st = get_dictionary_file_path tree.
Proof.
  intros Hd. unfold construct, load. cbn. rewrite Hd. cbn.
  assert (dict_ok (d, h)) as Hok.
  { rewrite loadDictionary_file_eq in Hd. eapply loaded_ok; [|done]. apply length_fastSearch_fresh. }
  assert (_cacheSearchMap d = ∅) as Hc.
  { rewrite loadDictionary_file_eq in Hd.
    by destruct (loadDictionary_inv _ _ _ length_fastSearch_fresh Hd). }
  unfold reshuffle. cbn. destruct (shuffle (d, h) r) as [[[d' h'] r']|] eqn:E.
  - pose proof (shuffle_equiv _ _ _ _ Hok E) as [Ed _]. cbn in Ed. eexists. split; [done|]. cbn.
    split_and!; [done| |done]. unfold shuffle in E. cbn in E. rewrite Hc in E.
    destruct (shuffle_index _ _) as [[fs' r1]|]; [|done]. cbn in E.
    unfold shuffle_cache in E. rewrite map_fold_empty in E. cbn in E. by simplify_eq.
  - destruct (shuffle_Some (d, h) r) as (? & ? & ? & _); [apply Hok| |congruence].
    intros p l. cbn. by rewrite Hc.
Qed.

(** [C4] From the file to the answer: an object built by the first
    constructor from a configuration that names a readable file answers a
    query with the abstract answer to the pattern over the keys of the
    records of that file, in file order. *)
Theorem Dictionary_default_query tree file h r (st : State R) pattern v s' :
  read_ini fs DEFAULT_CONFIG_PATH = Some tree →
  content fs (get_dictionary_file_path tree) = Some file →
  Dictionary_default fs h r = Return st →
  findPossible pattern (st_dict st, st_heap st) = Some (v, s') →
  view_ids v s'.2 ≡ₚ answer ((λ r, canonicalize r.1) <$> records (open (Some file)) []) pattern.
Proof.
  unfold Dictionary_default. intros -> Hfile (d & Hd & [[Hw _] _] & Hinv)%construct_Return Hq.
  rewrite Hfile in Hd. apply loadDictionary_file_words in Hd as <-. cbn in Hw. rewrite Hw.
  by destruct (findPossible_view _ _ _ _ Hinv Hq) as (_ & _ & ? & _).
Qed.

End Invariant.

(** ** Witnesses *)

Section LifecycleWitnesses.
#[local] Existing Instance cp1251.

(** The values [rand] returns in the examples. *)
Definition dice : list nat := [1; 0; 2; 5; 3; 1; 4; 2; 7; 1; 0; 6]%nat.

Lemma after_C_T_ok : dict_ok after_C_T.2.
Proof. apply (findPossible_view C_T (zoo, ∅) after_C_T.1); [exact zoo_ok|exact find_after_C_T]. Qed.

Lemma after_K______L_ok : dict_ok after_K______L.2.
Proof.
  apply (findPossible_view K______L after_C_T.2 after_K______L.1);
    [exact after_C_T_ok|exact find_after_K______L].
Qed.

Lemma after_K______L_owned : owned after_K______L.2.
Proof.
  apply (owned_findPossible K______L after_C_T.2 after_K______L.1); [|exact find_after_K______L].
  apply (owned_findPossible C_T (zoo, ∅) after_C_T.1); [|exact find_after_C_T].
  intros l [x Hx]. cbn [snd] in Hx. by rewrite lookup_empty in Hx.
Qed.

(** The state after the two queries and a shuffle, and after the first
    query again. *)
Definition shuffled : Dict * Heap * list nat :=
  Eval vm_compute in default (after_K______L.2, dice) (shuffle after_K______L.2 dice).
Definition after_shuffle : Pattern * (Dict * Heap) :=
  Eval vm_compute in default after_C_T (findPossible K______L shuffled.1).

Example shuffle_after_K______L : shuffle after_K______L.2 dice = Some (shuffled.1, shuffled.2).
Proof. vm_compute. reflexivity. Qed.

Lemma shuffle_preserves_witness :
  ∃ s' r', shuffle after_K______L.2 dice = Some (s', r') ∧ after_K______L.2 ≡ s' ∧ dict_ok s'.
Proof. apply shuffle_preserves. exact after_K______L_ok. Defined.

Lemma shuffle_view_witness :
  view_ids after_C_T.1 after_K______L.2.2 ≡ₚ view_ids after_C_T.1 shuffled.1.2 ∧
  whole_view after_C_T.1 shuffled.1.2.
Proof.
  apply (shuffle_view after_K______L.2 dice shuffled.1 shuffled.2);
    [exact after_K______L_ok|exact shuffle_after_K______L|].
  eexists. split; [vm_compute; reflexivity|reflexivity].
Defined.

Lemma findPossible_shuffle_findPossible_witness :
  view_ids after_shuffle.1 after_shuffle.2.2 ≡ₚ view_ids after_K______L.1 after_K______L.2.2.
Proof.
  apply (findPossible_shuffle_findPossible K______L after_C_T.2 _ _ dice shuffled.1 shuffled.2);
    [exact after_C_T_ok|exact find_after_K______L|exact shuffle_after_K______L|].
  vm_compute. reflexivity.
Defined.

Lemma destructor_frees_witness :
  ∃ h', destructor after_K______L.2 = Some h' ∧
        (∀ p l, _cacheSearchMap after_K______L.2.1 !! p = Some l → h' !! l = None) ∧
        (∀ l, (∀ p, _cacheSearchMap after_K______L.2.1 !! p ≠ Some l) →
              h' !! l = after_K______L.2.2 !! l).
Proof. apply destructor_frees. exact after_K______L_ok. Defined.

Lemma destructor_owned_witness : destructor after_K______L.2 = Some ∅.
Proof. apply destructor_owned; [exact after_K______L_ok|exact after_K______L_owned]. Defined.

(** A cache in which two patterns share the vector at address 0. *)
Definition shared : Dict * Heap :=
  (with_cache {[ C_T := 0%nat; K______L := 0%nat ]} empty_dict, {[ 0%nat := [0] ]}).

Lemma destructor_double_free_witness : destructor shared = None.
Proof. apply (destructor_double_free shared C_T K______L 0); by vm_compute. Defined.

(** The dictionary reloaded after the two queries. *)
Definition reloaded : Dict :=
  Eval vm_compute in default zoo (loadDictionary (Some zoo_records) after_K______L.2.1).

Lemma reload_leaks_witness :
  destructor (reloaded, after_K______L.2.2) = Some after_K______L.2.2 ∧
  is_Some (after_K______L.2.2 !! pat_begin after_K______L.1).
Proof.
  apply (reload_leaks K______L after_C_T.2 after_K______L.1 after_K______L.2 (Some zoo_records));
    [exact find_after_K______L|by vm_compute|by vm_compute].
Defined.

(** A disk with a configuration at the default path that names the file
    of the two records of the specification. *)
Definition disk : FileSystem := {|
  read_ini path :=
    if decide (path = DEFAULT_CONFIG_PATH)
    then Some {[ "dictionary.dictionary_file_path" := "dict.txt" ]}
    else None;
  content path :=
    if decide (path = "dict.txt") then Some two_lines
    else if decide (path = DEFAULT_CONFIG_PATH) then Some [] else None
|}.

Definition constructed : State (list nat) :=
  Eval vm_compute in
    match Dictionary_default disk ∅ dice with
    | Return st => st
    | _ => mkState empty_dict ∅ dice EmptyString
    end.

Example construct_default : Dictionary_default disk ∅ dice = Return constructed.
Proof. vm_compute. reflexivity. Qed.

Lemma reachable_inv_witness : inv constructed.
Proof. apply (reachable_inv disk). apply (reachable_default disk ∅ dice). exact construct_default. Defined.

Lemma constructed_inv : inv constructed.
Proof.
  apply (construct_inv disk {[ "dictionary.dictionary_file_path" := "dict.txt" ]} ∅ dice).
  vm_compute. reflexivity.
Qed.

Lemma step_total_witness : is_Some (step disk (call_findPossible C_T) constructed).
Proof.
  apply step_total; [exact constructed_inv|]. split; [vm_compute; lia|].
  pose proof capacity_Z. change (length (_allWords (st_dict constructed))) with 2%nat. lia.
Defined.

Lemma Dictionary_from_throws_witness :
  Dictionary_from disk "missing.ini" ∅ dice =
  Throw (if bool_decide (is_Some (content disk DEFAULT_CONFIG_PATH))
         then runtime_error
                "Could not open the given configuration path nor the default configuration path"
         else ini_parser_error "missing.ini").
Proof. apply Dictionary_from_throws. reflexivity. Defined.

(** The default configuration is there and names a readable file; the
    second constructor still throws. *)
Example from_missing_throws :
  Dictionary_from disk "missing.ini" ∅ dice =
  Throw (runtime_error
           "Could not open the given configuration path nor the default configuration path").
Proof. vm_compute. reflexivity. Qed.

(** The first query on the object. *)
Definition constructed_C_T : Pattern * (Dict * Heap) :=
  Eval vm_compute in
    default (mkPattern 0 0, (empty_dict, ∅))
            (findPossible C_T (st_dict constructed, st_heap constructed)).

Lemma Dictionary_default_query_witness :
  view_ids constructed_C_T.1 constructed_C_T.2.2 ≡ₚ
  answer ((λ r, canonicalize r.1) <$> records (open (Some two_lines)) []) C_T.
Proof.
  apply (Dictionary_default_query disk {[ "dictionary.dictionary_file_path" := "dict.txt" ]}
           two_lines ∅ dice constructed C_T);
    [reflexivity|reflexivity|exact construct_default|vm_compute; reflexivity].
Defined.

Lemma construct_loaded_witness :
  ∃ st, construct disk {[ "dictionary.dictionary_file_path" := "dict.txt" ]} ∅ dice = Return st ∧
        st_dict st ≡ two_words ∧ st_heap st = ∅ ∧
        _dictionaryFilePath st =
          get_dictionary_file_path {[ "dictionary.dictionary_file_path" := "dict.txt" ]}.
Proof. apply construct_loaded. vm_compute. reflexivity. Defined.

End LifecycleWitnesses.
