(* ===== verification/Levenshtein.v ===== *)
(** * The edit distance of [utils::Dictionary]

    [Dictionary::levenstein] of [src/dictionary.cpp]: the table [dp] as a
    list of rows, the two loops as folds over the indices, every access to
    the table and to the strings checked ([None] out of range).  The table
    the loops fill is shown to be the recurrence [D], whose base row and
    column are zero; the distance of the textbook, whose base row and
    column hold the index, is [lev]. *)

From stdpp Require Import list.
From S2P Require Import Prelude.
#[local] Open Scope Z_scope.

(** ** The table *)

(** [dp[i][j]]. *)
Definition dp_get (dp : list (list Z)) (i j : nat) : option Z :=
  dp !! i ≫= (.!! j).

(** [dp[i][j] = x]. *)
Definition dp_set (dp : list (list Z)) (i j : nat) (x : Z) : option (list (list Z)) :=
  row ← dp !! i;
  if decide (j < length row)%nat then Some (<[i := <[j := x]> row]> dp) else None.

(** [a[i - 1u] != b[j - 1u]] as an [int]. *)
Definition differ (a b : list Z) (i j : nat) : option Z :=
  ai ← a !! (i - 1)%nat;
  bj ← b !! (j - 1)%nat;
  Some (if decide (ai ≠ bj) then 1 else 0).

(** The body of the inner loop. *)
Definition cell (a b : list Z) (dp : list (list Z)) (i j : nat) : option (list (list Z)) :=
  if decide (Nat.min i j = 0)%nat then dp_set dp i j 0
  else
    up ← dp_get dp (i - 1) j;
    left ← dp_get dp i (j - 1);
    dp ← dp_set dp i j (Z.min (up + 1) (left + 1));
    cur ← dp_get dp i j;
    diag ← dp_get dp (i - 1) (j - 1);
    c ← differ a b i j;
    dp_set dp i j (Z.min cur (diag + c)).

(** [for (uint32_t j = 0; j <= b.length(); ++j)]. *)
Definition inner_loop (a b : list Z) (dp : list (list Z)) (i : nat) : option (list (list Z)) :=
  foldl (λ acc j, dp ← acc; cell a b dp i j) (Some dp) (seq 0 (length b + 1)).

(** [for (uint32_t i = 0; i <= a.length(); ++i)]. *)
Definition outer_loop (a b : list Z) (dp : list (list Z)) : option (list (list Z)) :=
  foldl (λ acc i, dp ← acc; inner_loop a b dp i) (Some dp) (seq 0 (length a + 1)).

(** [int Dictionary::levenstein(std::string a, std::string b)]. *)
Definition levenstein (a b : list Z) : option Z :=
  dp ← outer_loop a b (replicate (length a + 1) (replicate (length b + 1) 0));
  dp_get dp (length a) (length b).

(** ** The recurrences *)

(** The cost of a substitution at the positions [i] and [j]. *)
Definition subst (a b : list Z) (i j : nat) : Z :=
  if decide (a !! i = b !! j) then 0 else 1.

(** What the loops compute for the prefixes of lengths [i] and [j]: zero
    when either is empty. *)
Fixpoint D (a b : list Z) (i : nat) : nat → Z :=
  match i with
  | O => λ _, 0
  | S i' =>
      fix inner (j : nat) : Z :=
        match j with
        | O => 0
        | S j' => Z.min (Z.min (D a b i' j + 1) (inner j' + 1)) (D a b i' j' + subst a b i' j')
        end
  end.

(** The edit distance: the length of the other when either is empty. *)
Fixpoint lev (a b : list Z) (i : nat) : nat → Z :=
  match i with
  | O => λ j, Z.of_nat j
  | S i' =>
      fix inner (j : nat) : Z :=
        match j with
        | O => Z.of_nat i
        | S j' => Z.min (Z.min (lev a b i' j + 1) (inner j' + 1)) (lev a b i' j' + subst a b i' j')
        end
  end.

(** ** The loops fill the table with [D] *)

Section Table.
Context (a b : list Z).
#[local] Abbreviation n := (length a).
#[local] Abbreviation m := (length b).

(** The table has [n + 1] rows of [m + 1] cells. *)
Definition dims (dp : list (list Z)) : Prop :=
  length dp = S n ∧ Forall (λ row, length row = S m) dp.

(** Every cell before [(i, j)] in the order of the loops holds its value
    of [D]. *)
Definition filled (dp : list (list Z)) (i j : nat) : Prop :=
  dims dp ∧
  ∀ i' j', (i' ≤ n)%nat → (j' ≤ m)%nat → (i' < i ∨ i' = i ∧ j' < j)%nat →
           dp_get dp i' j' = Some (D a b i' j').

Lemma dims_replicate : dims (replicate (n + 1) (replicate (m + 1) 0)).
Proof.
  split; [rewrite length_replicate; lia|]. apply Forall_replicate. rewrite length_replicate. lia.
Qed.

Lemma dp_set_spec dp i j x :
  dims dp → (i ≤ n)%nat → (j ≤ m)%nat →
  ∃ dp', dp_set dp i j x = Some dp' ∧ dims dp' ∧ dp_get dp' i j = Some x ∧
         ∀ i' j', (i', j') ≠ (i, j) → dp_get dp' i' j' = dp_get dp i' j'.
Proof.
  intros [Hl Hrows] Hi Hj. destruct (lookup_lt_is_Some_2 dp i) as [row Hrow]; [lia|].
  pose proof (Forall_lookup_1 _ _ _ _ Hrows Hrow) as Hlen. cbn in Hlen.
  unfold dp_set. rewrite Hrow. cbn. rewrite decide_True by lia. eexists. split; [done|].
  split_and!.
  - split; [by rewrite length_insert|]. apply Forall_insert; [done|]. by rewrite length_insert.
  - unfold dp_get. rewrite list_lookup_insert_eq by lia. cbn.
    apply list_lookup_insert_eq. lia.
  - intros i' j' Hne. unfold dp_get. destruct (decide (i = i')) as [<-|Hi'].
    + rewrite list_lookup_insert_eq by lia. rewrite Hrow. cbn.
      apply list_lookup_insert_ne. congruence.
    + by rewrite list_lookup_insert_ne.
Qed.

Lemma D_0_r i : D a b i 0 = 0.
Proof. by destruct i. Qed.

Lemma D_S i j :
  D a b (S i) (S j) =
  Z.min (Z.min (D a b i (S j) + 1) (D a b (S i) j + 1)) (D a b i j + subst a b i j).
Proof. done. Qed.

Lemma differ_subst i j :
  (i < n)%nat → (j < m)%nat → differ a b (S i) (S j) = Some (subst a b i j).
Proof.
  intros Hi Hj. destruct (lookup_lt_is_Some_2 a i Hi) as [x Hx].
  destruct (lookup_lt_is_Some_2 b j Hj) as [y Hy].
  unfold differ, subst. rewrite !Nat.sub_succ, !Nat.sub_0_r, Hx, Hy. cbn.
  repeat case_decide; congruence.
Qed.

Lemma cell_filled dp i j :
  filled dp i j → (i ≤ n)%nat → (j ≤ m)%nat →
  ∃ dp', cell a b dp i j = Some dp' ∧ filled dp' i (S j).
Proof.
  intros [Hd Hf] Hi Hj. unfold cell. case_decide as Hmin.
  - destruct (dp_set_spec dp i j 0 Hd Hi Hj) as (dp' & -> & Hd' & Hget & Hother).
    exists dp'. split; [done|]. split; [done|]. intros i' j' Hi' Hj' Hlt.
    destruct (decide ((i', j') = (i, j))) as [[= -> ->]|Hne].
    + rewrite Hget. f_equal. destruct i as [|i]; [done|]. destruct j as [|j]; [done|lia].
    + rewrite Hother by done. apply Hf; [done..|]. destruct Hlt as [?|[-> ?]]; [by left|].
      right. split; [done|]. assert (j' ≠ j) by congruence. lia.
  - destruct i as [|i], j as [|j]; try lia. cbn [Nat.sub]. rewrite !Nat.sub_0_r.
    rewrite (Hf i (S j)), (Hf (S i) j) by lia. cbn [mbind option_bind].
    destruct (dp_set_spec dp (S i) (S j) (Z.min (D a b i (S j) + 1) (D a b (S i) j + 1)) Hd Hi Hj)
      as (dp1 & -> & Hd1 & Hget1 & Hother1). cbn [mbind option_bind].
    rewrite Hget1, (Hother1 i j), (Hf i j), differ_subst by (lia || (intros [=]; lia)).
    cbn [mbind option_bind].
    destruct (dp_set_spec dp1 (S i) (S j)
                (Z.min (Z.min (D a b i (S j) + 1) (D a b (S i) j + 1)) (D a b i j + subst a b i j))
                Hd1 Hi Hj) as (dp2 & -> & Hd2 & Hget2 & Hother2).
    exists dp2. split; [done|]. split; [done|]. intros i' j' Hi' Hj' Hlt.
    destruct (decide ((i', j') = (S i, S j))) as [[= -> ->]|Hne]; [by rewrite Hget2, D_S|].
    rewrite Hother2, Hother1 by done. apply Hf; [done..|]. destruct Hlt as [?|[-> ?]]; [by left|].
    right. split; [done|]. assert (j' ≠ S j) by congruence. lia.
Qed.

Lemma inner_prefix dp i k :
  filled dp i 0 → (i ≤ n)%nat → (k ≤ m + 1)%nat →
  ∃ dp', foldl (λ acc j, dp ← acc; cell a b dp i j) (Some dp) (seq 0 k) = Some dp' ∧
         filled dp' i k.
Proof.
  intros Hf Hi. induction k as [|k IH]; intros Hk; [by exists dp|].
  destruct IH as (dp1 & E & Hf1); [lia|]. rewrite seq_S, foldl_app, E. cbn.
  apply cell_filled; [done|done|lia].
Qed.

Lemma filled_next_row dp i : filled dp i (S m) → filled dp (S i) 0.
Proof.
  intros [Hd Hf]. split; [done|]. intros i' j' Hi' Hj' Hlt. apply Hf; [done..|].
  destruct (decide (i' = i)) as [->|]; [right|left]; lia.
Qed.

Lemma inner_filled dp i :
  filled dp i 0 → (i ≤ n)%nat → ∃ dp', inner_loop a b dp i = Some dp' ∧ filled dp' (S i) 0.
Proof.
  intros Hf Hi. destruct (inner_prefix dp i (m + 1) Hf Hi) as (dp' & E & Hf'); [lia|].
  exists dp'. split; [done|]. apply filled_next_row. by rewrite Nat.add_1_r in Hf'.
Qed.

Lemma outer_prefix dp k :
  filled dp 0 0 → (k ≤ n + 1)%nat →
  ∃ dp', foldl (λ acc i, dp ← acc; inner_loop a b dp i) (Some dp) (seq 0 k) = Some dp' ∧
         filled dp' k 0.
Proof.
  intros Hf. induction k as [|k IH]; intros Hk; [by exists dp|].
  destruct IH as (dp1 & E & Hf1); [lia|]. rewrite seq_S, foldl_app, E. cbn.
  apply inner_filled; [done|lia].
Qed.

(** The loops return and leave [D] in every cell. *)
Lemma outer_loop_filled :
  ∃ dp, outer_loop a b (replicate (n + 1) (replicate (m + 1) 0)) = Some dp ∧
        filled dp (S n) 0.
Proof.
  destruct (outer_prefix (replicate (n + 1) (replicate (m + 1) 0)) (n + 1)) as (dp & E & Hf);
    [|lia|].
  - split; [apply dims_replicate|]. intros i' j' _ _ ?. lia.
  - exists dp. split; [done|]. by rewrite Nat.add_1_r in Hf.
Qed.

End Table.

(** ** Properties of the recurrences *)

Lemma subst_range a b i j : 0 ≤ subst a b i j ≤ 1.
Proof. unfold subst. case_decide; lia. Qed.

Lemma subst_sym a b i j : subst a b i j = subst b a j i.
Proof. unfold subst. repeat case_decide; congruence. Qed.

Lemma lev_S a b i j :
  lev a b (S i) (S j) =
  Z.min (Z.min (lev a b i (S j) + 1) (lev a b (S i) j + 1)) (lev a b i j + subst a b i j).
Proof. done. Qed.

Lemma lev_0_r a b i : lev a b i 0 = Z.of_nat i.
Proof. by destruct i. Qed.

Lemma subst_eq a b i j : a !! i = b !! j → subst a b i j = 0.
Proof. intros H. unfold subst. by rewrite decide_True. Qed.

Lemma D_range a b i j : 0 ≤ D a b i j ≤ Z.of_nat (Nat.min i j).
Proof.
  revert j. induction i as [|i IHi]; intros j; [cbn; lia|].
  induction j as [|j IHj]; [cbn; lia|]. rewrite D_S.
  pose proof (IHi j). pose proof (IHi (S j)). pose proof (subst_range a b i j). lia.
Qed.

Lemma D_le_lev a b i j : D a b i j ≤ lev a b i j.
Proof.
  revert j. induction i as [|i IHi]; intros j; [cbn; lia|].
  induction j as [|j IHj]; [cbn; lia|]. rewrite D_S, lev_S.
  pose proof (IHi j). pose proof (IHi (S j)). lia.
Qed.

Lemma D_sym a b i j : D a b i j = D b a j i.
Proof.
  revert j. induction i as [|i IHi]; intros j; [by rewrite D_0_r|].
  induction j as [|j IHj]; [done|]. rewrite !D_S, IHj, !IHi, (subst_sym a b). lia.
Qed.

(** Along a diagonal on which the strings agree the value does not grow. *)
Lemma D_diagonal a b i j k :
  (∀ t, (t < k)%nat → a !! (i + t)%nat = b !! (j + t)%nat) →
  D a b (i + k) (j + k) ≤ D a b i j.
Proof.
  induction k as [|k IH]; intros Heq; [rewrite !Nat.add_0_r; lia|].
  rewrite !Nat.add_succ_r, D_S.
  rewrite (subst_eq a b (i + k) (j + k)) by (apply Heq; lia).
  specialize (IH (λ t Ht, Heq t (Nat.lt_lt_succ_r _ _ Ht))). lia.
Qed.

(** The value [levenstein] returns. *)
Lemma levenstein_eq a b : levenstein a b = Some (D a b (length a) (length b)).
Proof.
  unfold levenstein. destruct (outer_loop_filled a b) as (dp & -> & _ & Hf). cbn.
  apply Hf; lia.
Qed.

(** ** Claims *)

(** [C18] The loops of [levenstein] never leave the table or the strings,
    and return the value of the recurrence [D] at the lengths of the two
    strings. *)
Theorem levenstein_D a b : levenstein a b = Some (D a b (length a) (length b)).
Proof. apply levenstein_eq. Qed.

(** The result lies between 0 and the length of the shorter string:
    the [int] arithmetic does not overflow for strings shorter than 2^31. *)
Theorem levenstein_range a b :
  ∃ d, levenstein a b = Some d ∧ 0 ≤ d ≤ Z.of_nat (Nat.min (length a) (length b)).
Proof. rewrite levenstein_eq. eexists. split; [done|]. apply D_range. Qed.

(** [C19] The base row and column of the table are zero, not the index: a
    prefix of the longer string costs nothing, so a string and any string
    it ends with are at distance 0. *)
Theorem levenstein_suffix p a : levenstein (p ++ a) a = Some 0.
Proof.
  rewrite levenstein_eq. f_equal. rewrite length_app.
  pose proof (D_range (p ++ a) a (length p + length a) (length a)).
  pose proof (D_diagonal (p ++ a) a (length p) 0 (length a)) as Hd. cbn [Nat.add] in Hd.
  rewrite D_0_r in Hd. enough (D (p ++ a) a (length p + length a) (length a) ≤ 0) by lia.
  apply Hd. intros t _. by rewrite lookup_app_r, Nat.add_comm, Nat.add_sub by lia.
Qed.

(** The result never exceeds the edit distance. *)
Theorem levenstein_le_lev a b :
  ∃ d, levenstein a b = Some d ∧ d ≤ lev a b (length a) (length b).
Proof. rewrite levenstein_eq. eexists. split; [done|]. apply D_le_lev. Qed.

(** The result does not depend on the order of the arguments. *)
Theorem levenstein_sym a b : levenstein a b = levenstein b a.
Proof. rewrite !levenstein_eq. f_equal. apply D_sym. Qed.

(** ** The example of the specification *)

Definition KITTEN : list Z := [75; 73; 84; 84; 69; 78].
Definition SITTING : list Z := [83; 73; 84; 84; 73; 78; 71].

(** The edit distance of the two words is 3. *)
Example lev_KITTEN_SITTING : lev KITTEN SITTING (length KITTEN) (length SITTING) = 3.
Proof. vm_compute. reflexivity. Qed.

(** What [levenstein] returns for them. *)
Example levenstein_KITTEN_SITTING : levenstein KITTEN SITTING = Some 3.
Proof. vm_compute. reflexivity. Qed.

(** The distance to the empty string is 0 where the edit distance is the
    length, and dropping the first letter costs nothing. *)
Example levenstein_of_empty :
  levenstein KITTEN [] = Some 0 ∧ lev KITTEN [] (length KITTEN) 0 = 6.
Proof. vm_compute. done. Qed.

Example levenstein_ITTEN :
  levenstein KITTEN [73; 84; 84; 69; 78] = Some 0 ∧ lev KITTEN [73; 84; 84; 69; 78] 6 5 = 1.
Proof. vm_compute. done. Qed.
