(* ===== verification/Crossword.v ===== *)
(** * The board of a crossword and its slots

    [crossword::loadWords] and [crossword::load] of [src/crossword.cpp].
    The header is not part of the sources: the constant [cyrillicA] and the
    predicate [isBox] on a cell are the class [BoardConstants]; [std::sort]
    with the comparator [position::sortHelp] is the interface [StdSort], a
    permutation that the comparator orders.  [N] and [M] are [char]s,
    signed here.  A pointer [&board[i][j]] is the pair of its indices.  The
    scanning loops, whose index the body advances, are defined by
    well-founded recursion on the distance to the end of the line.  [load]
    is modelled in two parts: the loops that ask for a path until a file
    opens ([load_path]), over the words typed at the prompt and the files
    that exist, and the reading of the grid ([load_grid]), over the bytes of
    the file.  What [load] prints is left out. *)

From stdpp Require Import list sorting.
From Equations Require Import Equations.
From S2P Require Import Prelude Normalizer.
#[local] Open Scope Z_scope.

(** ** Data *)

(** What the header fixes. *)
Class BoardConstants : Type := {
  cyrillicA : Z;
  isBox_uc : Z → bool
}.

(** An element of [position::letters]: [{ &board[i][j], id }]. *)
Record letter : Type := mkLetter {
  cell : nat * nat;
  id : Z
}.

(** [position]: the flag [hor] and the letters of the slot. *)
Record position : Type := mkPosition {
  hor : Z;
  letters : list letter
}.

(** The members of [crossword] the two functions use. *)
Record crossword : Type := mkCrossword {
  N : Z;
  M : Z;
  board : list (list Z);
  areas : list position
}.

#[global] Instance letter_eq_dec : EqDecision letter.
Proof. solve_decision. Defined.
#[global] Instance position_eq_dec : EqDecision position.
Proof. solve_decision. Defined.

(** [std::sort(first, last, position::sortHelp)]: some rearrangement in
    which no element is before one it must come after. *)
Class StdSort : Type := {
  sortHelp : position → position → bool;
  sort : list position → list position;
  sort_perm l : sort l ≡ₚ l;
  sort_sorted l : Sorted (λ x y, sortHelp y x = false) (sort l)
}.

(** ** Scanning a line *)

Section Line.
(** A line of [len] cells; [box j] is [isBox] at its cell [j], undefined
    outside the board. *)
Context (len : nat) (box : nat → option bool).

(** [for (; j < M && !isBox(i, j); ++j);] and its twin on columns: the
    index the loop stops at. *)
Equations? scan (j : nat) : option nat by wf (len - j)%nat lt :=
  scan j with decide (j < len)%nat := {
    | right _ => Some j
    | left _ with box j := {
        | None => None
        | Some true => Some j
        | Some false => scan (S j) } }.
Proof. lia. Qed.

Lemma scan_eq j :
  scan j = if decide (j < len)%nat
           then b ← box j; if (b : bool) then Some j else scan (S j)
           else Some j.
Proof.
  etrans; [apply scan_equation_1|].
  destruct (decide (j < len)%nat); simp scan; [|done]. destruct (box j) as [[]|]; by simp scan.
Qed.

Lemma scan_ge j j' : scan j = Some j' → (j ≤ j')%nat.
Proof.
  remember (len - j)%nat as k eqn:Hk. revert j Hk.
  induction k as [k IH] using lt_wf_ind. intros j -> . rewrite scan_eq.
  case_decide as Hlt; [|intros [= <-]; lia].
  destruct (box j) as [[]|]; cbn; [intros [= <-]; lia| |done].
  intros H. apply (IH (len - S j)%nat) in H; lia.
Qed.

(** The loop over a line, [for (int j = 0; j < M; ++j)] with its body:
    [mk start j] is the slot [newPos] the body builds for the run from
    [start] to [j]. *)
Equations? line_loop (mk : nat → nat → position) (j : nat) (areas : list position)
    : option (list position) by wf (len - j)%nat lt :=
  line_loop mk j areas with decide (j < len)%nat := {
    | right _ => Some areas
    | left _ with inspect (scan j) := {
        | exist _ None _ => None
        | exist _ (Some j') E with decide (j' - j ≤ 1)%nat := {
            | left _ => line_loop mk (S j') areas
            | right _ => line_loop mk (S j') (areas ++ [mk j j']) } } }.
Proof. all: apply scan_ge in E; lia. Qed.

Lemma line_loop_eq mk j areas :
  line_loop mk j areas =
  if decide (j < len)%nat
  then j' ← scan j;
       line_loop mk (S j') (if decide (j' - j ≤ 1)%nat then areas else areas ++ [mk j j'])
  else Some areas.
Proof.
  etrans; [apply line_loop_equation_1|].
  destruct (decide (j < len)%nat) as [Hlt|]; simp line_loop; [|done]. unfold inspect.
  generalize (@eq_refl _ (scan j)). generalize (scan j) at 2 4 5.
  intros [j'|] E; simp line_loop; [|done]. cbn. by case_decide; simp line_loop.
Qed.

(** ** What the loop over a line finds *)

(** The cells from [start] up to [stop] are a maximal run of open cells. *)
Definition is_run (start stop : nat) : Prop :=
  (start < stop ≤ len)%nat ∧ (∀ k, (start ≤ k < stop)%nat → box k = Some false) ∧
  (start = 0%nat ∨ box (start - 1)%nat = Some true) ∧ (stop = len ∨ box stop = Some true).

(** An index at which a run may start: the first cell, a cell after a
    box, or past the end. *)
Definition boundary (j : nat) : Prop :=
  j = 0%nat ∨ box (j - 1)%nat = Some true ∨ (len < j)%nat.

Lemma scan_spec j j' :
  (j ≤ len)%nat → scan j = Some j' →
  (j' ≤ len)%nat ∧ (∀ k, (j ≤ k < j')%nat → box k = Some false) ∧
  (j' = len ∨ box j' = Some true).
Proof.
  remember (len - j)%nat as d eqn:Hd. revert j Hd.
  induction d as [d IH] using lt_wf_ind. intros j -> Hj. rewrite scan_eq.
  case_decide as Hlt; [|intros [= <-]; split_and!; [lia|intros; lia|left; lia]].
  destruct (box j) as [[]|] eqn:Hb; cbn; [|intros H|done].
  - intros [= <-]. split_and!; [lia|intros; lia|by right].
  - destruct (IH (len - S j)%nat ltac:(lia) (S j) eq_refl ltac:(lia) H) as (? & Hopen & ?).
    split_and!; [done| |done]. intros k Hk. destruct (decide (k = j)) as [->|]; [done|].
    apply Hopen. lia.
Qed.

Lemma scan_defined j : (∀ k, (k < len)%nat → is_Some (box k)) → is_Some (scan j).
Proof.
  intros Hbox. remember (len - j)%nat as d eqn:Hd. revert j Hd.
  induction d as [d IH] using lt_wf_ind. intros j ->. rewrite scan_eq.
  case_decide as Hlt; [|by eexists]. destruct (Hbox j Hlt) as [[] ->]; cbn; [by eexists|].
  apply (IH (len - S j)%nat); lia.
Qed.

Lemma is_run_stop start stop stop' : is_run start stop → is_run start stop' → stop = stop'.
Proof.
  intros (? & Ho & _ & He) (? & Ho' & _ & He').
  destruct (Nat.lt_trichotomy stop stop') as [Hlt|[->|Hlt]]; [|done|].
  - destruct He as [->|He]; [lia|]. rewrite Ho' in He by lia. done.
  - destruct He' as [->|He']; [lia|]. rewrite Ho in He' by lia. done.
Qed.

(** The index after the one [scan] stops at is a boundary. *)
Lemma scan_boundary j j' : (j ≤ len)%nat → scan j = Some j' → boundary (S j').
Proof.
  intros Hj (_ & _ & Hend)%scan_spec; [|done].
  unfold boundary. rewrite Nat.sub_succ, Nat.sub_0_r. destruct Hend as [->|?]; auto with lia.
Qed.

(** From a boundary [scan] stops at the end of the run that starts there. *)
Lemma scan_run j j' : boundary j → (j < len)%nat → scan j = Some j' → (j < j')%nat → is_run j j'.
Proof.
  intros Hb Hj (Hle & Hopen & Hend)%scan_spec ?; [|lia].
  split; [lia|]. split; [done|]. split; [|done].
  destruct Hb as [->|[?|?]]; [by left|by right|lia].
Qed.

(** A run that starts at or after a boundary [j] is the run [scan] finds
    from [j], or starts after the index [scan] stops at. *)
Lemma scan_first j j' s e :
  boundary j → (j < len)%nat → scan j = Some j' → (j ≤ s)%nat → is_run s e →
  s = j ∧ e = j' ∧ (j < j')%nat ∨ (S j' ≤ s)%nat.
Proof.
  intros Hb Hj Hscan Hs Hr. destruct (decide (S j' ≤ s)%nat); [by right|left].
  pose proof (scan_ge _ _ Hscan). pose proof (scan_run j j' Hb Hj Hscan) as Hrun.
  destruct (scan_spec j j' ltac:(lia) Hscan) as (Hle & Hopen & Hend).
  pose proof Hr as (Hse & Ho & Hstart & Hstop).
  assert (s = j) as ->.
  { destruct (decide (s = j)) as [|Hne]; [done|]. exfalso.
    destruct Hstart as [->|Hstart]; [lia|].
    destruct (decide (s = j')) as [->|].
    - destruct Hend as [->|Hend]; [lia|]. rewrite Ho in Hend by lia. done.
    - rewrite Hopen in Hstart by lia. done. }
  assert (j < j')%nat.
  { destruct (decide (j < j')%nat); [done|]. assert (j' = j) as -> by lia.
    destruct Hend as [->|Hend]; [lia|]. rewrite Ho in Hend by lia. done. }
  split_and!; [done| |done]. apply (is_run_stop j); auto.
Qed.

(** From a boundary, the loop appends the maximal runs of at least two
    cells that start at or after it, in the order of their starts. *)
Lemma line_loop_spec mk j areas out :
  boundary j → line_loop mk j areas = Some out →
  ∃ rs, out = areas ++ ((λ r, mk r.1 r.2) <$> rs) ∧
        (∀ s e, (s, e) ∈ rs ↔ (j ≤ s)%nat ∧ is_run s e ∧ (2 ≤ e - s)%nat) ∧
        StronglySorted (λ r r', (r.2 < r'.1)%nat) rs.
Proof.
  remember (len - j)%nat as d eqn:Hd. revert j areas Hd.
  induction d as [d IH] using lt_wf_ind. intros j areas -> Hb. rewrite line_loop_eq.
  case_decide as Hlt.
  - destruct (scan j) as [j'|] eqn:Hscan; [|done]. cbn [mbind option_bind]. intros H.
    pose proof (scan_ge _ _ Hscan) as Hge.
    pose proof (scan_boundary j j' ltac:(lia) Hscan) as Hb'.
    apply (IH (len - S j')%nat ltac:(lia) (S j') _ eq_refl Hb') in H as (rs & -> & Hrs & Hsorted).
    pose proof (scan_run j j' Hb Hlt Hscan) as Hrun.
    pose proof (λ s e, scan_first j j' s e Hb Hlt Hscan) as Hfirst.
    case_decide as Hshort.
    + exists rs. split; [done|]. split; [|done]. intros s e. rewrite Hrs. split.
      * intros (? & ? & ?). split_and!; [lia|done..].
      * intros (Hs & Hr & Hl). destruct (Hfirst s e Hs Hr) as [(-> & -> & _)|?]; [lia|done].
    + exists ((j, j') :: rs). split; [by rewrite <- app_assoc|]. split.
      * intros s e. rewrite elem_of_cons, Hrs. split.
        -- intros [[= -> ->]|(? & ? & ?)]; [|split_and!; [lia|done..]].
           split_and!; [done| |lia]. apply Hrun. lia.
        -- intros (Hs & Hr & Hl). destruct (Hfirst s e Hs Hr) as [(-> & -> & _)|?]; [by left|by right].
      * constructor; [done|]. apply Forall_forall. intros [s e] Hin.
        apply Hrs in Hin as (? & ? & ?). cbn. lia.
  - intros [= <-]. exists []. split; [by rewrite app_nil_r|]. split; [|constructor].
    intros s e. rewrite elem_of_nil. split; [done|]. intros (? & ((? & ?) & _) & _). lia.
Qed.

(** Runs in the order of their starts are distinct. *)
Lemma runs_NoDup (rs : list (nat * nat)) :
  (∀ r, r ∈ rs → (r.1 < r.2)%nat) → StronglySorted (λ r r', (r.2 < r'.1)%nat) rs → NoDup rs.
Proof.
  intros Hlt. induction 1 as [|r rs _ IH Hr]; constructor.
  - intros Hin. rewrite Forall_forall in Hr. specialize (Hr r Hin).
    specialize (Hlt r ltac:(by left)). lia.
  - apply IH. intros r' ?. apply Hlt. by right.
Qed.

(** The loop returns when [isBox] is defined on the line. *)
Lemma line_loop_defined mk j areas :
  (∀ k, (k < len)%nat → is_Some (box k)) → is_Some (line_loop mk j areas).
Proof.
  intros Hbox. remember (len - j)%nat as d eqn:Hd. revert j areas Hd.
  induction d as [d IH] using lt_wf_ind. intros j areas ->. rewrite line_loop_eq.
  case_decide as Hlt; [|by eexists]. destruct (scan_defined j Hbox) as [j' Hscan].
  rewrite Hscan. cbn. pose proof (scan_ge _ _ Hscan). apply (IH (len - S j')%nat); lia.
Qed.

End Line.

(** ** A loop over lines *)

Section Lines.
Context (len : nat) (box : nat → nat → option bool) (mk : nat → nat → nat → position).

(** The body of the outer loop: the line [i] is scanned from its start. *)
Definition scan_line (acc : option (list position)) (i : nat) : option (list position) :=
  areas ← acc; line_loop len (box i) (mk i) 0 areas.

(** The slots of the first [n] lines. *)
Definition slot_of (n : nat) (p : position) : Prop :=
  ∃ i s e, (i < n)%nat ∧ is_run len (box i) s e ∧ (2 ≤ e - s)%nat ∧ p = mk i s e.

(** The slots of two runs are two slots. *)
Definition mk_inj : Prop :=
  ∀ i s e i' s' e', (s < e)%nat → (s' < e')%nat → mk i s e = mk i' s' e' → i = i' ∧ s = s' ∧ e = e'.

Lemma foldl_scan_line_None l : foldl scan_line None l = None.
Proof. by induction l. Qed.

Lemma lines_loop_spec n acc out :
  foldl scan_line (Some acc) (seq 0 n) = Some out →
  ∃ new, out = acc ++ new ∧ (∀ p, p ∈ new ↔ slot_of n p) ∧ (mk_inj → NoDup new).
Proof.
  revert out. induction n as [|n IH]; intros out.
  - intros [= <-]. exists []. split; [by rewrite app_nil_r|]. split; [|constructor].
    intros p. rewrite elem_of_nil. split; [done|]. intros (i & ? & ? & ? & _). lia.
  - rewrite seq_S, foldl_app. cbn [foldl Nat.add].
    destruct (foldl scan_line (Some acc) (seq 0 n)) as [mid|]; [|done].
    destruct (IH mid eq_refl) as (new & -> & Hnew & Hdup). cbn [scan_line mbind option_bind].
    intros (rs & -> & Hrs & Hsorted)%line_loop_spec; [|by left].
    exists (new ++ ((λ r, mk n r.1 r.2) <$> rs)). split; [by rewrite app_assoc|]. split.
    + intros p. rewrite elem_of_app, Hnew, list_elem_of_fmap. split.
      * intros [(i & s & e & ? & ? & ? & ->)|([s e] & -> & (_ & ? & ?)%Hrs)];
          [exists i, s, e|exists n, s, e]; split_and!; (done || lia).
      * intros (i & s & e & Hi & Hr & Hl & ->). destruct (decide (i = n)) as [->|].
        -- right. exists (s, e). split; [done|]. apply Hrs. split_and!; [lia|done..].
        -- left. exists i, s, e. split_and!; [lia|done..].
    + intros Hinj. assert (∀ r, r ∈ rs → (r.1 < r.2)%nat) as Hlt.
      { intros [s e] (_ & _ & ?)%Hrs. cbn. lia. }
      apply NoDup_app. split_and!; [by apply Hdup| |].
      * intros p (i & s & e & Hi & _ & ? & ->)%Hnew ([s' e'] & E & Hin)%list_elem_of_fmap.
        apply Hlt in Hin. cbn in *. apply Hinj in E as (-> & _); lia.
      * apply NoDup_fmap_2_strong; [|by apply runs_NoDup].
        intros [s e] [s' e'] Hin Hin' E. apply Hlt in Hin, Hin'. cbn in *.
        by apply Hinj in E as (_ & -> & ->).
Qed.

Lemma lines_loop_defined n acc :
  (∀ i k, (i < n)%nat → (k < len)%nat → is_Some (box i k)) →
  is_Some (foldl scan_line (Some acc) (seq 0 n)).
Proof.
  intros Hbox. induction n as [|n IH]; [by eexists|].
  rewrite seq_S, foldl_app. destruct IH as [mid ->]; [by auto|]. cbn.
  apply line_loop_defined. auto.
Qed.

End Lines.

(** ** [loadWords] *)

Section Crossword.
Context `{BC : BoardConstants} `{SS : StdSort}.

(** [isBox(i, j)]: the predicate of the header on [board[i][j]]. *)
Definition isBox (cw : crossword) (i j : nat) : option bool :=
  c ← board cw !! i ≫= (.!! j); Some (isBox_uc c).

(** The slot of a row: [newPos.hor = 1] and the loop
    [for (; start < j; ++start)] that pushes
    [{ &board[i][start], i*M + start }]. *)
Definition horizontal (cw : crossword) (i start j : nat) : position :=
  mkPosition 1 ((λ k, mkLetter (i, k) (Z.of_nat i * M cw + Z.of_nat k)) <$> seq start (j - start)).

(** The slot of a column: [newPos.hor = 0] and
    [{ &board[start][j], start*M + j }]. *)
Definition vertical (cw : crossword) (j start i : nat) : position :=
  mkPosition 0 ((λ k, mkLetter (k, j) (Z.of_nat k * M cw + Z.of_nat j)) <$> seq start (i - start)).

(** The first pair of loops, over the rows. *)
Definition rows_loop (cw : crossword) (areas : list position) : option (list position) :=
  foldl (scan_line (Z.to_nat (M cw)) (isBox cw) (horizontal cw))
        (Some areas) (seq 0 (Z.to_nat (N cw))).

(** The second pair of loops, over the columns. *)
Definition columns_loop (cw : crossword) (areas : list position) : option (list position) :=
  foldl (scan_line (Z.to_nat (N cw)) (λ j i, isBox cw i j) (vertical cw))
        (Some areas) (seq 0 (Z.to_nat (M cw))).

(** [void crossword::loadWords()]. *)
Definition loadWords (cw : crossword) : option crossword :=
  areas ← rows_loop cw [];
  areas ← columns_loop cw areas;
  Some (mkCrossword (N cw) (M cw) (board cw) (sort areas)).

(** ** Reading the grid *)

(** The value of a [char] that holds the byte [c]. *)
Definition to_char (c : Z) : Z := if decide (c < 128) then c else c - 256.

(** [fin.get(c)]: the next byte, [None] at the end of the file. *)
Definition get (content : list Z) : option (Z * list Z) :=
  match content with
  | c :: rest => Some (c, rest)
  | [] => None
  end.

(** [board[i][j] = uc(c); if (uc(board[i][j] + 64) >= cyrillicA) board[i][j] += 64;]. *)
Definition remap (c : Z) : Z :=
  if decide (cyrillicA ≤ wrap8 (c + 64)) then wrap8 (c + 64) else c.

(** The first pair of loops of [load] after the dimensions are read:
    a row is pushed at the end of the board, and ['0'] is pushed [M] times
    on the row at index [i]. *)
Definition push_rows (n m : nat) (board : list (list Z)) : option (list (list Z)) :=
  foldl (λ acc i, b ← acc;
                  let b := b ++ [[]] in
                  row ← b !! i;
                  Some (<[i := row ++ replicate m 48]> b))
        (Some board) (seq 0 n).

(** The body of the loops that read the cells: [char c] is not
    initialised, so reading past the end of the file is undefined. *)
Definition read_cell (i : nat) (acc : option (list (list Z) * list Z)) (j : nat)
  : option (list (list Z) * list Z) :=
  '(b, content) ← acc;
  '(c, content) ← get content;
  row ← b !! i;
  if decide (j < length row)%nat
  then Some (<[i := <[j := remap c]> row]> b, content)
  else None.

(** [for (int j = 0; j < M; j++)] around it. *)
Definition read_row (m : nat) (acc : option (list (list Z) * list Z)) (i : nat)
  : option (list (list Z) * list Z) :=
  foldl (read_cell i) acc (seq 0 m).

(** [void crossword::load(string path)] from [fin.get(N)] on, for the
    content of the file that was opened: at the end of the file [get]
    leaves [N] or [M] as it was. *)
Definition load_grid (content : list Z) (cw : crossword) : option crossword :=
  let '(n, content) := from_option (λ r, (to_char r.1, r.2)) (N cw, content) (get content) in
  let '(m, content) := from_option (λ r, (to_char r.1, r.2)) (M cw, content) (get content) in
  b ← push_rows (Z.to_nat n) (Z.to_nat m) (board cw);
  '(b, _) ← foldl (read_row (Z.to_nat m)) (Some (b, content)) (seq 0 (Z.to_nat n));
  loadWords (mkCrossword n m b (areas cw)).

End Crossword.

(** ** The slots of a board *)

Section Slots.
Context `{BC : BoardConstants} `{SS : StdSort}.

(** The board holds the [N] rows of [M] cells the loops visit. *)
Definition covers (cw : crossword) : Prop :=
  ∀ i j, (i < Z.to_nat (N cw))%nat → (j < Z.to_nat (M cw))%nat → is_Some (isBox cw i j).

(** A maximal run of at least two open cells of a row, as a slot. *)
Definition hslot (cw : crossword) (p : position) : Prop :=
  slot_of (Z.to_nat (M cw)) (isBox cw) (horizontal cw) (Z.to_nat (N cw)) p.

(** The same in a column. *)
Definition vslot (cw : crossword) (p : position) : Prop :=
  slot_of (Z.to_nat (N cw)) (λ j i, isBox cw i j) (vertical cw) (Z.to_nat (M cw)) p.

(** [*letter.first]: the character of the cell a letter points to. *)
Definition deref (cw : crossword) (l : letter) : option Z :=
  row ← board cw !! (cell l).1; row !! (cell l).2.

(** [*letter.first = c]: the assignment through the pointer of a letter. *)
Definition assign (cw : crossword) (l : letter) (c : Z) : crossword :=
  mkCrossword (N cw) (M cw) (alter (<[(cell l).2 := c]>) (cell l).1 (board cw)) (areas cw).

Lemma seq_inj s e s' e' : (s < e)%nat → seq s (e - s) = seq s' (e' - s') → s = s' ∧ e = e'.
Proof.
  intros Hlt E. pose proof (f_equal length E) as Hl. rewrite !length_seq in Hl.
  destruct (e - s)%nat as [|k] eqn:Hk; [lia|]. destruct (e' - s')%nat eqn:Hk'; [done|].
  injection E as -> _. lia.
Qed.

Lemma horizontal_inj cw : mk_inj (horizontal cw).
Proof.
  intros i s e i' s' e' Hlt _ [= E]. pose proof (f_equal (fmap (snd ∘ cell)) E) as Hc.
  rewrite <- !list_fmap_compose, !list_fmap_id in Hc. apply seq_inj in Hc as [-> ->]; [|done].
  split; [|done]. destruct (e' - s')%nat eqn:?; [lia|]. by injection E.
Qed.

Lemma vertical_inj cw : mk_inj (vertical cw).
Proof.
  intros i s e i' s' e' Hlt _ [= E]. pose proof (f_equal (fmap (fst ∘ cell)) E) as Hc.
  rewrite <- !list_fmap_compose, !list_fmap_id in Hc. apply seq_inj in Hc as [-> ->]; [|done].
  split; [|done]. destruct (e' - s')%nat eqn:?; [lia|]. by injection E.
Qed.

Lemma loadWords_inv cw cw' :
  loadWords cw = Some cw' →
  N cw' = N cw ∧ M cw' = M cw ∧ board cw' = board cw ∧
  ∃ hs vs, areas cw' = sort (hs ++ vs) ∧ NoDup (hs ++ vs) ∧
           (∀ p, p ∈ hs ↔ hslot cw p) ∧ (∀ p, p ∈ vs ↔ vslot cw p).
Proof.
  unfold loadWords, rows_loop, columns_loop.
  destruct (foldl _ (Some []) _) as [hs|] eqn:Eh; [|done]. cbn [mbind option_bind].
  destruct (foldl _ (Some hs) _) as [all|] eqn:Ev; [|done]. cbn. intros [= <-]. cbn.
  apply lines_loop_spec in Eh as (hs' & -> & Hh & Hdh).
  apply lines_loop_spec in Ev as (vs & -> & Hv & Hdv).
  split_and!; [done..|]. exists hs', vs. split_and!; [done| |done..].
  apply NoDup_app. split_and!; [apply Hdh, horizontal_inj| |apply Hdv, vertical_inj].
  intros p (? & ? & ? & _ & _ & _ & ->)%Hh (? & ? & ? & _ & _ & _ & [=])%Hv.
Qed.

Lemma scan_open len box j :
  (j ≤ len)%nat → (∀ k, (j ≤ k < len)%nat → box k = Some false) → scan len box j = Some len.
Proof.
  intros Hj Hopen. remember (len - j)%nat as d eqn:Hd. revert j Hd Hj Hopen.
  induction d as [d IH] using lt_wf_ind. intros j -> Hj Hopen. rewrite scan_eq.
  case_decide; [|f_equal; lia]. rewrite Hopen by lia. cbn.
  apply (IH (len - S j)%nat); [lia|done|lia|]. intros k Hk. apply Hopen. lia.
Qed.

(** A line of at most one cell holds no slot. *)
Lemma line_loop_short len box mk areas :
  (len ≤ 1)%nat → (∀ k, (k < len)%nat → is_Some (box k)) →
  line_loop len box mk 0 areas = Some areas.
Proof.
  intros Hlen Hbox. rewrite line_loop_eq. case_decide; [|done].
  destruct (scan_defined len box 0 Hbox) as [j' Hj']. rewrite Hj'. cbn.
  destruct (scan_spec len box 0 j' ltac:(lia) Hj') as (? & _). rewrite decide_True by lia.
  rewrite line_loop_eq. by rewrite decide_False by lia.
Qed.

(** A line of open cells, two at least, is one slot. *)
Lemma line_loop_open len box mk areas :
  (2 ≤ len)%nat → (∀ k, (k < len)%nat → box k = Some false) →
  line_loop len box mk 0 areas = Some (areas ++ [mk 0%nat len]).
Proof.
  intros Hlen Hopen. rewrite line_loop_eq, decide_True by lia.
  rewrite scan_open by (lia || (intros; apply Hopen; lia)). cbn.
  rewrite decide_False by lia. rewrite line_loop_eq. by rewrite decide_False by lia.
Qed.

Lemma foldl_scan_line_short len box mk n areas :
  (len ≤ 1)%nat → (∀ i k, (i < n)%nat → (k < len)%nat → is_Some (box i k)) →
  foldl (scan_line len box mk) (Some areas) (seq 0 n) = Some areas.
Proof.
  intros Hlen Hbox. induction n as [|n IH]; [done|].
  rewrite seq_S, foldl_app, IH by auto. cbn. apply line_loop_short; auto.
Qed.

Lemma sort_nil : sort [] = [].
Proof. apply Permutation_nil_r, sort_perm. Qed.

Lemma sort_singleton p : sort [p] = [p].
Proof. apply Permutation_singleton_r, sort_perm. Qed.

(** [loadWords] returns on a board that holds the cells the loops visit. *)
Lemma loadWords_defined cw : covers cw → is_Some (loadWords cw).
Proof.
  intros Hc. unfold loadWords, rows_loop, columns_loop.
  destruct (lines_loop_defined (Z.to_nat (M cw)) (isBox cw) (horizontal cw) (Z.to_nat (N cw)) [])
    as [hs ->]; [by auto|]. cbn [mbind option_bind].
  destruct (lines_loop_defined (Z.to_nat (N cw)) (λ j i, isBox cw i j) (vertical cw)
              (Z.to_nat (M cw)) hs) as [all ->]; [by auto|]. by eexists.
Qed.

(** The slots of the board: what is in [areas] after [loadWords]. *)
Lemma elem_of_areas cw cw' p :
  loadWords cw = Some cw' → p ∈ areas cw' ↔ hslot cw p ∨ vslot cw p.
Proof.
  intros (_ & _ & _ & hs & vs & -> & _ & Hh & Hv)%loadWords_inv.
  by rewrite sort_perm, elem_of_app, Hh, Hv.
Qed.

(** The letters of a slot: their number, their identifiers, and their
    cells, which are open cells of the column range of the board. *)
Lemma slot_letters cw cw' p :
  loadWords cw = Some cw' → p ∈ areas cw' →
  (2 ≤ length (letters p))%nat ∧
  Forall (λ l, id l = Z.of_nat (cell l).1 * M cw + Z.of_nat (cell l).2 ∧
               ((cell l).2 < Z.to_nat (M cw))%nat ∧
               isBox cw (cell l).1 (cell l).2 = Some false) (letters p).
Proof.
  intros H [Hp|Hp]%(elem_of_areas _ _ _ H);
    destruct Hp as (i & s & e & Hi & (Hse & Hopen & _) & Hlen & ->); cbn;
    rewrite length_fmap, length_seq; (split; [done|]);
    apply Forall_fmap, Forall_forall; intros k Hk%elem_of_seq; cbn;
    (split_and!; [done|lia|apply Hopen; lia]).
Qed.

(** The row-major index of a cell of a row of [m] cells determines the
    cell. *)
Lemma row_major_inj (m : Z) (i j i' j' : nat) :
  (j < Z.to_nat m)%nat → (j' < Z.to_nat m)%nat →
  Z.of_nat i * m + Z.of_nat j = Z.of_nat i' * m + Z.of_nat j' → (i, j) = (i', j').
Proof.
  intros Hj Hj' Hid.
  assert (0 ≤ Z.of_nat j < m ∧ 0 ≤ Z.of_nat j' < m) as [? ?] by lia.
  assert (Z.of_nat i = Z.of_nat i') by nia. f_equal; nia.
Qed.

(** Two letters of slots with the same identifier are the same cell, an
    open cell of the board. *)
Lemma letters_same_cell cw cw' p q l l' :
  loadWords cw = Some cw' → p ∈ areas cw' → q ∈ areas cw' →
  l ∈ letters p → l' ∈ letters q → id l = id l' →
  cell l = cell l' ∧ isBox cw (cell l).1 (cell l).2 = Some false.
Proof.
  intros H [_ Hp]%(slot_letters _ _ _ H) [_ Hq]%(slot_letters _ _ _ H) Hl Hl'.
  rewrite Forall_forall in Hp, Hq.
  destruct (Hp l Hl) as (-> & ? & ?), (Hq l' Hl') as (-> & ? & _).
  destruct (cell l) as [i j], (cell l') as [i' j']. cbn in *.
  intros E%row_major_inj; done.
Qed.

(** Letters of slots at one cell have one identifier. *)
Lemma loadWords_ids_cell cw cw' p q l l' :
  loadWords cw = Some cw' → p ∈ areas cw' → q ∈ areas cw' →
  l ∈ letters p → l' ∈ letters q → cell l = cell l' → id l = id l'.
Proof.
  intros H Hp Hq Hl Hl'.
  destruct (slot_letters _ _ _ H Hp) as [_ Hfp], (slot_letters _ _ _ H Hq) as [_ Hfq].
  rewrite Forall_forall in Hfp, Hfq.
  destruct (Hfp l Hl) as (-> & _), (Hfq l' Hl') as (-> & _). by intros ->.
Qed.

(** ** Claims on the slots *)

(** [C7] The slots [loadWords] leaves are exactly the maximal runs of at
    least two open cells of the rows and of the columns. *)
Theorem loadWords_slots cw cw' p :
  loadWords cw = Some cw' → p ∈ areas cw' ↔ hslot cw p ∨ vslot cw p.
Proof. apply elem_of_areas. Qed.

(** [C34] Each slot is in [areas] once. *)
Theorem loadWords_NoDup cw cw' : loadWords cw = Some cw' → NoDup (areas cw').
Proof. intros (_ & _ & _ & hs & vs & -> & ? & _)%loadWords_inv. by rewrite sort_perm. Qed.

(** [C20] [loadWords] returns, without reading outside the board, whenever
    the board holds [N] rows of [M] cells; the dimensions and the board are
    unchanged and the slots are in the order of the comparator. *)
Theorem loadWords_total cw :
  covers cw →
  ∃ cw', loadWords cw = Some cw' ∧ N cw' = N cw ∧ M cw' = M cw ∧ board cw' = board cw ∧
         Sorted (λ x y, sortHelp y x = false) (areas cw').
Proof.
  intros [cw' H]%loadWords_defined. exists cw'. split; [done|].
  destruct (loadWords_inv _ _ H) as (? & ? & ? & hs & vs & -> & _). split_and!; [done..|].
  apply sort_sorted.
Qed.

(** A slot has at least two letters, its cells are open cells of the
    board next to each other in a row or in a column, and the identifier
    of a letter is its row-major index [i*M + j]. *)
Theorem loadWords_letters cw cw' p :
  loadWords cw = Some cw' → p ∈ areas cw' →
  (2 ≤ length (letters p))%nat ∧
  Forall (λ l, id l = Z.of_nat (cell l).1 * M cw + Z.of_nat (cell l).2 ∧
               isBox cw (cell l).1 (cell l).2 = Some false) (letters p).
Proof.
  intros H Hp. destruct (slot_letters _ _ _ H Hp) as [? Hl]. split; [done|].
  eapply Forall_impl; [exact Hl|]. by intros l (? & _ & ?).
Qed.

(** [C32] The identifiers recognise the cell two slots share: two letters
    of the slots of a board have the same identifier exactly when they
    are the same cell. *)
Theorem loadWords_ids cw cw' p q l l' :
  loadWords cw = Some cw' → p ∈ areas cw' → q ∈ areas cw' →
  l ∈ letters p → l' ∈ letters q → id l = id l' ↔ cell l = cell l'.
Proof.
  intros H Hp Hq Hl Hl'. split; [by intros [? _]%(letters_same_cell cw cw' p q)|].
  by apply (loadWords_ids_cell cw cw' p q).
Qed.

(** [C33] Slots refer to the cells of the board, they do not own them: a
    character assigned through a letter of one slot is the character read
    through the letter with the same identifier of any other slot, and
    the letters of other cells read what they read before. *)
Theorem letters_alias cw cw' p q l l' c :
  loadWords cw = Some cw' → p ∈ areas cw' → q ∈ areas cw' →
  l ∈ letters p → l' ∈ letters q →
  deref (assign cw' l c) l' = if decide (id l = id l') then Some c else deref cw' l'.
Proof.
  intros H Hp Hq Hl Hl'. case_decide as Hid.
  - destruct (letters_same_cell _ _ _ _ _ _ H Hp Hq Hl Hl' Hid) as [E Hopen].
    destruct (loadWords_inv _ _ H) as (_ & _ & Hb & _). unfold isBox in Hopen.
    unfold deref, assign. cbn. rewrite <- E, Hb.
    destruct (board cw !! (cell l).1) as [row|] eqn:Hrow; [|done]. cbn in Hopen.
    destruct (row !! (cell l).2) as [c0|] eqn:Hc; [|done].
    rewrite list_lookup_alter_eq, Hrow. cbn. apply list_lookup_insert_eq. by eapply lookup_lt_Some.
  - assert (cell l ≠ cell l') as Hne.
    { intros E. apply Hid. by apply (loadWords_ids_cell cw cw' p q). }
    unfold deref, assign. cbn. destruct (decide ((cell l).1 = (cell l').1)) as [E|].
    + rewrite <- E, list_lookup_alter_eq. destruct (board cw' !! (cell l).1); [|done]. cbn.
      apply list_lookup_insert_ne. intros E'. apply Hne. by apply injective_projections.
    + by rewrite list_lookup_alter_ne.
Qed.

(** A grid of one cell has no slot. *)
Theorem loadWords_single_cell cw cw' :
  N cw = 1 → M cw = 1 → covers cw → loadWords cw = Some cw' → areas cw' = [].
Proof.
  intros HN HM Hc. unfold loadWords, rows_loop, columns_loop.
  rewrite foldl_scan_line_short; [|lia|intros; apply Hc; lia]. cbn [mbind option_bind].
  rewrite foldl_scan_line_short; [|lia|intros; apply Hc; lia]. cbn.
  intros [= <-]. apply sort_nil.
Qed.

(** [C38] A grid of one row of [M] open cells, two at least, has one slot:
    the row. *)
Theorem loadWords_single_row cw cw' :
  N cw = 1 → 2 ≤ M cw → covers cw →
  (∀ j, (j < Z.to_nat (M cw))%nat → isBox cw 0 j = Some false) →
  loadWords cw = Some cw' → areas cw' = [horizontal cw 0 0 (Z.to_nat (M cw))].
Proof.
  intros HN HM Hc Hopen. unfold loadWords, rows_loop, columns_loop.
  rewrite HN. change (Z.to_nat 1) with 1%nat. cbn [seq foldl scan_line mbind option_bind].
  rewrite line_loop_open by (lia || done). cbn [mbind option_bind app].
  rewrite foldl_scan_line_short; [|lia|intros i k ? ?; apply Hc; lia]. cbn.
  intros [= <-]. apply sort_singleton.
Qed.

End Slots.

(** ** The grid file *)

Section Grid.
Context `{BC : BoardConstants} `{SS : StdSort}.

Lemma to_char_small c : 0 ≤ c < 128 → to_char c = c.
Proof. intros. unfold to_char. by rewrite decide_True by lia. Qed.

Lemma to_char_large c : 128 ≤ c < 256 → to_char c = c - 256.
Proof. intros. unfold to_char. by rewrite decide_False by lia. Qed.

(** The loop that allocates the rows, on any board: one row is added per
    iteration, whatever the board held. *)
Lemma push_rows_prefix k m board :
  ∃ b, push_rows k m board = Some b ∧
       length b = (length board + k)%nat ∧
       (board = [] → b = replicate k (replicate m 48)).
Proof.
  unfold push_rows. induction k as [|k (b & E & Hl & Hfresh)].
  - exists board. split_and!; [done|cbn; lia|by intros ->].
  - rewrite seq_S, foldl_app, E. cbn.
    destruct (lookup_lt_is_Some_2 (b ++ [[]]) k) as [row Hrow]; [rewrite length_app; cbn; lia|].
    rewrite Hrow. cbn. eexists. split; [done|]. split.
    + rewrite length_insert, length_app. cbn. lia.
    + intros Hb. specialize (Hfresh Hb). subst b board. cbn in Hl.
      rewrite lookup_app_r, length_replicate, Nat.sub_diag in Hrow by by rewrite length_replicate.
      cbn in Hrow. injection Hrow as <-.
      rewrite insert_app_r_alt, length_replicate, Nat.sub_diag by by rewrite length_replicate.
      cbn. by rewrite replicate_cons_app.
Qed.

Lemma push_rows_fresh n m : push_rows n m [] = Some (replicate n (replicate m 48)).
Proof. destruct (push_rows_prefix n m []) as (b & E & _ & Hb). by rewrite E, Hb. Qed.

(** The cells of a row, read into the row at index [i] from its cell
    [j0] on. *)
Lemma read_cells i vals rest b r j0 :
  b !! i = Some r → (j0 + length vals ≤ length r)%nat →
  foldl (read_cell i) (Some (b, vals ++ rest)) (seq j0 (length vals)) =
  Some (<[i := take j0 r ++ (remap <$> vals) ++ drop (j0 + length vals) r]> b, rest).
Proof.
  revert b r j0. induction vals as [|v vals IH]; intros b r j0 Hr Hlen; cbn [length seq foldl].
  - cbn. by rewrite Nat.add_0_r, take_drop, list_insert_id.
  - cbn [app read_cell mbind option_bind get]. rewrite Hr. cbn [mbind option_bind].
    cbn [length] in Hlen. rewrite decide_True by lia.
    rewrite (IH _ (<[j0 := remap v]> r)); [|apply list_lookup_insert_eq; by eapply lookup_lt_Some
                                           |rewrite length_insert; lia].
    rewrite list_insert_insert_eq. do 2 f_equal.
    rewrite (take_S_r _ _ (remap v)) by (apply list_lookup_insert_eq; lia).
    rewrite take_insert_ge, drop_insert_lt, <- app_assoc, Nat.add_succ_r by lia. done.
Qed.

(** The rows of a file, read into rows of [m] cells from the row [i0]
    on. *)
Lemma read_rows m (rows : list (list Z)) rest b i0 :
  Forall (λ r, length r = m) rows →
  (∀ i, (i0 ≤ i < i0 + length rows)%nat → ∃ r, b !! i = Some r ∧ length r = m) →
  foldl (read_row m) (Some (b, mjoin rows ++ rest)) (seq i0 (length rows)) =
  Some (take i0 b ++ (fmap (M := list) remap <$> rows) ++ drop (i0 + length rows) b, rest).
Proof.
  intros Hrows. revert b i0.
  induction Hrows as [|vals rows Hvals _ IH]; intros b i0 Hb; cbn [length seq foldl].
  - cbn. by rewrite Nat.add_0_r, take_drop.
  - destruct (Hb i0) as (r & Hr & Hlen); [cbn; lia|].
    unfold read_row at 2. cbn [mjoin list_join]. rewrite <- app_assoc, <- Hvals.
    rewrite (read_cells _ _ _ _ r) by (done || lia).
    rewrite Hvals, IH.
    + cbn [take app]. rewrite drop_ge, app_nil_r by lia.
      rewrite (take_S_r _ _ (remap <$> vals)) by (apply list_lookup_insert_eq; by eapply lookup_lt_Some).
      rewrite take_insert_ge, drop_insert_lt, <- app_assoc by lia. cbn.
      by rewrite Nat.add_succ_r.
    + intros i Hi. rewrite list_lookup_insert_ne by lia. apply Hb. cbn. lia.
Qed.

(** A file that ends inside the grid: the read of a cell is undefined. *)
Lemma read_cell_eof i b j : read_cell i (Some (b, [])) j = None.
Proof. done. Qed.

Lemma foldl_read_cell_None i js : foldl (read_cell i) None js = None.
Proof. by induction js. Qed.

Lemma foldl_read_row_None m idx : foldl (read_row m) None idx = None.
Proof. induction idx as [|i idx IH]; [done|]. cbn. unfold read_row at 2. by rewrite foldl_read_cell_None. Qed.

(** A loop over [seq a k] whose body keeps the board's length and
    consumes [c] bytes of the file. *)
Lemma foldl_seq_inv (f : option (list (list Z) * list Z) → nat → option (list (list Z) * list Z)) c :
  (∀ js, foldl f None js = None) →
  (∀ s j s', f (Some s) j = Some s' →
             length s'.1 = length s.1 ∧ length s.2 = (c + length s'.2)%nat) →
  ∀ k a s s', foldl f (Some s) (seq a k) = Some s' →
              length s'.1 = length s.1 ∧ length s.2 = (k * c + length s'.2)%nat.
Proof.
  intros Hnone Hf. induction k as [|k IH]; intros a s s'; cbn [seq foldl].
  - by intros [= ->].
  - destruct (f (Some s) a) as [s1|] eqn:E; [|by rewrite Hnone].
    intros [? ?]%IH. destruct (Hf _ _ _ E) as [? ?]. split; lia.
Qed.

Lemma read_cell_inv i s j s' :
  read_cell i (Some s) j = Some s' →
  length s'.1 = length s.1 ∧ length s.2 = (1 + length s'.2)%nat.
Proof.
  destruct s as [b [|c content]]; [done|]. cbn.
  destruct (b !! i) as [row|]; [|done]. cbn. case_decide; [|done].
  intros [= <-]. cbn. by rewrite length_insert.
Qed.

Lemma read_rows_inv m n b content s' :
  foldl (read_row m) (Some (b, content)) (seq 0 n) = Some s' →
  length s'.1 = length b ∧ length content = (n * m + length s'.2)%nat.
Proof.
  apply (foldl_seq_inv (read_row m) m (foldl_read_row_None m)). intros s j s1 H.
  apply (foldl_seq_inv (read_cell j) 1 (foldl_read_cell_None j) (read_cell_inv j)) in H. lia.
Qed.

(** The bytes of a grid, read into a new object. *)
Lemma load_grid_rows n m (rows : list (list Z)) rest cw :
  board cw = [] → 0 ≤ n < 128 → 0 ≤ m < 128 →
  length rows = Z.to_nat n → Forall (λ r, length r = Z.to_nat m) rows →
  load_grid (n :: m :: mjoin rows ++ rest) cw =
  loadWords (mkCrossword n m (fmap (M := list) remap <$> rows) (areas cw)).
Proof.
  intros Hb Hn Hm Hrows Hcols. unfold load_grid. cbn [get from_option fst snd].
  rewrite !to_char_small, Hb, push_rows_fresh by done. cbn [mbind option_bind].
  rewrite <- Hrows, read_rows; [|done|].
  - cbn [mbind option_bind take app]. rewrite drop_ge, app_nil_r; [done|].
    rewrite length_replicate. lia.
  - intros i Hi. exists (replicate (Z.to_nat m) 48).
    by rewrite lookup_replicate_2, length_replicate by lia.
Qed.

(** A board of [N] rows of [M] cells holds the cells the loops visit. *)
Lemma covers_rows n m (rows : list (list Z)) areas :
  length rows = Z.to_nat n → Forall (λ r, length r = Z.to_nat m) rows →
  covers (mkCrossword n m rows areas).
Proof.
  intros Hrows Hcols i j Hi Hj. cbn in Hi, Hj. unfold isBox. cbn.
  destruct (lookup_lt_is_Some_2 rows i) as [r Hr]; [lia|]. rewrite Hr. cbn.
  rewrite Forall_lookup in Hcols. specialize (Hcols i r Hr).
  destruct (lookup_lt_is_Some_2 r j) as [c Hc]; [lia|]. rewrite Hc. by eexists.
Qed.

(** ** Claims on the grid file *)

(** A grid file is decoded: from the bytes [N], [M] and the [N] rows
    of [M] cells, [load] on a new object builds the board of the remapped
    cells, reads nothing after them, and extracts its slots. *)
Theorem load_grid_decode n m (rows : list (list Z)) rest cw :
  board cw = [] → 0 ≤ n < 128 → 0 ≤ m < 128 →
  length rows = Z.to_nat n → Forall (λ r, length r = Z.to_nat m) rows →
  load_grid (n :: m :: mjoin rows ++ rest) cw =
  loadWords (mkCrossword n m (fmap (M := list) remap <$> rows) (areas cw)).
Proof. apply load_grid_rows. Qed.

(** [C36] A file that ends before the last cell: [load] reads a [char] it
    never wrote. *)
Theorem load_grid_truncated n m cells cw :
  (length cells < Z.to_nat (to_char n) * Z.to_nat (to_char m))%nat →
  load_grid (n :: m :: cells) cw = None.
Proof.
  intros Hlen. unfold load_grid. cbn [get from_option fst snd].
  destruct (push_rows _ _ _) as [b|]; [|done]. cbn [mbind option_bind].
  destruct (foldl _ _ _) as [[b' rest]|] eqn:E; [|done].
  apply read_rows_inv in E. lia.
Qed.

(** [C35] [load] never empties the board: the rows of a grid are added
    after the rows the board holds, and the board of an object that is
    loaded twice has the rows of both files. *)
Theorem load_grid_appends content cw cw' :
  load_grid content cw = Some cw' →
  length (board cw') = (length (board cw) + Z.to_nat (N cw'))%nat.
Proof.
  unfold load_grid. destruct (from_option _ _ (get content)) as [n c1].
  destruct (from_option _ _ (get c1)) as [m c2].
  destruct (push_rows_prefix (Z.to_nat n) (Z.to_nat m) (board cw)) as (b & -> & Hlen & _).
  cbn [mbind option_bind]. destruct (foldl _ _ _) as [[b' rest]|] eqn:E; [|done].
  apply read_rows_inv in E as [E _]. cbn in E.
  intros (-> & _ & -> & _)%loadWords_inv. cbn. lia.
Qed.

(** A dimension of 128 or more is a negative [char]: no row is
    read, the board is as it was and there is no slot. *)
Theorem load_grid_negative n m rest cw :
  128 ≤ n < 256 →
  load_grid (n :: m :: rest) cw = Some (mkCrossword (n - 256) (to_char m) (board cw) []).
Proof.
  intros Hn. unfold load_grid. cbn [get from_option fst snd]. rewrite to_char_large by done.
  assert (Z.to_nat (n - 256) = 0%nat) as Hz by lia. rewrite Hz. cbn.
  unfold loadWords, rows_loop, columns_loop. cbn [N M]. rewrite Hz.
  cbn [seq foldl mbind option_bind].
  rewrite foldl_scan_line_short by (lia || (intros; lia)). cbn. by rewrite sort_nil.
Qed.

(** With the capital letters from 192 on and the small letters from
    224 on, the remapping of a cell is the remapping [dosToWinCode] applies
    to a character of a word. *)
Theorem remap_dosToWinCode_char `{HC : HeaderConstants} c :
  cyrillicA = 192 → CYRILLIC_A = 224 → 0 ≤ c < 256 → remap c = dosToWinCode_char c.
Proof.
  intros HA Ha Hc. unfold remap, dosToWinCode_char. rewrite HA, Ha.
  destruct (decide (c < 192)).
  - rewrite wrap8_small by (unfold is_byte; lia).
    case_decide; destruct (_ <=? c) eqn:?, (c <? _) eqn:?; cbn; lia.
  - replace (wrap8 (c + 64)) with (c - 192) by (unfold wrap8; apply Z.mod_unique with 1; lia).
    rewrite decide_False by lia. destruct (_ <=? c) eqn:?, (c <? _) eqn:?; cbn; lia.
Qed.

End Grid.

(** ** The path of the grid file *)

(** [tolower] in the "C" locale. *)
Definition tolower_char (c : Z) : Z := if decide (65 ≤ c ≤ 90) then c + 32 else c.

(** [".ctb"]. *)
Definition ctb : list Z := [46; 99; 116; 98].

(** [path.substr(path.size() - 4, 4)]: on a path of fewer than four
    characters the position wraps around and [substr] throws
    [std::out_of_range]. *)
Definition suffix4 (path : list Z) : option (list Z) :=
  if decide (4 ≤ length path)%nat then Some (drop (length path - 4) path) else None.

(** [if (path.substr(path.size() - 4, 4) != ".ctb") path += ".ctb";]. *)
Definition add_extension (path : list Z) : option (list Z) :=
  s ← suffix4 path; Some (if decide (s = ctb) then path else path ++ ctb).

(** How the part of [load] that finds the file ends: the file is open, an
    exception leaves the function, or the function does not return.
    [unanswered] is the last: the words typed are used up while a loop
    still asks.  The code then blocks on [cin], or, at the end of the
    input, runs its loop for ever, since a failed [cin >> path] leaves
    [path] as it was. *)
Inductive PathOutcome : Type :=
  | Opened (name content : list Z)
  | out_of_range
  | unanswered.

(** [while (path.size() < 5) { ...; cin >> path; }]: [cin] is the list of
    the words typed. *)
Fixpoint ask_path (path : list Z) (cin : list (list Z)) : option (list Z * list (list Z)) :=
  if decide (length path < 5)%nat
  then match cin with
       | [] => None
       | typed :: cin => ask_path typed cin
       end
  else Some (path, cin).

(** [while (!fin.good()) { ...; cin >> path; if (...) path += ".ctb";
    fin.open(path, ios::binary); }] and [name = path.substr(0, path.size() - 4)]:
    [files] gives the content of the files that can be opened.  A
    successful [fin.open] clears the state of the stream (as from C++11),
    so the loop ends at the first path that opens. *)
Fixpoint open_loop (files : list Z → option (list Z)) (path : list Z) (cin : list (list Z))
  : PathOutcome :=
  match files path with
  | Some content => Opened (take (length path - 4) path) content
  | None => match cin with
            | [] => unanswered
            | typed :: cin => match add_extension typed with
                              | Some path => open_loop files path cin
                              | None => out_of_range
                              end
            end
  end.

(** The lines of [load] before the grid is read. *)
Definition load_path (files : list Z → option (list Z)) (path : list Z) (cin : list (list Z))
  : PathOutcome :=
  match ask_path path cin with
  | None => unanswered
  | Some (path, cin) =>
      match add_extension (tolower_char <$> path) with
      | Some path => open_loop files path cin
      | None => out_of_range
      end
  end.

(** How [load] ends. *)
Inductive LoadOutcome : Type :=
  | Loaded (name : list Z) (cw : crossword)
  | Thrown
  | Waiting
  | Undefined.

Section Load.
Context `{BC : BoardConstants} `{SS : StdSort}.

(** [void crossword::load(string path)], without what it prints. *)
Definition crossword_load (files : list Z → option (list Z)) (path : list Z) (cin : list (list Z))
    (cw : crossword) : LoadOutcome :=
  match load_path files path cin with
  | Opened name content => from_option (Loaded name) Undefined (load_grid content cw)
  | out_of_range => Thrown
  | unanswered => Waiting
  end.

End Load.

Lemma add_extension_Some path path' :
  add_extension path = Some path' →
  (4 ≤ length path')%nat ∧ drop (length path' - 4) path' = ctb ∧
  (path' = path ∨ path' = path ++ ctb).
Proof.
  unfold add_extension, suffix4. case_decide as Hlen; [|done]. cbn.
  case_decide as Hs; intros [= <-].
  - auto.
  - rewrite length_app. cbn. split_and!; [lia| |by right].
    rewrite drop_app_length'; [done|lia].
Qed.

Lemma add_extension_long path : (4 ≤ length path)%nat → is_Some (add_extension path).
Proof. intros. unfold add_extension, suffix4. rewrite decide_True by done. by eexists. Qed.

Lemma open_loop_Opened files path cin name content :
  (4 ≤ length path)%nat → drop (length path - 4) path = ctb →
  open_loop files path cin = Opened name content → files (name ++ ctb) = Some content.
Proof.
  revert path. induction cin as [|typed cin IH]; intros path Hlen Hext; cbn;
    destruct (files path) as [c|] eqn:Hf.
  1,3: intros [= <- <-]; by rewrite <- Hext, take_drop.
  - done.
  - destruct (add_extension typed) as [path'|] eqn:E; [|done].
    apply add_extension_Some in E as (? & ? & _). by apply IH.
Qed.

Lemma ask_path_Some path cin path' cin' :
  ask_path path cin = Some (path', cin') → (5 ≤ length path')%nat.
Proof.
  revert path. induction cin as [|typed cin IH]; intros path; cbn;
    case_decide; try done; try (intros [= <- <-]; lia). apply IH.
Qed.

(** ** Claims on the path *)

(** The file [load] reads is the file [name + ".ctb"]. *)
Theorem load_path_name files path cin name content :
  load_path files path cin = Opened name content → files (name ++ ctb) = Some content.
Proof.
  unfold load_path. destruct (ask_path path cin) as [[path' cin']|]; [|done].
  destruct (add_extension _) as [p|] eqn:E; [|done].
  apply add_extension_Some in E as (? & ? & _). by apply open_loop_Opened.
Qed.

(** A path of five characters or more whose lower-case form, with
    the extension, is a file: it is opened at once, nothing is asked. *)
Theorem load_path_found files path cin p content :
  (5 ≤ length path)%nat → add_extension (tolower_char <$> path) = Some p →
  files p = Some content → load_path files path cin = Opened (take (length p - 4) p) content.
Proof.
  intros Hlen E Hf. unfold load_path.
  replace (ask_path path cin) with (Some (path, cin)) by (destruct cin; cbn; by rewrite decide_False by lia).
  rewrite E. destruct cin; cbn; by rewrite Hf.
Qed.

(** [C37] After a file that cannot be opened, a path of fewer than four
    characters is not asked again as at the start of [load]: [substr]
    throws. *)
Theorem load_path_out_of_range files path typed cin p :
  (5 ≤ length path)%nat → add_extension (tolower_char <$> path) = Some p → files p = None →
  (length typed < 4)%nat → load_path files path (typed :: cin) = out_of_range.
Proof.
  intros Hlen E Hf Ht. unfold load_path. cbn. rewrite decide_False by lia.
  rewrite E. cbn. rewrite Hf. unfold add_extension, suffix4. by rewrite decide_False by lia.
Qed.

(** The path given to [load] is read in lower case; a path typed
    after a failed attempt is not. *)
Theorem load_path_case files path typed cin p q content :
  (5 ≤ length path)%nat → add_extension (tolower_char <$> path) = Some p → files p = None →
  add_extension typed = Some q → files q = Some content →
  load_path files path (typed :: cin) = Opened (take (length q - 4) q) content.
Proof.
  intros Hlen E Hf Eq Hq. unfold load_path. cbn. rewrite decide_False by lia.
  rewrite E. cbn. rewrite Hf, Eq. destruct cin; cbn; by rewrite Hq.
Qed.

(** ** [load] as a whole *)

Section LoadClaims.
Context `{BC : BoardConstants} `{SS : StdSort}.

(** [C8] Loading a well-formed grid: for a path of five characters or more
    that names, in lower case and with the extension, a file of the bytes
    [N], [M] and [N] rows of [M] cells, [load] on a new object returns
    without a prompt; the object has the name of the file, the dimensions,
    the board of the remapped cells, and exactly the slots of that board. *)
Theorem crossword_load_decode files path cin p n m (rows : list (list Z)) rest cw :
  (5 ≤ length path)%nat → add_extension (tolower_char <$> path) = Some p →
  files p = Some (n :: m :: mjoin rows ++ rest) →
  board cw = [] → 0 ≤ n < 128 → 0 ≤ m < 128 →
  length rows = Z.to_nat n → Forall (λ r, length r = Z.to_nat m) rows →
  ∃ cw', crossword_load files path cin cw = Loaded (take (length p - 4) p) cw' ∧
         N cw' = n ∧ M cw' = m ∧ board cw' = (fmap (M := list) remap <$> rows) ∧
         ∀ q, q ∈ areas cw' ↔
              hslot (mkCrossword n m (fmap (M := list) remap <$> rows) (areas cw)) q ∨
              vslot (mkCrossword n m (fmap (M := list) remap <$> rows) (areas cw)) q.
Proof.
  intros Hlen Hp Hfile Hb Hn Hm Hrows Hcols. unfold crossword_load.
  rewrite (load_path_found _ _ _ _ _ Hlen Hp Hfile), load_grid_rows by done.
  set (g := mkCrossword n m _ _).
  destruct (loadWords_defined g) as [cw' Hcw'].
  { apply covers_rows; [by rewrite length_fmap|].
    eapply Forall_fmap, Forall_impl; [exact Hcols|]. intros r Hr. cbn. by rewrite length_fmap. }
  rewrite Hcw'. exists cw'. split; [done|].
  destruct (loadWords_inv _ _ Hcw') as (-> & -> & -> & _). split_and!; [done..|].
  intros q. by apply elem_of_areas.
Qed.

End LoadClaims.

(** ** Instances of the interfaces *)

(** A header with the capital letters from 192 on, in which a box is the
    byte ['*']. *)
Definition star_board : BoardConstants :=
  {| cyrillicA := 192; isBox_uc := λ c, bool_decide (c = 42) |}.

(** Shorter slots first. *)
Definition shorter (x y : position) : Prop := (length (letters x) ≤ length (letters y))%nat.

#[global] Instance shorter_dec : RelDecision shorter.
Proof. intros x y. unfold shorter. apply _. Defined.

#[global] Instance shorter_total : Total shorter.
Proof. intros x y. unfold shorter. lia. Qed.

Lemma Sorted_weaken {A} (R R' : relation A) l : (∀ x y, R x y → R' x y) → Sorted R l → Sorted R' l.
Proof.
  intros H. induction 1 as [|x l _ IH Hd]; constructor; [done|].
  destruct Hd; constructor; auto.
Qed.

Lemma merge_sort_shorter l :
  Sorted (λ x y, bool_decide (length (letters y) < length (letters x))%nat = false)
         (merge_sort shorter l).
Proof.
  apply (Sorted_weaken shorter); [|apply (Sorted_merge_sort shorter)].
  intros x y Hxy. apply bool_decide_eq_false. unfold shorter in Hxy. lia.
Qed.

(** A [std::sort] with the comparator "has fewer letters". *)
Definition by_length : StdSort :=
  {| sortHelp := λ x y, bool_decide (length (letters x) < length (letters y))%nat;
     sort := merge_sort shorter;
     sort_perm := merge_sort_Permutation shorter;
     sort_sorted := merge_sort_shorter |}.

(** ** Witnesses *)

Section CrosswordWitnesses.
#[local] Existing Instance star_board.
#[local] Existing Instance by_length.
#[local] Existing Instance cp1251.

(** A grid of three rows of three cells in the DOS code page; ['*'] is a
    box:
<<
      A B *
      C * D
      E F G
>> *)
Definition grid_rows : list (list Z) := [[128; 129; 42]; [130; 42; 131]; [132; 133; 134]].
Definition grid_file : list Z := 3 :: 3 :: mjoin grid_rows.

(** A new object. *)
Definition blank : crossword := mkCrossword 0 0 [] [].

(** The board of the file. *)
Definition grid : crossword :=
  mkCrossword 3 3 [[192; 193; 42]; [194; 42; 195]; [196; 197; 198]] [].

(** The object after [load], and after a second [load] of the same file. *)
Definition loaded : crossword := Eval vm_compute in default blank (load_grid grid_file blank).
Definition loaded_twice : crossword := Eval vm_compute in default blank (load_grid grid_file loaded).

Example load_grid_file : load_grid grid_file blank = Some loaded.
Proof. vm_compute. reflexivity. Qed.

Example loadWords_grid : loadWords grid = Some loaded.
Proof. vm_compute. reflexivity. Qed.

(** The four slots, the two of two letters before the two of three. *)
Example areas_loaded :
  areas loaded = [horizontal grid 0 0 2; vertical grid 2 1 3; horizontal grid 2 0 3; vertical grid 0 0 3].
Proof. vm_compute. reflexivity. Qed.

(** After the second [load] the first three rows have six cells and three
    empty rows follow. *)
Example board_reloaded :
  board loaded_twice = [[192; 193; 42; 48; 48; 48]; [194; 42; 195; 48; 48; 48];
                    [196; 197; 198; 48; 48; 48]; []; []; []].
Proof. vm_compute. reflexivity. Qed.

Lemma covers_dec cw :
  forallb (λ i, forallb (λ j, bool_decide (is_Some (isBox cw i j))) (seq 0 (Z.to_nat (M cw))))
          (seq 0 (Z.to_nat (N cw))) = true → covers cw.
Proof.
  intros H i j Hi Hj. rewrite forallb_forall in H.
  specialize (H i ltac:(apply in_seq; lia)). rewrite forallb_forall in H.
  specialize (H j ltac:(apply in_seq; lia)). by apply bool_decide_eq_true in H.
Qed.

Lemma loadWords_slots_witness :
  horizontal grid 0 0 2 ∈ areas loaded ↔
  hslot grid (horizontal grid 0 0 2) ∨ vslot grid (horizontal grid 0 0 2).
Proof. apply (loadWords_slots grid loaded). exact loadWords_grid. Defined.

Lemma loadWords_NoDup_witness : NoDup (areas loaded).
Proof. apply (loadWords_NoDup grid). exact loadWords_grid. Defined.

Lemma loadWords_total_witness :
  ∃ cw', loadWords grid = Some cw' ∧ N cw' = N grid ∧ M cw' = M grid ∧ board cw' = board grid ∧
         Sorted (λ x y, sortHelp y x = false) (areas cw').
Proof. apply (loadWords_total grid). by apply covers_dec. Defined.

Lemma loadWords_letters_witness :
  (2 ≤ length (letters (vertical grid 2 1 3)))%nat ∧
  Forall (λ l, id l = Z.of_nat (cell l).1 * M grid + Z.of_nat (cell l).2 ∧
               isBox grid (cell l).1 (cell l).2 = Some false) (letters (vertical grid 2 1 3)).
Proof.
  apply (loadWords_letters grid loaded); [exact loadWords_grid|].
  apply (bool_decide_unpack _). by vm_compute.
Defined.

(** The cell the third row and the first column share. *)
Definition corner : letter := mkLetter (2%nat, 0%nat) 6.

Lemma loadWords_ids_witness : id corner = id corner ↔ cell corner = cell corner.
Proof.
  apply (loadWords_ids grid loaded (horizontal grid 2 0 3) (vertical grid 0 0 3));
    [exact loadWords_grid|apply (bool_decide_unpack _); by vm_compute..].
Defined.

(** The letter of the same cell in the first column, and a letter of
    another cell. *)
Lemma letters_alias_witness :
  deref (assign loaded corner 200) corner =
  if decide (id corner = id corner) then Some 200 else deref loaded corner.
Proof.
  apply (letters_alias grid loaded (horizontal grid 2 0 3) (vertical grid 0 0 3));
    [exact loadWords_grid|apply (bool_decide_unpack _); by vm_compute..].
Defined.

Example letters_alias_other :
  deref (assign loaded corner 200) (mkLetter (0%nat, 0%nat) 0) = Some 192.
Proof. reflexivity. Qed.

Lemma loadWords_single_cell_witness :
  areas (mkCrossword 1 1 [[192]] (@sort by_length [])) = [].
Proof.
  apply (loadWords_single_cell (mkCrossword 1 1 [[192]] [])); [done|done|by apply covers_dec|].
  vm_compute. reflexivity.
Defined.

Lemma loadWords_single_row_witness :
  areas (mkCrossword 1 3 [[192; 193; 194]]
           [horizontal (mkCrossword 1 3 [[192; 193; 194]] []) 0 0 3]) =
  [horizontal (mkCrossword 1 3 [[192; 193; 194]] []) 0 0 (Z.to_nat (M (mkCrossword 1 3 [[192; 193; 194]] [])))].
Proof.
  apply (loadWords_single_row (mkCrossword 1 3 [[192; 193; 194]] [])); [done|cbn; lia|by apply covers_dec| |].
  - intros j Hj. cbn in Hj. by do 3 (destruct j as [|j]; [done|]); lia.
  - vm_compute. reflexivity.
Defined.

Lemma load_grid_decode_witness :
  load_grid (3 :: 3 :: mjoin grid_rows ++ [7]) blank =
  loadWords (mkCrossword 3 3 (fmap (M := list) remap <$> grid_rows) (areas blank)).
Proof. apply load_grid_decode; [done|lia|lia|done|by repeat constructor]. Defined.

Lemma load_grid_truncated_witness : load_grid (3 :: 3 :: [128; 129; 42; 130]) blank = None.
Proof. apply load_grid_truncated. vm_compute. lia. Defined.

Lemma load_grid_appends_witness :
  length (board loaded_twice) = (length (board loaded) + Z.to_nat (N loaded_twice))%nat.
Proof. apply (load_grid_appends grid_file). vm_compute. reflexivity. Defined.

Lemma load_grid_negative_witness :
  load_grid (200 :: 3 :: [128; 129; 42]) blank =
  Some (mkCrossword (200 - 256) (to_char 3) (board blank) []).
Proof. apply load_grid_negative. lia. Defined.

Lemma remap_dosToWinCode_char_witness : remap 130 = dosToWinCode_char 130.
Proof. apply remap_dosToWinCode_char; [done|done|lia]. Defined.

(** The paths [GRID1], [grid1], [other] and [abc]; the only file is
    [grid1.ctb]. *)
Definition GRID1 : list Z := [71; 82; 73; 68; 49].
Definition grid1 : list Z := [103; 114; 105; 100; 49].
Definition other : list Z := [111; 116; 104; 101; 114].
Definition abc : list Z := [97; 98; 99].

Definition one_file (path : list Z) : option (list Z) :=
  if decide (path = grid1 ++ ctb) then Some grid_file else None.

Example load_GRID1 : crossword_load one_file GRID1 [] blank = Loaded grid1 loaded.
Proof. vm_compute. reflexivity. Qed.

(** The path typed after a failed attempt is used as it is typed. *)
Example load_GRID1_retyped : crossword_load one_file other [GRID1] blank = Waiting.
Proof. vm_compute. reflexivity. Qed.

Lemma load_path_name_witness : one_file (grid1 ++ ctb) = Some grid_file.
Proof. apply (load_path_name one_file GRID1 []). vm_compute. reflexivity. Defined.

Lemma load_path_found_witness :
  load_path one_file GRID1 [abc] =
  Opened (take (length (grid1 ++ ctb) - 4) (grid1 ++ ctb)) grid_file.
Proof. apply load_path_found; [cbn; lia|vm_compute; reflexivity..]. Defined.

Lemma load_path_out_of_range_witness : load_path one_file other (abc :: [grid1]) = out_of_range.
Proof.
  apply (load_path_out_of_range one_file other abc [grid1] (other ++ ctb));
    [cbn; lia|vm_compute; reflexivity..|cbn; lia].
Defined.

Lemma load_path_case_witness :
  load_path one_file other (grid1 :: []) =
  Opened (take (length (grid1 ++ ctb) - 4) (grid1 ++ ctb)) grid_file.
Proof.
  apply (load_path_case one_file other grid1 [] (other ++ ctb)); [cbn; lia|vm_compute; reflexivity..].
Defined.

Lemma crossword_load_decode_witness :
  ∃ cw', crossword_load one_file GRID1 [] blank =
           Loaded (take (length (grid1 ++ ctb) - 4) (grid1 ++ ctb)) cw' ∧
         N cw' = 3 ∧ M cw' = 3 ∧ board cw' = (fmap (M := list) remap <$> grid_rows) ∧
         ∀ q, q ∈ areas cw' ↔
              hslot (mkCrossword 3 3 (fmap (M := list) remap <$> grid_rows) (areas blank)) q ∨
              vslot (mkCrossword 3 3 (fmap (M := list) remap <$> grid_rows) (areas blank)) q.
Proof.
  apply (crossword_load_decode one_file GRID1 [] (grid1 ++ ctb) 3 3 grid_rows []);
    [cbn; lia|vm_compute; reflexivity|vm_compute; reflexivity|done|lia|lia|done|by repeat constructor].
Defined.

End CrosswordWitnesses.
